(** * Email agent supervisor: the scoring and decision engine of
      [supervisor_demo.py], embedded in Rocq.

    Python values are modelled as follows.
    - [str] is a sequence of Unicode code points, [list N];
    - [int] is [Z]; [float] is IEEE 754 binary64, through [SpecFloat];
    - a [dict] is an association list in insertion order, with a
      subscript that raises [KeyError];
    - the tables of the interpreter that the source relies on but does not
      contain ([str.lower], the classes [\d], [\s], [\w] of [re] and its
      case-insensitive comparison) are the fields of the class [Unicode]:
      every theorem holds for every instance, and [ascii_tables] is the
      instance that agrees with CPython on code points below 128. *)

From Stdlib Require Import String Ascii.
From Stdlib Require Import List ZArith NArith Bool Lia.
From Stdlib Require Import Sorting.Sorted Sorting.Mergesort Orders Permutation.
From Stdlib Require Import Floats.SpecFloat.
From Stdlib Require Import QArith Qabs Qpower Lqa.
Import ListNotations.

Set Implicit Arguments.
Local Open Scope Z_scope.

(** ** Strings *)

Module Str.

Definition str := list N.

(** Bytes of a literal of this file, which is UTF-8 encoded. *)
Definition bytes (s : string) : list N :=
  map (fun a => N.of_nat (nat_of_ascii a)) (list_ascii_of_string s).

(** UTF-8 decoding of a well-formed literal (1 to 4 byte forms). *)
Fixpoint utf8_decode (bs : list N) : str :=
  match bs with
  | [] => []
  | b0 :: t0 =>
    if (b0 <? 128)%N then b0 :: utf8_decode t0
    else match t0 with
    | [] => [b0]
    | b1 :: t1 =>
      if (b0 <? 224)%N
      then ((b0 - 192) * 64 + (b1 - 128))%N :: utf8_decode t1
      else match t1 with
      | [] => [b0; b1]
      | b2 :: t2 =>
        if (b0 <? 240)%N
        then ((b0 - 224) * 4096 + (b1 - 128) * 64 + (b2 - 128))%N
               :: utf8_decode t2
        else match t2 with
        | [] => [b0; b1; b2]
        | b3 :: t3 =>
          ((b0 - 240) * 262144 + (b1 - 128) * 4096
           + (b2 - 128) * 64 + (b3 - 128))%N :: utf8_decode t3
        end
      end
    end
  end.

(** [u "..."] is the Python string written ["..."] in the source. *)
Definition u (s : string) : str := utf8_decode (bytes s).

Definition str_eq_dec : forall a b : str, {a = b} + {a <> b} :=
  list_eq_dec N.eq_dec.

Definition str_eqb (a b : str) : bool :=
  if str_eq_dec a b then true else false.

(** [startswith p s]: [s.startswith(p)]. *)
Fixpoint startswith (p s : str) : bool :=
  match p, s with
  | [], _ => true
  | _ :: _, [] => false
  | a :: p', b :: s' => (a =? b)%N && startswith p' s'
  end.

(** [contains s p]: the Python test [p in s] on strings. *)
Fixpoint contains (s p : str) : bool :=
  startswith p s ||
  match s with
  | [] => false
  | _ :: s' => contains s' p
  end.

(** Declarative reading of [p in s]. *)
Definition substring (p s : str) : Prop :=
  exists pre post, s = pre ++ p ++ post.

(** Comparison of strings as Python compares them: code point by code
    point, a proper prefix first. *)
Fixpoint str_leb (a b : str) : bool :=
  match a, b with
  | [], _ => true
  | _ :: _, [] => false
  | x :: a', y :: b' =>
    if (x <? y)%N then true
    else if (y <? x)%N then false
    else str_leb a' b'
  end.

Definition str_lt (a b : str) : Prop := str_leb a b = true /\ a <> b.

(** [list(set(xs))]: each distinct element once.  The order in which
    Python enumerates a set is unspecified; nothing below depends on it. *)
Definition set_of (xs : list str) : list str := nodup str_eq_dec xs.

End Str.
Import Str.

(** ** Tables of the interpreter *)

Class Unicode := {
  (** [str.lower()] *)
  str_lower : str -> str;
  (** [\d] of [re] on [str] patterns *)
  is_digit : N -> bool;
  (** [\s] of [re] and the white space of [str.strip()] *)
  is_space : N -> bool;
  (** [\w] of [re], which decides [\b] *)
  is_word : N -> bool;
  (** [ieq p c]: under [re.IGNORECASE] the literal [p] of a pattern
      matches the character [c] *)
  ieq : N -> N -> bool
}.

Module Ascii7.

Definition lower_char (c : N) : N :=
  if ((65 <=? c) && (c <=? 90))%N then (c + 32)%N else c.

Definition digit (c : N) : bool := ((48 <=? c) && (c <=? 57))%N.

Definition space (c : N) : bool :=
  (((9 <=? c) && (c <=? 13)) || ((28 <=? c) && (c <=? 32)))%N.

Definition word (c : N) : bool :=
  (digit c || ((65 <=? c) && (c <=? 90)) || ((97 <=? c) && (c <=? 122))
   || (c =? 95))%N.

Definition same_letter (p c : N) : bool := (lower_char p =? lower_char c)%N.

End Ascii7.

(** The tables of CPython restricted to ASCII: exact on every string whose
    code points are below 128. *)
Definition ascii_tables : Unicode := {|
  str_lower := map Ascii7.lower_char;
  is_digit := Ascii7.digit;
  is_space := Ascii7.space;
  is_word := Ascii7.word;
  ieq := Ascii7.same_letter
|}.

(** ** Term dictionaries *)

Definition FREE_DOMAINS : list str := map u
  [ "gmail.com"; "yahoo.com"; "hotmail.com"; "outlook.com"; "live.com";
    "icloud.com"; "proton.me"; "protonmail.com" ]%string.

Definition ROLE_TERMS : list str := map u
  [ "ceo"; "cfo"; "coo"; "cto"; "chairman"; "board"; "director"; "vp";
    "vice president"; "general counsel"; "legal counsel"; "head of";
    "founder"; "owner"; "president";
    "dirección"; "director"; "consejo"; "presidente"; "propietario";
    "fundador"; "asesoría jurídica" ]%string.

Definition URGENCY_TERMS : list str := map u
  [ "urgent"; "asap"; "immediately"; "today"; "right away";
    "time-sensitive"; "confidential";
    "urgente"; "inmediato"; "hoy"; "confidencial"; "reservado" ]%string.

Definition SECURITY_TERMS : list str := map u
  [ "password"; "reset"; "2fa"; "authentication"; "login"; "breach";
    "hack"; "phishing";
    "contraseña"; "acceso"; "intrusión"; "hackeo"; "suplantación";
    "phishing";
    "wire transfer"; "bank details"; "change payment"; "invoice change";
    "transferencia"; "cambiar pago"; "cambio de cuenta";
    "datos bancarios" ]%string.

Record TermRule := { weight : Z; terms : list str }.

Definition INTENT_RULES : list (string * TermRule) :=
  [ ("M_AND_A", {| weight := 5; terms := map u
      [ "acquire"; "acquisition"; "buy your company";
        "purchase your company"; "merger"; "m&a";
        "investment proposal"; "valuation"; "term sheet"; "due diligence";
        "equity"; "stake";
        "adquirir"; "compra de la empresa"; "comprar la compañía";
        "fusión"; "adquisición";
        "oferta de compra"; "valoración"; "participación";
        "inversión" ] |});
    ("LEGAL", {| weight := 4; terms := map u
      [ "contract"; "agreement"; "nda"; "gdpr"; "compliance"; "lawsuit";
        "legal notice";
        "contrato"; "acuerdo"; "nda"; "rgpd"; "cumplimiento"; "demanda";
        "notificación legal" ] |});
    ("SECURITY", {| weight := 5; terms := SECURITY_TERMS |});
    ("SALES", {| weight := 2; terms := map u
      [ "pricing"; "quote"; "proposal"; "demo"; "partnership"; "reseller";
        "precio"; "presupuesto"; "propuesta"; "demostración";
        "colaboración" ] |});
    ("SUPPORT", {| weight := 1; terms := map u
      [ "help"; "issue"; "bug"; "problem"; "doesn't work"; "error";
        "ayuda"; "incidencia"; "fallo"; "no funciona"; "problema" ] |})
  ]%string.

(** ** Pattern extractors: term presence *)

Section TermPresence.
Context {U : Unicode}.

Definition contains_any (text : str) (terms : list str) : bool :=
  let t := str_lower text in
  existsb (fun term => contains t term) terms.

(** [sum(1 for term in terms if term in t)] *)
Definition count_any (text : str) (terms : list str) : Z :=
  let t := str_lower text in
  fold_left Z.add
    (map (fun _ => 1) (filter (fun term => contains t term) terms)) 0.

End TermPresence.

(** ** Regular expressions

    The fragment of Python's [re] that the source uses, with the
    semantics of its backtracking matcher: alternatives are tried from
    left to right, a repetition is greedy and gives characters back one at
    a time, [search] returns the leftmost match and [findall] the
    successive non-overlapping ones. *)

Module Re.

(** A member of a bracketed class. *)
Inductive item :=
| IChar (c : N)
| IRange (lo hi : N)
| IDigit
| ISpace.

(** Patterns that consume exactly one character. *)
Inductive atom :=
| Lit (c : N)
| In (items : list item)
| Digit
| Space
| NonSpace.

Inductive regex :=
| Empty
| Atom (a : atom)
| Repeat (lo : nat) (hi : option nat) (a : atom)
| Seq (r1 r2 : regex)
| Alt (r1 r2 : regex)
| Group (r : regex)
| Boundary.

(** The character of a one-character literal. *)
Definition ch (s : string) : N := hd 0%N (u s).

(** A literal word, character by character. *)
Definition word (s : string) : regex :=
  fold_right (fun c r => Seq (Atom (Lit c)) r) Empty (u s).

Definition seq (rs : list regex) : regex := fold_right Seq Empty rs.

Definition opt (a : atom) : regex := Repeat 0 (Some 1%nat) a.
Definition star (a : atom) : regex := Repeat 0 None a.
Definition plus (a : atom) : regex := Repeat 1 None a.
Definition at_least (n : nat) (a : atom) : regex := Repeat n None a.

Fixpoint has_group (r : regex) : bool :=
  match r with
  | Group _ => true
  | Seq r1 r2 | Alt r1 r2 => has_group r1 || has_group r2
  | _ => false
  end.

(** What a match reports: the text of group 0 and of group 1. *)
Record found := { whole : str; group1 : option str }.

Section Engine.
Context {U : Unicode}.

(** [re.IGNORECASE].  No pattern of the source that is compiled with the
    flag contains a range, so a range is compared as written. *)
Variable icase : bool.

Definition lit_match (p c : N) : bool :=
  if icase then ieq p c else (p =? c)%N.

Definition item_match (i : item) (c : N) : bool :=
  match i with
  | IChar p => lit_match p c
  | IRange lo hi => ((lo <=? c) && (c <=? hi))%N
  | IDigit => is_digit c
  | ISpace => is_space c
  end.

Definition atom_match (a : atom) (c : N) : bool :=
  match a with
  | Lit p => lit_match p c
  | In items => existsb (fun i => item_match i c) items
  | Digit => is_digit c
  | Space => is_space c
  | NonSpace => negb (is_space c)
  end.

Definition more (hi : option nat) : bool :=
  match hi with
  | Some O => false
  | _ => true
  end.

Definition less (hi : option nat) : option nat := option_map pred hi.

(** [\b]: exactly one of the two neighbours is a word character; the two
    ends of the string count as non-word. *)
Definition word_before (prev : option N) : bool :=
  match prev with
  | Some c => is_word c
  | None => false
  end.

Definition word_after (s : str) : bool :=
  match s with
  | c :: _ => is_word c
  | [] => false
  end.

Definition at_boundary (prev : option N) (s : str) : bool :=
  xorb (word_before prev) (word_after s).

(** The state of the matcher is the character before the cursor and the
    text after it; [R] is what a successful match hands back: the text left
    after the match and group 1. *)
Definition R : Type := str * option str.

(** Greedy repetition [a{lo,hi}] followed by [k]. *)
Fixpoint rep (a : atom) (lo : nat) (hi : option nat) (prev : option N)
    (s : str) (k : option N -> str -> option R) {struct s} : option R :=
  let stop := match lo with O => k prev s | S _ => None end in
  match s with
  | c :: s' =>
    if more hi && atom_match a c then
      match rep a (pred lo) (less hi) (Some c) s' k with
      | Some r => Some r
      | None => stop
      end
    else stop
  | [] => stop
  end.

(** [taken s s']: the prefix of [s] consumed to reach its suffix [s']. *)
Definition taken (s s' : str) : str :=
  firstn (length s - length s') s.

Fixpoint run (r : regex) (prev : option N) (s : str) (g : option str)
    (k : option N -> str -> option str -> option R) : option R :=
  match r with
  | Empty => k prev s g
  | Atom a =>
    match s with
    | c :: s' => if atom_match a c then k (Some c) s' g else None
    | [] => None
    end
  | Repeat lo hi a => rep a lo hi prev s (fun prev' s' => k prev' s' g)
  | Seq r1 r2 =>
    run r1 prev s g (fun prev' s' g' => run r2 prev' s' g' k)
  | Alt r1 r2 =>
    match run r1 prev s g k with
    | Some x => Some x
    | None => run r2 prev s g k
    end
  | Group r1 =>
    run r1 prev s g (fun prev' s' _ => k prev' s' (Some (taken s s')))
  | Boundary => if at_boundary prev s then k prev s g else None
  end.

Definition match_at (r : regex) (prev : option N) (s : str) : option R :=
  run r prev s None (fun _ s' g => Some (s', g)).

Fixpoint search_from (r : regex) (prev : option N) (s : str)
    : option found :=
  match match_at r prev s with
  | Some (s', g) => Some {| whole := taken s s'; group1 := g |}
  | None =>
    match s with
    | [] => None
    | c :: s' => search_from r (Some c) s'
    end
  end.

(** [re.search(r, s)] *)
Definition search (r : regex) (s : str) : option found :=
  search_from r None s.

(** What [findall] lists for one match: group 1 when the pattern has a
    group, the whole match otherwise. *)
Definition reported (r : regex) (w : str) (g : option str) : str :=
  if has_group r then match g with Some x => x | None => [] end else w.

(** [skip] characters are still covered by the previous match.  After a
    match the scan resumes where it ended, one character further when
    the match was empty. *)
Fixpoint findall_from (r : regex) (skip : nat) (prev : option N) (s : str)
    {struct s} : list str :=
  match skip with
  | S n =>
    match s with
    | [] => []
    | c :: s' => findall_from r n (Some c) s'
    end
  | O =>
    match match_at r prev s with
    | Some (s', g) =>
      reported r (taken s s') g ::
      match s with
      | [] => []
      | c :: s'' =>
        findall_from r (pred (length (taken s s'))) (Some c) s''
      end
    | None =>
      match s with
      | [] => []
      | c :: s'' => findall_from r 0 (Some c) s''
      end
    end
  end.

(** [re.findall(r, s)] *)
Definition findall (r : regex) (s : str) : list str :=
  findall_from r 0 None s.

End Engine.
End Re.

(** ** Pattern extractors: regular expressions *)

Module Patterns.
Import Re.

Definition letters : list item :=
  [IRange (ch "A") (ch "Z"); IRange (ch "a") (ch "z")].

Definition host_chars : list item :=
  letters ++ [IRange (ch "0") (ch "9"); IChar (ch "."); IChar (ch "-")].

(** [@([A-Za-z0-9.-]+\.[A-Za-z]{2,})] *)
Definition email_domain : regex :=
  Seq (Atom (Lit (ch "@")))
      (Group (seq [plus (In host_chars); Atom (Lit (ch "."));
                   at_least 2 (In letters)])).

Definition amount_chars : list item :=
  [IDigit; IChar (ch "."); IChar (ch ",")].

(** [<sym>\s?\d[\d.,]*\b] for a currency symbol [sym] *)
Definition symbol_first (sym : N) : regex :=
  seq [Atom (Lit sym); opt Space; Atom Digit; star (In amount_chars);
       Boundary].

(** [\b\d[\d.,]*\s?(m|million|millones|b|billion|mil)\b] *)
Definition magnitude : regex :=
  seq [Boundary; Atom Digit; star (In amount_chars); opt Space;
       Group (Alt (word "m") (Alt (word "million") (Alt (word "millones")
             (Alt (word "b") (Alt (word "billion") (word "mil"))))));
       Boundary].

(** [\b\d{2,}\s?<sym>\b] *)
Definition symbol_last (sym : N) : regex :=
  seq [Boundary; at_least 2 Digit; opt Space; Atom (Lit sym); Boundary].

Definition money : list regex :=
  [ symbol_first (ch "€"); symbol_first (ch "$"); magnitude;
    symbol_last (ch "€"); symbol_last (ch "$") ].

(** [https?://\S+|www\.\S+] *)
Definition url : regex :=
  Alt (seq [word "http"; opt (Lit (ch "s")); word "://"; plus NonSpace])
      (seq [word "www"; Atom (Lit (ch ".")); plus NonSpace]).

Definition phone_chars : list item :=
  [IDigit; ISpace; IChar (ch "("); IChar (ch ")"); IChar (ch ".");
   IChar (ch "-")].

(** [\+?\d[\d\s().-]{7,}\d] *)
Definition phone : regex :=
  seq [opt (Lit (ch "+")); Atom Digit; at_least 7 (In phone_chars);
       Atom Digit].

End Patterns.

Section Extractors.
Context {U : Unicode}.

(** [m.group(1).lower() if m else None] *)
Definition extract_email_domain (sender : str) : option str :=
  match Re.search false Patterns.email_domain sender with
  | Some m =>
    Some (str_lower (match Re.group1 m with Some g => g | None => [] end))
  | None => None
  end.

(** [x.strip()] is true when some character of [x] is not white space. *)
Definition strip_nonempty (x : str) : bool :=
  existsb (fun c => negb (is_space c)) x.

Definition find_money (text : str) : list str :=
  let found :=
    flat_map (fun p => Re.findall true p text) Patterns.money in
  set_of (filter strip_nonempty found).

Definition find_urls (text : str) : list str :=
  set_of (Re.findall true Patterns.url text).

Definition find_phones (text : str) : list str :=
  set_of (Re.findall false Patterns.phone text).

End Extractors.

(** ** Exceptions and dictionaries *)

Inductive exn :=
| KeyError (k : string)
| TypeError
| OverflowError.

Inductive exc (A : Type) :=
| Ok (a : A)
| Raise (e : exn).

Arguments Ok {A} a.
Arguments Raise {A} e.

Definition bind {A B : Type} (m : exc A) (f : A -> exc B) : exc B :=
  match m with
  | Ok a => f a
  | Raise e => Raise e
  end.

Notation "x <- m ;; k" := (bind m (fun x => k))
  (at level 61, m at next level, right associativity).
Notation "' p <- m ;; k" := (bind m (fun x => let p := x in k))
  (at level 61, p pattern, m at next level, right associativity).

Module Dict.
Section Dict.
Variable V : Type.

(** Entries in insertion order, one per key. *)
Definition dict := list (string * V).

Fixpoint lookup (d : dict) (k : string) : option V :=
  match d with
  | [] => None
  | (k', v) :: d' => if String.eqb k' k then Some v else lookup d' k
  end.

(** [d[k]] *)
Definition getitem (d : dict) (k : string) : exc V :=
  match lookup d k with
  | Some v => Ok v
  | None => Raise (KeyError k)
  end.

(** [d.get(k, default)] *)
Definition get (d : dict) (k : string) (default : V) : V :=
  match lookup d k with
  | Some v => v
  | None => default
  end.

(** [d[k] = v]: a present key keeps its place, a new key goes last. *)
Fixpoint setitem (d : dict) (k : string) (v : V) : dict :=
  match d with
  | [] => [(k, v)]
  | (k', v') :: d' =>
    if String.eqb k' k then (k', v) :: d' else (k', v') :: setitem d' k v
  end.

Definition keys (d : dict) : list string := map fst d.

(** [{k: v for k in ks}] *)
Definition from_keys (ks : list string) (v : V) : dict :=
  fold_left (fun d k => setitem d k v) ks [].

End Dict.
End Dict.
Import Dict.

(** ** Floating point *)

Module Float.

Definition float := spec_float.
Definition prec : Z := 53.
Definition emax : Z := 1024.

Definition add : float -> float -> float := SFadd prec emax.
Definition mul : float -> float -> float := SFmul prec emax.
Definition leb : float -> float -> bool := SFleb.

(** The double of an integer, rounded to nearest even. *)
Definition of_Z (z : Z) : float := binary_normalize prec emax z 0 false.

Definition is_finite (x : float) : bool :=
  match x with
  | S754_zero _ | S754_finite _ _ _ => true
  | _ => false
  end.

(** [float(z)] as arithmetic applies it to an [int] operand: an integer
    beyond the doubles raises [OverflowError]. *)
Definition of_int (z : Z) : exc float :=
  if is_finite (of_Z z) then Ok (of_Z z) else Raise OverflowError.

(** The double nearest to the fraction [num/den], ties to even. *)
Definition nearest (num den : positive) : float :=
  let '(m, e, l) := SFdiv_core_binary prec emax (Zpos num) 0 (Zpos den) 0 in
  binary_round_aux prec emax false m e l.

(** The literals [0.0], [1.2], [1.3] and [1.1]. *)
Definition zero : float := S754_zero false.
Definition f1_2 : float := nearest 12 10.
Definition f1_3 : float := nearest 13 10.
Definition f1_1 : float := nearest 11 10.

(** [x >= z] for a float and an [int] constant that is a double. *)
Definition ge_int (x : float) (z : Z) : bool := leb (of_Z z) x.

(** Quotient of [a] by [b > 0] rounded to the nearest integer, ties to
    even. *)
Definition div_half_even (a b : Z) : Z :=
  let q := a / b in
  let r := a mod b in
  match 2 * r ?= b with
  | Lt => q
  | Gt => q + 1
  | Eq => if Z.even q then q else q + 1
  end.

(** [round(x, 2)]: the exact value of [x] is rounded to two decimals,
    ties to even, and the double nearest to that decimal is returned. *)
Definition round2 (x : float) : float :=
  match x with
  | S754_finite s m e =>
    let hundredths :=
      match e with
      | Zneg p => div_half_even (Zpos m * 100) (Z.pow_pos 2 p)
      | _ => Zpos m * 100 * 2 ^ e
      end in
    match hundredths with
    | Zpos q => if s then SFopp (nearest q 100) else nearest q 100
    | _ => S754_zero s
    end
  | _ => x
  end.

End Float.

(** ** Records of the interface *)

Record Email := { sender : str; subject : str; body : str }.

Inductive Action := AUTO_REPLY | ESCALATE_HUMAN | BLOCK.

(** The values stored in the feature dictionary. *)
Inductive value :=
| VStr (s : str)
| VBool (b : bool)
| VInt (z : Z)
| VList (l : list str).

(** Truth value of an object in a condition. *)
Definition truthy (v : value) : bool :=
  match v with
  | VStr s => negb (Nat.eqb (length s) 0)
  | VBool b => b
  | VInt z => negb (z =? 0)
  | VList l => negb (Nat.eqb (length l) 0)
  end.

(** [len(v)] *)
Definition len (v : value) : exc Z :=
  match v with
  | VStr s => Ok (Z.of_nat (length s))
  | VList l => Ok (Z.of_nat (length l))
  | _ => Raise TypeError
  end.

Record Decision := {
  action : Action;
  risk : Float.float;
  intent_scores : dict Z;
  intent_evidence : dict (list str);
  features : dict value
}.

(** ** Intent scorer *)

Definition nl : str := [10%N].

(** [sorted(xs)], by insertion. *)
Fixpoint insert (x : str) (l : list str) : list str :=
  match l with
  | [] => [x]
  | y :: l' => if str_leb x y then x :: l else y :: insert x l'
  end.

Definition sorted (xs : list str) : list str := fold_right insert [] xs.

Section Scorer.
Context {U : Unicode}.

(** The inner loop: the terms of a rule whose lower-cased form occurs in
    [text], in the order of the rule. *)
Definition hits_of (text : str) (rule : TermRule) : list str :=
  filter (fun term => contains text (str_lower term)) (terms rule).

(** The loop over [INTENT_RULES.items()]. *)
Fixpoint score_loop (items : list (string * TermRule)) (text : str)
    (scores : dict Z) (evidence : dict (list str))
    : exc (dict Z * dict (list str)) :=
  match items with
  | [] => Ok (scores, evidence)
  | (intent, rule) :: rest =>
    match hits_of text rule with
    | [] => score_loop rest text scores evidence
    | hits =>
      old <- getitem scores intent ;;
      let scores :=
        setitem scores intent
          (old + weight rule * Z.of_nat (length (set_of hits))) in
      let evidence := setitem evidence intent (sorted (set_of hits)) in
      score_loop rest text scores evidence
    end
  end.

Definition score_intents (subject body : str)
    : exc (dict Z * dict (list str)) :=
  let text := str_lower (subject ++ nl ++ body) in
  let scores := from_keys (keys INTENT_RULES) 0 in
  let evidence := from_keys (keys INTENT_RULES) ([] : list str) in
  score_loop INTENT_RULES text scores evidence.

End Scorer.

(** ** Feature extractor *)

Section Features.
Context {U : Unicode}.

(** [x or ""] *)
Definition or_empty (x : option str) : str :=
  match x with
  | Some (c :: d) => c :: d
  | _ => []
  end.

Definition extract_features (email : Email) : dict value :=
  let domain := or_empty (extract_email_domain (sender email)) in
  let sender_is_free :=
    match domain with
    | [] => true
    | _ => existsb (str_eqb domain) FREE_DOMAINS
    end in
  let text := subject email ++ nl ++ body email in
  [ ("sender_domain", VStr domain);
    ("sender_is_free_domain", VBool sender_is_free);
    ("mentions_roles", VBool (contains_any text ROLE_TERMS));
    ("role_hits", VInt (count_any text ROLE_TERMS));
    ("mentions_urgency", VBool (contains_any text URGENCY_TERMS));
    ("urgency_hits", VInt (count_any text URGENCY_TERMS));
    ("money_mentions", VList (find_money text));
    ("urls", VList (find_urls text));
    ("phones", VList (find_phones text));
    ("length", VInt (Z.of_nat (length text))) ]%string.

End Features.

(** ** Decision engine *)

Definition strong_security_terms : list str := map u
  [ "breach"; "hack"; "phishing"; "wire transfer"; "bank details";
    "datos bancarios"; "transferencia" ]%string.

Section Engine.
Context {U : Unicode}.

Definition has_strong_security (email : Email) : bool :=
  let text_all := str_lower (subject email ++ nl ++ body email) in
  existsb (fun t => contains text_all t) strong_security_terms.

(** The suppression rule, [support_like] to [scores["SECURITY"] = 0]. *)
Definition suppress (email : Email) (scores : dict Z) : dict Z :=
  let support_like := get scores "SUPPORT" 0 >=? 1 in
  let security_like := get scores "SECURITY" 0 >? 0 in
  if support_like && security_like && negb (has_strong_security email)
  then setitem scores "SECURITY" 0
  else scores.

Definition strategic_risk (scores : dict Z) (features : dict value)
    : exc Float.float :=
  let r := Float.zero in
  m <- Float.of_int (get scores "M_AND_A" 0) ;;
  let r := Float.add r (Float.mul m Float.f1_2) in
  roles <- getitem features "mentions_roles" ;;
  let r := Float.add r (Float.of_Z (if truthy roles then 4 else 0)) in
  urgency <- getitem features "mentions_urgency" ;;
  let r := Float.add r (Float.of_Z (if truthy urgency then 2 else 0)) in
  money <- getitem features "money_mentions" ;;
  let r := Float.add r (Float.of_Z (if truthy money then 3 else 0)) in
  Ok r.

Definition operational_risk (scores : dict Z) : exc Float.float :=
  let r := Float.zero in
  s <- Float.of_int (get scores "SECURITY" 0) ;;
  let r := Float.add r (Float.mul s Float.f1_3) in
  l <- Float.of_int (get scores "LEGAL" 0) ;;
  let r := Float.add r (Float.mul l Float.f1_1) in
  Ok r.

Definition trust_penalty (scores : dict Z) (features : dict value)
    : exc Float.float :=
  let t := Float.zero in
  free <- getitem features "sender_is_free_domain" ;;
  let t := if truthy free then Float.add t (Float.of_Z 2) else t in
  urls <- getitem features "urls" ;;
  n_urls <- len urls ;;
  let t := if n_urls >=? 2 then Float.add t (Float.of_Z 2) else t in
  phones <- getitem features "phones" ;;
  n_phones <- len phones ;;
  let t :=
    if (n_phones >=? 1) && (get scores "SECURITY" 0 >? 0)
    then Float.add t (Float.of_Z 2) else t in
  Ok t.

(** [features["mentions_roles"] and features["mentions_urgency"] and
    features["money_mentions"]], as a condition: the operands are looked
    up from left to right and only as far as needed. *)
Definition roles_urgency_money (features : dict value) : exc bool :=
  roles <- getitem features "mentions_roles" ;;
  if truthy roles then
    urgency <- getitem features "mentions_urgency" ;;
    if truthy urgency then
      money <- getitem features "money_mentions" ;;
      Ok (truthy money)
    else Ok false
  else Ok false.

(** The chain [if] ... [elif] ... [else] that picks the action. *)
Definition select_action (scores : dict Z) (features : dict value)
    (trust_penalty total_risk : Float.float) : exc Action :=
  if (get scores "SECURITY" 0 >=? 10) && Float.ge_int trust_penalty 3
  then Ok BLOCK
  else if (get scores "M_AND_A" 0 >=? 5) || (get scores "LEGAL" 0 >=? 8)
  then Ok ESCALATE_HUMAN
  else
    c <- roles_urgency_money features ;;
    if c then Ok ESCALATE_HUMAN
    else if Float.ge_int total_risk 10 then Ok ESCALATE_HUMAN
    else Ok AUTO_REPLY.

Definition decide_action (email : Email) : exc Decision :=
  '(scores, intent_evidence) <-
     score_intents (subject email) (body email) ;;
  let features := extract_features email in
  let scores := suppress email scores in
  strategic <- strategic_risk scores features ;;
  operational <- operational_risk scores ;;
  trust <- trust_penalty scores features ;;
  let total_risk := Float.add (Float.add strategic operational) trust in
  action <- select_action scores features trust total_risk ;;
  Ok {| action := action;
        risk := Float.round2 total_risk;
        intent_scores := scores;
        intent_evidence := intent_evidence;
        features := features |}.

End Engine.

(** * Closed forms and the vocabulary of the specification

    The definitions below are not part of the program: they name what
    its functions compute, and the notions the specification uses. *)

Definition str_le (a b : str) : Prop := str_leb a b = true.

Definition text_of (email : Email) : str :=
  subject email ++ nl ++ body email.

Definition nonempty (l : list str) : bool := negb (Nat.eqb (length l) 0).

Definition categories : list string :=
  [ "M_AND_A"; "LEGAL"; "SECURITY"; "SALES"; "SUPPORT" ]%string.

Definition values_of {A : Type} (f : TermRule -> A)
    (items : dict TermRule) : dict A :=
  map (fun it => (fst it, f (snd it))) items.

Definition upto (n : nat) : list Z := map Z.of_nat (seq 0 (S n)).

Definition float_eqb (x y : Float.float) : bool :=
  match x, y with
  | S754_zero a, S754_zero b => Bool.eqb a b
  | S754_infinity a, S754_infinity b => Bool.eqb a b
  | S754_nan, S754_nan => true
  | S754_finite a m e, S754_finite b n f =>
    Bool.eqb a b && Pos.eqb m n && Z.eqb e f
  | _, _ => false
  end.

(** The scores never leave [0, 110]: a weight is at most 5 and a rule has
    at most 22 terms. *)
Definition score_bound : nat := 110.

Definition small_rule (item : string * TermRule) : bool :=
  (0 <=? weight (snd item))
  && (weight (snd item) * Z.of_nat (length (terms (snd item)))
      <=? Z.of_nat score_bound).

Definition nonzero_weight (item : string * TermRule) : bool :=
  negb (weight (snd item) =? 0).

(** The arithmetic of [decide_action] on values that are already looked
    up, statement by statement. *)
Definition strategic_of (m : Z) (roles urgency money : bool) : Float.float :=
  let r := Float.zero in
  let r := Float.add r (Float.mul (Float.of_Z m) Float.f1_2) in
  let r := Float.add r (Float.of_Z (if roles then 4 else 0)) in
  let r := Float.add r (Float.of_Z (if urgency then 2 else 0)) in
  Float.add r (Float.of_Z (if money then 3 else 0)).

Definition operational_of (s l : Z) : Float.float :=
  let r := Float.zero in
  let r := Float.add r (Float.mul (Float.of_Z s) Float.f1_3) in
  Float.add r (Float.mul (Float.of_Z l) Float.f1_1).

Definition trust_of (free two_urls phone_and_security : bool)
    : Float.float :=
  let t := Float.zero in
  let t := if free then Float.add t (Float.of_Z 2) else t in
  let t := if two_urls then Float.add t (Float.of_Z 2) else t in
  if phone_and_security then Float.add t (Float.of_Z 2) else t.

Definition action_of (m s l : Z) (roles urgency money : bool)
    (trust total : Float.float) : Action :=
  if (s >=? 10) && Float.ge_int trust 3 then BLOCK
  else if (m >=? 5) || (l >=? 8) then ESCALATE_HUMAN
  else if roles && urgency && money then ESCALATE_HUMAN
  else if Float.ge_int total 10 then ESCALATE_HUMAN
  else AUTO_REPLY.

Section ClosedForms.
Context {U : Unicode}.

(** The entry that [score_intents] leaves for a rule. *)
Definition score_of (text : str) (rule : TermRule) : Z :=
  weight rule * Z.of_nat (length (set_of (hits_of text rule))).

Definition evidence_of (text : str) (rule : TermRule) : list str :=
  sorted (set_of (hits_of text rule)).

(** The text that the scorer and the suppression rule look at. *)
Definition lowered (subject body : str) : str :=
  str_lower (subject ++ nl ++ body).

(** A term of the rule is matched when its lower-cased form occurs in the
    text. *)
Definition matched (text : str) (rule : TermRule) (t : str) : Prop :=
  In t (terms rule) /\ substring (str_lower t) text.

(** What [decide_action] returns, field by field. *)
Definition scores_after (email : Email) : dict Z :=
  suppress email
    (values_of (score_of (str_lower (text_of email))) INTENT_RULES).

Definition free_sender (email : Email) : bool :=
  match lookup (extract_features email) "sender_is_free_domain" with
  | Some v => truthy v
  | None => false
  end.

Definition trust_after (email : Email) : Float.float :=
  let text := text_of email in
  trust_of (free_sender email)
    (Z.of_nat (length (find_urls text)) >=? 2)
    ((Z.of_nat (length (find_phones text)) >=? 1)
     && (get (scores_after email) "SECURITY" 0 >? 0)).

Definition total_after (email : Email) : Float.float :=
  let text := text_of email in
  let scores := scores_after email in
  Float.add
    (Float.add
       (strategic_of (get scores "M_AND_A" 0)
          (contains_any text ROLE_TERMS) (contains_any text URGENCY_TERMS)
          (nonempty (find_money text)))
       (operational_of (get scores "SECURITY" 0) (get scores "LEGAL" 0)))
    (trust_after email).

Definition decision_of (email : Email) : Decision :=
  let text := text_of email in
  let scores := scores_after email in
  {| action :=
       action_of (get scores "M_AND_A" 0) (get scores "SECURITY" 0)
         (get scores "LEGAL" 0)
         (contains_any text ROLE_TERMS) (contains_any text URGENCY_TERMS)
         (nonempty (find_money text))
         (trust_after email) (total_after email);
     risk := Float.round2 (total_after email);
     intent_scores := scores;
     intent_evidence :=
       values_of (evidence_of (str_lower text)) INTENT_RULES;
     features := extract_features email |}.

End ClosedForms.

(** ** The language of a pattern *)

Module Lang.
Import Re.

(** The character before the cursor once [w] has been consumed. *)
Definition last_char (prev : option N) (w : str) : option N :=
  fold_left (fun _ c => Some c) w prev.

Definition within (hi : option nat) (n : nat) : Prop :=
  match hi with
  | Some h => (n <= h)%nat
  | None => True
  end.

Section Denote.
Context {U : Unicode}.
Variable icase : bool.

(** [denote r prev w rest]: the pattern [r] matches the text [w] when
    [prev] precedes it and [rest] follows it. *)
Fixpoint denote (r : regex) (prev : option N) (w rest : str) : Prop :=
  match r with
  | Empty => w = []
  | Atom a => exists c, w = [c] /\ atom_match icase a c = true
  | Repeat lo hi a =>
    Forall (fun c => atom_match icase a c = true) w
    /\ (lo <= length w)%nat /\ within hi (length w)
  | Seq r1 r2 =>
    exists w1 w2, w = w1 ++ w2
      /\ denote r1 prev w1 (w2 ++ rest)
      /\ denote r2 (last_char prev w1) w2 rest
  | Alt r1 r2 => denote r1 prev w rest \/ denote r2 prev w rest
  | Group r1 => denote r1 prev w rest
  | Boundary => w = [] /\ at_boundary prev rest = true
  end.

End Denote.
End Lang.

(** No part of [s] is matched by the pattern [r]. *)
Definition no_match {U : Unicode} (icase : bool) (r : Re.regex) (s : str)
    : Prop :=
  forall pre w rest, s = pre ++ w ++ rest ->
    ~ Lang.denote icase r (Lang.last_char None pre) w rest.

(** ** The risk model as the specification words it *)

Module Spec.

(** Readings of a returned decision. *)
Definition score (d : Decision) (k : string) : Z :=
  get (intent_scores d) k 0.

Definition flag (d : Decision) (k : string) : bool :=
  match lookup (features d) k with
  | Some v => truthy v
  | None => false
  end.

Definition count (d : Decision) (k : string) : Z :=
  match lookup (features d) k with
  | Some (VList l) => Z.of_nat (length l)
  | _ => 0
  end.

(** [z if b else 0] *)
Definition amount (z : Z) (b : bool) : Z := if b then z else 0.

(** Strategic risk: M_AND_A score x 1.2 + 4 if mentions_roles + 2 if
    mentions_urgency + 3 if money_mentions is non-empty. *)
Definition strategic (d : Decision) : Float.float :=
  Float.add
    (Float.add
       (Float.add
          (Float.mul (Float.of_Z (score d "M_AND_A")) Float.f1_2)
          (Float.of_Z (amount 4 (flag d "mentions_roles"))))
       (Float.of_Z (amount 2 (flag d "mentions_urgency"))))
    (Float.of_Z (amount 3 (flag d "money_mentions"))).

(** Operational risk: SECURITY score x 1.3 + LEGAL score x 1.1. *)
Definition operational (d : Decision) : Float.float :=
  Float.add (Float.mul (Float.of_Z (score d "SECURITY")) Float.f1_3)
            (Float.mul (Float.of_Z (score d "LEGAL")) Float.f1_1).

(** Trust penalty: 2 if the sender is on a free domain + 2 if there are at
    least two urls + 2 if there is a phone and the SECURITY score is
    positive. *)
Definition trust (d : Decision) : Z :=
  amount 2 (flag d "sender_is_free_domain")
  + amount 2 (2 <=? count d "urls")
  + amount 2 ((1 <=? count d "phones") && (0 <? score d "SECURITY")).

(** Total risk: strategic + operational + trust penalty. *)
Definition total (d : Decision) : Float.float :=
  Float.add (Float.add (strategic d) (operational d))
            (Float.of_Z (trust d)).

(** An ordered list of rules, the first that matches wins. *)
Fixpoint first_match (rules : list (bool * Action)) (otherwise : Action)
    : Action :=
  match rules with
  | [] => otherwise
  | (condition, a) :: rest =>
    if condition then a else first_match rest otherwise
  end.

Definition rules (d : Decision) : list (bool * Action) :=
  [ ((10 <=? score d "SECURITY") && (3 <=? trust d), BLOCK);
    ((5 <=? score d "M_AND_A") || (8 <=? score d "LEGAL"),
     ESCALATE_HUMAN);
    (flag d "mentions_roles" && flag d "mentions_urgency"
     && flag d "money_mentions", ESCALATE_HUMAN);
    (Float.ge_int (total d) 10, ESCALATE_HUMAN) ].

End Spec.

(** ** Addresses, well-formed decisions *)

(** An ASCII letter; a character of a host name. *)
Definition letter (c : N) : Prop :=
  (Re.ch "A" <= c <= Re.ch "Z" \/ Re.ch "a" <= c <= Re.ch "z")%N.

Definition host_char (c : N) : Prop :=
  letter c \/ (Re.ch "0" <= c <= Re.ch "9")%N
  \/ c = Re.ch "." \/ c = Re.ch "-".

(** "@" followed by a dot-separated host whose last label has at least
    two letters. *)
Definition address_like (w : str) : Prop :=
  exists host tld,
    w = Re.ch "@" :: host ++ Re.ch "." :: tld
    /\ host <> [] /\ Forall host_char host
    /\ Forall letter tld /\ (2 <= length tld)%nat.

(** The feature dictionary has its ten keys, each with a value of the
    expected kind; counts are not negative and the three extracted lists
    hold no element twice. *)
Definition feature_kinds (fs : dict value) : Prop :=
  exists domain free roles role_hits urgency urgency_hits money urls
         phones n,
    fs = [ ("sender_domain", VStr domain);
           ("sender_is_free_domain", VBool free);
           ("mentions_roles", VBool roles);
           ("role_hits", VInt role_hits);
           ("mentions_urgency", VBool urgency);
           ("urgency_hits", VInt urgency_hits);
           ("money_mentions", VList money);
           ("urls", VList urls);
           ("phones", VList phones);
           ("length", VInt n) ]%string
    /\ 0 <= role_hits /\ 0 <= urgency_hits /\ 0 <= n
    /\ NoDup money /\ NoDup urls /\ NoDup phones.

Definition well_formed (d : Decision) : Prop :=
  keys (intent_scores d) = categories
  /\ keys (intent_evidence d) = categories
  /\ (forall k, In k categories -> 0 <= get (intent_scores d) k 0)
  /\ feature_kinds (features d).

(** ** Concrete emails *)

Definition mail (a b c : string) : Email :=
  {| sender := u a; subject := u b; body := u c |}.

(** The support ticket of the specification: SUPPORT and SECURITY terms,
    no strong security term. *)
Definition support_mail : Email :=
  mail "x@corp.com" "password reset issue"
       "I have a problem, my password reset doesn't work".

(** A support term together with a strong security term. *)
Definition wire_mail : Email :=
  mail "x@corp.com" "help"
       "please confirm the wire transfer and reset my password".

(** Small talk from a free webmail address. *)
Definition small_talk_mail : Email :=
  mail "random@gmail.com" "hi" "just checking in".

(** An acquisition offer. *)
Definition acquisition_mail : Email :=
  mail "ceo@bigcorp.com" "Urgent: Acquisition proposal"
       "We want to acquire your company for $50 million immediately".

(** Two security terms, a free domain and two links. *)
Definition phishing_mail : Email :=
  mail "it-desk@gmail.com" "Your login"
       "Confirm your password at http://a.example/x or www.b.example today".

(** ** What a double stands for

    The numbers behind the doubles, as rationals, and what it is for a
    double to be the nearest one; used to say what [Float.round2]
    returns. *)

Module Exact.

(** The number that a double stands for; 0 for what is not a number. *)
Definition number (x : Float.float) : Q :=
  match x with
  | S754_finite s m e =>
    ((if s then -1 else 1) * inject_Z (Zpos m) * 2 ^ e)%Q
  | _ => 0%Q
  end.

Definition sign (x : Float.float) : bool :=
  match x with
  | S754_zero s | S754_infinity s | S754_finite s _ _ => s
  | S754_nan => false
  end.

Definition mantissa (x : Float.float) : Z :=
  match x with
  | S754_finite _ m _ => Zpos m
  | _ => 0
  end.

(** A double as the format has it: 53 bits at most, exactly 53 above the
    subnormal range, exponents within the range. *)
Definition double (x : Float.float) : Prop :=
  Float.is_finite x = true /\ valid_binary Float.prec Float.emax x = true.

(** [k] is the integer nearest to [v], the even one when two are as
    near. *)
Definition nearest_integer (v : Q) (k : Z) : Prop :=
  (Qabs (v - inject_Z k) <= 1 # 2)%Q
  /\ ((Qabs (v - inject_Z k) == 1 # 2)%Q -> Z.even k = true).

(** [y] is the double nearest to [v >= 0], the one of even mantissa when
    two are as near; infinity from the middle between the largest
    double and [2^1024] on, and only from there. *)
Definition nearest_double (v : Q) (y : Float.float) : Prop :=
  match y with
  | S754_nan => False
  | S754_infinity s =>
    s = false /\ (inject_Z (2 ^ 1024 - 2 ^ 970) <= v)%Q
  | _ =>
    double y
    /\ (v < inject_Z (2 ^ 1024 - 2 ^ 970))%Q
    /\ forall z, double z ->
         (Qabs (v - number y) <= Qabs (v - number z))%Q
         /\ ((Qabs (v - number y) == Qabs (v - number z))%Q ->
             ~ (number y == number z)%Q ->
             Z.even (mantissa y) = true)
  end.

(** [y] is [x] rounded to two decimals: the hundredth nearest to [x],
    then the double nearest to that hundredth, with the sign of [x]. *)
Definition rounded_to_2_decimals (x y : Float.float) : Prop :=
  match x with
  | S754_finite _ _ _ =>
    exists k : Z,
      nearest_integer (100 * Qabs (number x)) k
      /\ nearest_double (inject_Z k / 100) (SFabs y)
      /\ sign y = sign x
  | _ => y = x
  end.

(** Where [a/b] lies from [m] to [m + 1], as a [location] tells it. *)
Definition located (a b m : Z) (l : location) : Prop :=
  0 < b /\ 0 <= m
  /\ match l with
     | loc_Exact => a = m * b
     | loc_Inexact c =>
       m * b < a < (m + 1) * b /\ (2 * a ?= (2 * m + 1) * b) = c
     end.

End Exact.

(** ** What a match captures *)

Module Capture.
Import Re.

Section Capture.
Context {U : Unicode}.
Variable icase : bool.

(** [capture r prev w rest g g']: the pattern [r] matches [w] between
    [prev] and [rest], and group 1, which held [g] before, holds [g']
    afterwards. *)
Fixpoint capture (r : regex) (prev : option N) (w rest : str)
    (g g' : option str) : Prop :=
  match r with
  | Seq r1 r2 =>
    exists w1 w2 g1, w = w1 ++ w2
      /\ capture r1 prev w1 (w2 ++ rest) g g1
      /\ capture r2 (Lang.last_char prev w1) w2 rest g1 g'
  | Alt r1 r2 => capture r1 prev w rest g g' \/ capture r2 prev w rest g g'
  | Group r1 => Lang.denote icase r1 prev w rest /\ g' = Some w
  | _ => Lang.denote icase r prev w rest /\ g' = g
  end.

(** The text after a match that ends in a greedy, unbounded repetition of
    [a] cannot continue it: it is empty or starts with a character that [a]
    refuses. *)
Definition stops (a : atom) (rest : str) : Prop :=
  match rest with
  | [] => True
  | c :: _ => atom_match icase a c = false
  end.

End Capture.

(** [ends_with a r]: every way through [r] ends in an unbounded repetition
    of [a]. *)
Fixpoint ends_with (a : atom) (r : regex) : Prop :=
  match r with
  | Repeat _ None b => b = a
  | Seq r1 Empty => ends_with a r1
  | Seq _ r2 => ends_with a r2
  | Alt r1 r2 => ends_with a r1 /\ ends_with a r2
  | Group r1 => ends_with a r1
  | _ => False
  end.

End Capture.

(** ** The shapes of what the extractors return *)

Section Shapes.
Context {U : Unicode}.

(** [x] is the pattern text [p] up to the case-insensitive comparison of
    [re.IGNORECASE]. *)
Definition ci_matches (p x : str) : Prop :=
  Forall2 (fun a c => ieq a c = true) p x.

(** Nothing, or one character that satisfies [P]. *)
Definition optional (P : N -> Prop) (w : str) : Prop :=
  w = [] \/ exists c, w = [c] /\ P c.

Definition phone_char (c : N) : Prop :=
  is_digit c = true \/ is_space c = true
  \/ c = Re.ch "(" \/ c = Re.ch ")" \/ c = Re.ch "." \/ c = Re.ch "-".

(** An optional "+", a digit, at least seven digits, spaces, brackets,
    dots or hyphens, and a digit. *)
Definition phone_like (w : str) : Prop :=
  exists sign d1 mid d2,
    w = sign ++ d1 :: mid ++ [d2]
    /\ optional (fun c => c = Re.ch "+") sign
    /\ is_digit d1 = true
    /\ Forall phone_char mid /\ (7 <= length mid)%nat
    /\ is_digit d2 = true.

(** "http://", "https://" or "www." in any case, then at least one
    character, none of them white space. *)
Definition url_like (w : str) : Prop :=
  exists scheme tail,
    w = scheme ++ tail
    /\ (ci_matches (u "http://") scheme \/ ci_matches (u "https://") scheme
        \/ ci_matches (u "www.") scheme)
    /\ tail <> [] /\ Forall (fun c => is_space c = false) tail.

Definition amount_char (c : N) : Prop :=
  is_digit c = true \/ ieq (Re.ch ".") c = true \/ ieq (Re.ch ",") c = true.

(** A currency symbol, an optional space, a digit, then digits, dots and
    commas. *)
Definition symbol_first_like (sym : N) (w : str) : Prop :=
  exists c sp d more,
    w = c :: sp ++ d :: more
    /\ ieq sym c = true
    /\ optional (fun b => is_space b = true) sp
    /\ is_digit d = true /\ Forall amount_char more.

(** At least two digits, an optional space, a currency symbol. *)
Definition symbol_last_like (sym : N) (w : str) : Prop :=
  exists ds sp c,
    w = ds ++ sp ++ [c]
    /\ (2 <= length ds)%nat /\ Forall (fun d => is_digit d = true) ds
    /\ optional (fun b => is_space b = true) sp
    /\ ieq sym c = true.

Definition magnitude_words : list str :=
  map u [ "m"; "million"; "millones"; "b"; "billion"; "mil" ]%string.

(** One of the magnitude words, in any case. *)
Definition magnitude_like (x : str) : Prop :=
  exists word, In word magnitude_words /\ ci_matches word x.

(** A digit, digits, dots and commas, an optional space and a magnitude
    word: what the third money pattern matches. *)
Definition amount_with_magnitude (number word : str) : Prop :=
  (exists d more sp,
     number = d :: more ++ sp
     /\ is_digit d = true /\ Forall amount_char more
     /\ optional (fun b => is_space b = true) sp)
  /\ magnitude_like word.

End Shapes.

(** ** Bounds of the scores *)

(** The largest score of a rule: its weight for each distinct term. *)
Definition max_score (rule : TermRule) : Z :=
  weight rule * Z.of_nat (length (set_of (terms rule))).

(** ** The command line

    The console is the environment of [main].  Its input is the sequence
    of what the coming [input] calls meet: a decoded line, or an
    exception of the stream ([UnicodeDecodeError] on bytes that do not
    decode, [KeyboardInterrupt], an error of the operating system); at
    its end [input] raises [EOFError].  Its output may refuse a [print]:
    [UnicodeEncodeError] when the encoding of the stream lacks a
    character of the text, [BrokenPipeError] and the like; [refuses]
    tells, from the calls completed so far and the call at hand, which
    exception is raised, if any.  The output is kept as the sequence of
    the completed calls with what they are given, before it is rendered
    as text: [Say] for a text alone, [Show] for a label and a value (as
    in [print("Action:", a)] and [print(f"{k}: {v}")]), [Ask] for the
    prompt of an [input]. *)

Module IO.

(** What a stream of the console can raise. *)
Inductive fault :=
| UnicodeEncodeError
| UnicodeDecodeError
| KeyboardInterrupt
| OSError
| ValueError.

Inductive error :=
| EOFError
| Raised (e : exn)
| Console (f : fault).

Inductive result (A : Type) :=
| Done (a : A)
| Fail (e : error).

Arguments Done {A} a.
Arguments Fail {A} e.

Inductive shown :=
| AnAction (a : Action)
| AFloat (x : Float.float)
| AnInt (z : Z)
| AList (l : list str)
| AValue (v : value).

Inductive event :=
| Say (text : str)
| Show (label : str) (v : shown)
| Ask (prompt : str).

(** What one [input] call meets. *)
Inductive key :=
| Line (l : str)
| Breaks (f : fault).

Record world := {
  stdin : list key;
  stdout : list event;
  refuses : list event -> event -> option fault
}.

Definition io (A : Type) : Type := world -> result A * world.

Definition ret {A : Type} (a : A) : io A := fun w => (Done a, w).

Definition bind {A B : Type} (m : io A) (f : A -> io B) : io B :=
  fun w =>
    match m w with
    | (Done a, w') => f a w'
    | (Fail e, w') => (Fail e, w')
    end.

Notation "x <~ m ;; k" := (bind m (fun x => k))
  (at level 61, m at next level, right associativity).

(** One call of [print], or the prompt of an [input]. *)
Definition emit (e : event) : io unit :=
  fun w =>
    match refuses w (stdout w) e with
    | Some f => (Fail (Console f), w)
    | None =>
      (Done tt,
       {| stdin := stdin w; stdout := stdout w ++ [e];
          refuses := refuses w |})
    end.

(** [input()] *)
Definition input_line : io str :=
  fun w =>
    match stdin w with
    | [] => (Fail EOFError, w)
    | Line line :: rest =>
      (Done line,
       {| stdin := rest; stdout := stdout w; refuses := refuses w |})
    | Breaks f :: rest =>
      (Fail (Console f),
       {| stdin := rest; stdout := stdout w; refuses := refuses w |})
    end.

(** [input(prompt)] *)
Definition input (prompt : str) : io str :=
  _ <~ emit (Ask prompt) ;; input_line.

(** An exception of the engine passes through. *)
Definition lift {A : Type} (m : exc A) : io A :=
  fun w =>
    match m with
    | Ok a => (Done a, w)
    | Raise e => (Fail (Raised e), w)
    end.

(** A [for] loop over a list. *)
Fixpoint for_each {A : Type} (l : list A) (f : A -> io unit) : io unit :=
  match l with
  | [] => ret tt
  | a :: l' => _ <~ f a ;; for_each l' f
  end.

(** [sep.join(lines)] *)
Fixpoint join (sep : str) (lines : list str) : str :=
  match lines with
  | [] => []
  | [l] => l
  | l :: rest => l ++ sep ++ join sep rest
  end.

(** The loop of [read_multiline]: each turn takes one line with
    [input()], stops at the first empty one and otherwise appends it. *)
Fixpoint read_loop (pending : list key) (lines : list str)
    : result (list str) * list key :=
  match pending with
  | [] => (Fail EOFError, [])
  | Breaks f :: rest => (Fail (Console f), rest)
  | Line [] :: rest => (Done lines, rest)
  | Line line :: rest => read_loop rest (lines ++ [line])
  end.

Definition read_multiline (prompt : str) : io str :=
  _ <~ emit (Say prompt) ;;
  fun w =>
    let after rest :=
      {| stdin := rest; stdout := stdout w; refuses := refuses w |} in
    match read_loop (stdin w) [] with
    | (Done lines, rest) => (Done (join nl lines), after rest)
    | (Fail e, rest) => (Fail e, after rest)
    end.

Section Main.
Context {U : Unicode}.

Fixpoint lstrip (s : str) : str :=
  match s with
  | c :: s' => if is_space c then lstrip s' else s
  | [] => []
  end.

(** [s.strip()] *)
Definition strip (s : str) : str := rev (lstrip (rev (lstrip s))).

(** The printing half of [main], from ["--- Decision ---"] on. *)
Definition report (decision : Decision) : io unit :=
  _ <~ emit (Say (nl ++ u "--- Decision ---")) ;;
  _ <~ emit (Show (u "Action:") (AnAction (action decision))) ;;
  _ <~ emit (Show (u "Risk score:") (AFloat (risk decision))) ;;
  _ <~ emit (Say (nl ++ u "--- Intent scores ---")) ;;
  _ <~ for_each (intent_scores decision)
         (fun kv => emit (Show (u (fst kv) ++ u ":") (AnInt (snd kv)))) ;;
  _ <~ emit (Say (nl ++ u "--- Evidence (matched signals) ---")) ;;
  _ <~ for_each (intent_evidence decision)
         (fun kev =>
            match snd kev with
            | [] => ret tt
            | ev => emit (Show (u (fst kev) ++ u ":") (AList ev))
            end) ;;
  _ <~ emit (Say (nl ++ u "--- Extracted features ---")) ;;
  let f := features decision in
  for_each
    [ "sender_domain"; "sender_is_free_domain"; "mentions_roles";
      "mentions_urgency"; "money_mentions"; "urls"; "phones" ]%string
    (fun k =>
       v <~ lift (getitem f k) ;;
       emit (Show (u k ++ u ":") (AValue v))).

Definition banner : str :=
  nl ++ u "=== Email Agent Supervisor — Demo ===" ++ nl.

Definition main : io unit :=
  _ <~ emit (Say banner) ;;
  sender <~ input (u "Sender (e.g., john@company.com): ") ;;
  let sender := strip sender in
  subject <~ input (u "Subject: ") ;;
  let subject := strip subject in
  body <~ read_multiline (u "Paste email body (finish with an empty line):") ;;
  let email := {| sender := sender; subject := subject; body := body |} in
  decision <~ lift (decide_action email) ;;
  report decision.

End Main.

(** The lines of an input, where it holds nothing else. *)
Definition typed (lines : list str) : list key := map Line lines.

(** A console that raises nothing: every [print] is accepted. *)
Definition accepting (w : world) : Prop :=
  forall printed e, refuses w printed e = None.



(** A step that, on an accepting console, ends normally, leaves the
    input alone and adds [out] to the output. *)
Definition prints (m : io unit) (out : list event) : Prop :=
  forall w,
    accepting w ->
    m w = (Done tt,
           {| stdin := stdin w; stdout := stdout w ++ out;
              refuses := refuses w |}).

End IO.

(** A line as [input] returns it: without a line break. *)
Definition one_line (l : str) : Prop := ~ In 10%N l.


(** * Properties *)

(** ** Strings and lists *)

Lemma startswith_spec (p s : str) :
  startswith p s = true <-> exists post, s = p ++ post.
Proof.
  revert s; induction p as [|a p IH]; intros s; simpl.
  - split; [intros _; now exists s | reflexivity].
  - destruct s as [|b s].
    + split; [discriminate | intros [post H]; discriminate].
    + rewrite andb_true_iff, N.eqb_eq, IH. split.
      * intros [-> [post ->]]. now exists post.
      * intros [post H]. injection H as -> ->. split; [reflexivity|].
        now exists post.
Qed.

Lemma contains_spec (s p : str) :
  contains s p = true <-> substring p s.
Proof.
  unfold substring. induction s as [|c s IH].
  - simpl. rewrite orb_false_r, startswith_spec. split.
    + intros [post H]. now exists [], post.
    + intros [pre [post H]]. destruct pre; [now exists post|discriminate].
  - cbn [contains]. rewrite orb_true_iff, startswith_spec, IH. split.
    + intros [[post H] | [pre [post H]]].
      * now exists [], post.
      * exists (c :: pre), post. now rewrite H.
    + intros [[|c' pre] [post H]].
      * left. now exists post.
      * right. injection H as -> ->. now exists pre, post.
Qed.

Lemma str_leb_refl (a : str) : str_leb a a = true.
Proof.
  induction a as [|x a IH]; [reflexivity|].
  simpl. now rewrite N.ltb_irrefl.
Qed.

Lemma str_leb_total (a b : str) : str_leb a b = true \/ str_leb b a = true.
Proof.
  revert b; induction a as [|x a IH]; intros [|y b]; simpl; auto.
  destruct (N.ltb_spec x y), (N.ltb_spec y x); auto; lia.
Qed.

Lemma str_leb_antisym (a b : str) :
  str_leb a b = true -> str_leb b a = true -> a = b.
Proof.
  revert b; induction a as [|x a IH]; intros [|y b]; simpl;
    try reflexivity; try discriminate.
  destruct (N.ltb_spec x y), (N.ltb_spec y x);
    try discriminate; try lia.
  intros H1 H2. f_equal; [lia | now apply IH].
Qed.

Lemma str_leb_trans (a b c : str) :
  str_leb a b = true -> str_leb b c = true -> str_leb a c = true.
Proof.
  revert b c; induction a as [|x a IH]; intros [|y b] [|z c]; simpl;
    try reflexivity; try discriminate.
  destruct (N.ltb_spec x y), (N.ltb_spec y z), (N.ltb_spec y x),
    (N.ltb_spec z y), (N.ltb_spec x z), (N.ltb_spec z x);
    try discriminate; try reflexivity; try lia.
  apply IH.
Qed.

Lemma str_lt_trans (a b c : str) : str_lt a b -> str_lt b c -> str_lt a c.
Proof.
  intros [Hab Nab] [Hbc Nbc]. split.
  - eapply str_leb_trans; eassumption.
  - intros ->. apply Nab. now apply str_leb_antisym.
Qed.

Lemma set_of_In (x : str) (xs : list str) : In x (set_of xs) <-> In x xs.
Proof. apply nodup_In. Qed.

Lemma set_of_NoDup (xs : list str) : NoDup (set_of xs).
Proof. apply NoDup_nodup. Qed.

Lemma set_of_nil (xs : list str) : set_of xs = [] <-> xs = [].
Proof.
  split; [|now intros ->].
  destruct xs as [|x xs]; [reflexivity|].
  intros H. assert (Hx : In x (set_of (x :: xs))).
  { apply set_of_In. now left. }
  rewrite H in Hx. destruct Hx.
Qed.

Lemma set_of_length (xs : list str) : (length (set_of xs) <= length xs)%nat.
Proof.
  induction xs as [|x xs IH]; simpl; [lia|].
  destruct (in_dec str_eq_dec x xs); simpl; lia.
Qed.

(** ** Sorting *)

Lemma insert_perm (x : str) (l : list str) : Permutation (insert x l) (x :: l).
Proof.
  induction l as [|y l IH]; simpl; [reflexivity|].
  destruct (str_leb x y); [reflexivity|].
  rewrite IH. apply perm_swap.
Qed.

Lemma sorted_perm (l : list str) : Permutation (sorted l) l.
Proof.
  induction l as [|x l IH]; simpl; [reflexivity|].
  rewrite insert_perm. now constructor.
Qed.

Lemma insert_hd (x y : str) (l : list str) :
  str_le y x -> HdRel str_le y l -> HdRel str_le y (insert x l).
Proof.
  intros Hyx Hl. destruct l as [|z l]; simpl.
  - now constructor.
  - destruct (str_leb x z); constructor; [assumption|].
    now inversion Hl.
Qed.

Lemma insert_sorted (x : str) (l : list str) :
  Sorted str_le l -> Sorted str_le (insert x l).
Proof.
  induction 1 as [|y l Hs IH Hh]; simpl.
  - repeat constructor.
  - destruct (str_leb x y) eqn:E.
    + constructor; [now constructor | now constructor].
    + constructor; [assumption|]. apply insert_hd; [|assumption].
      destruct (str_leb_total x y) as [H|H]; [congruence | exact H].
Qed.

Lemma sorted_sorted (l : list str) : Sorted str_le (sorted l).
Proof.
  induction l as [|x l IH]; simpl; [constructor|].
  now apply insert_sorted.
Qed.

Lemma sorted_length (l : list str) : length (sorted l) = length l.
Proof. apply Permutation_length, sorted_perm. Qed.

Lemma sorted_In (x : str) (l : list str) : In x (sorted l) <-> In x l.
Proof.
  split; apply Permutation_in; [|symmetry]; apply sorted_perm.
Qed.

Lemma sorted_NoDup (l : list str) : NoDup l -> NoDup (sorted l).
Proof.
  intros H. eapply Permutation_NoDup; [symmetry; apply sorted_perm | exact H].
Qed.

(** A sorted list without repetition is strictly ascending. *)
Lemma sorted_strict (l : list str) :
  NoDup l -> StronglySorted str_lt (sorted l).
Proof.
  intros H. apply sorted_NoDup in H.
  assert (S : StronglySorted str_le (sorted l)).
  { apply Sorted_StronglySorted; [|apply sorted_sorted].
    intros a b c. apply str_leb_trans. }
  induction S as [|x l' S IH F]; constructor.
  - apply IH. now inversion H.
  - inversion H as [|? ? Hx Hl]; subst.
    rewrite Forall_forall in *. intros y Hy. split; [now apply F|].
    intros ->. contradiction.
Qed.

Lemma sorted_nil (l : list str) : sorted l = [] <-> l = [].
Proof.
  split; [|now intros ->].
  intros H. apply length_zero_iff_nil.
  rewrite <- sorted_length, H. reflexivity.
Qed.

(** ** Dictionaries *)

Section DictFacts.
Variable V : Type.
Implicit Types (d : dict V) (k : string) (v : V).

Lemma lookup_app_notin d1 d2 k :
  ~ In k (keys d1) -> lookup (d1 ++ d2) k = lookup d2 k.
Proof.
  induction d1 as [|[k' v'] d1 IH]; simpl; intros H; [reflexivity|].
  destruct (String.eqb_spec k' k) as [->|_]; [tauto|].
  apply IH. tauto.
Qed.

Lemma lookup_here d k v : lookup ((k, v) :: d) k = Some v.
Proof. simpl. now rewrite String.eqb_refl. Qed.

Lemma setitem_app_notin d1 d2 k v v' :
  ~ In k (keys d1) ->
  setitem (d1 ++ (k, v) :: d2) k v' = d1 ++ (k, v') :: d2.
Proof.
  induction d1 as [|[k1 v1] d1 IH]; simpl; intros H.
  - now rewrite String.eqb_refl.
  - destruct (String.eqb_spec k1 k) as [->|_]; [tauto|].
    f_equal. apply IH. tauto.
Qed.

Lemma lookup_setitem_same d k v : lookup (setitem d k v) k = Some v.
Proof.
  induction d as [|[k' v'] d IH]; simpl.
  - now rewrite String.eqb_refl.
  - destruct (String.eqb_spec k' k) as [->|N]; simpl.
    + now rewrite String.eqb_refl.
    + destruct (String.eqb_spec k' k); [contradiction | exact IH].
Qed.

Lemma lookup_setitem_other d k k' v :
  k' <> k -> lookup (setitem d k v) k' = lookup d k'.
Proof.
  intros N. induction d as [|[k1 v1] d IH]; simpl.
  - destruct (String.eqb_spec k k'); [congruence | reflexivity].
  - destruct (String.eqb_spec k1 k) as [->|N1]; simpl.
    + destruct (String.eqb_spec k k'); [congruence | reflexivity].
    + now rewrite IH.
Qed.

Lemma keys_setitem_present d k v :
  In k (keys d) -> keys (setitem d k v) = keys d.
Proof.
  induction d as [|[k1 v1] d IH]; simpl; intros H; [contradiction|].
  destruct (String.eqb_spec k1 k) as [->|N1]; simpl; [reflexivity|].
  f_equal. apply IH. destruct H; [contradiction | assumption].
Qed.

Lemma lookup_keys d k : In k (keys d) <-> lookup d k <> None.
Proof.
  induction d as [|[k1 v1] d IH]; simpl; [tauto|].
  destruct (String.eqb_spec k1 k) as [->|N1].
  - split; [discriminate | auto].
  - rewrite <- IH. tauto.
Qed.

End DictFacts.

(** A dictionary built entry by entry from another one. *)
Lemma lookup_map_values (A B : Type) (f : A -> B) (d : dict A) (k : string) :
  lookup (map (fun it => (fst it, f (snd it))) d) k
  = option_map f (lookup d k).
Proof.
  induction d as [|[k' a] d IH]; simpl; [reflexivity|].
  now destruct (String.eqb k' k).
Qed.

Lemma keys_map_values (A B : Type) (f : A -> B) (d : dict A) :
  keys (map (fun it => (fst it, f (snd it))) d) = keys d.
Proof. unfold keys. rewrite map_map. reflexivity. Qed.

(** ** The intent scorer in closed form *)

Section ScorerFacts.
Context {U : Unicode}.

(** Keys that are still to come stay absent when one entry is appended. *)
Lemma fresh_after_entry (V : Type) (d : dict V) (k : string) (v : V)
    (rest : list string) :
  ~ In k rest ->
  (forall k', In k' (k :: rest) -> ~ In k' (keys d)) ->
  forall k', In k' rest -> ~ In k' (keys (d ++ [(k, v)])).
Proof.
  intros Hk Hd k' Hk'. unfold keys. rewrite map_app, in_app_iff.
  intros [H|[<-|[]]]; [|exact (Hk Hk')].
  apply (Hd k'); [now right | exact H].
Qed.

Lemma score_loop_closed (text : str) (items : dict TermRule) :
  forall (done_s : dict Z) (done_e : dict (list str)),
  NoDup (keys items) ->
  (forall k, In k (keys items) -> ~ In k (keys done_s)) ->
  (forall k, In k (keys items) -> ~ In k (keys done_e)) ->
  score_loop items text
    (done_s ++ values_of (fun _ => 0) items)
    (done_e ++ values_of (fun _ => []) items)
  = Ok (done_s ++ values_of (score_of text) items,
        done_e ++ values_of (evidence_of text) items).
Proof.
  induction items as [|[k r] rest IH]; intros done_s done_e ND Hs He.
  - reflexivity.
  - inversion ND as [|? ? Hk ND']; subst.
    cbn [score_loop values_of map fst snd].
    unfold score_of at 1, evidence_of at 1.
    destruct (hits_of text r) as [|h hs] eqn:E.
    + specialize (IH (done_s ++ [(k, 0)]) (done_e ++ [(k, [])]) ND'
                     (fresh_after_entry _ _ Hk Hs)
                     (fresh_after_entry _ _ Hk He)).
      rewrite <- !app_assoc in IH. cbn [app] in IH.
      cbn [set_of nodup length sorted fold_right].
      rewrite Z.mul_0_r. exact IH.
    + unfold getitem.
      rewrite lookup_app_notin, lookup_here by (apply Hs; now left).
      cbn [bind]. rewrite !setitem_app_notin by
        first [apply Hs; now left | apply He; now left].
      rewrite Z.add_0_l.
      specialize (IH (done_s ++
        [(k, weight r * Z.of_nat (length (set_of (h :: hs))))])
        (done_e ++ [(k, sorted (set_of (h :: hs)))]) ND'
        (fresh_after_entry _ _ Hk Hs) (fresh_after_entry _ _ Hk He)).
      rewrite <- !app_assoc in IH. cbn [app] in IH. exact IH.
Qed.

Lemma INTENT_RULES_keys : keys INTENT_RULES = categories.
Proof. reflexivity. Qed.

Lemma categories_NoDup : NoDup categories.
Proof.
  unfold categories.
  repeat (constructor; [simpl; intuition discriminate|]). constructor.
Qed.

Lemma score_intents_closed (subject body : str) :
  score_intents subject body
  = Ok (values_of (score_of (lowered subject body)) INTENT_RULES,
        values_of (evidence_of (lowered subject body)) INTENT_RULES).
Proof.
  unfold score_intents.
  change (from_keys (keys INTENT_RULES) 0)
    with ([] ++ values_of (fun _ => 0) INTENT_RULES).
  change (from_keys (keys INTENT_RULES) (@nil str))
    with ([] ++ values_of (fun _ => @nil str) INTENT_RULES).
  apply (score_loop_closed _ INTENT_RULES [] []).
  - rewrite INTENT_RULES_keys. apply categories_NoDup.
  - intros k _ [].
  - intros k _ [].
Qed.

End ScorerFacts.

(** ** Floating point on the range of the scores *)

Lemma upto_In (n : nat) (z : Z) : 0 <= z <= Z.of_nat n -> In z (upto n).
Proof.
  intros H. unfold upto. apply in_map_iff. exists (Z.to_nat z).
  split; [lia|]. apply in_seq. lia.
Qed.

Lemma upto_forallb (P : Z -> bool) (n : nat) :
  forallb P (upto n) = true ->
  forall z, 0 <= z <= Z.of_nat n -> P z = true.
Proof.
  intros H z Hz. rewrite forallb_forall in H. now apply H, upto_In.
Qed.

Lemma float_eqb_eq (x y : Float.float) : float_eqb x y = true -> x = y.
Proof.
  destruct x, y; simpl; try discriminate; try reflexivity.
  - intros H. now apply Bool.eqb_prop in H as ->.
  - intros H. now apply Bool.eqb_prop in H as ->.
  - rewrite !andb_true_iff. intros [[H1 H2] H3].
    apply Bool.eqb_prop in H1 as ->. apply Pos.eqb_eq in H2 as ->.
    apply Z.eqb_eq in H3 as ->. reflexivity.
Qed.

Lemma of_int_small (z : Z) :
  0 <= z <= Z.of_nat score_bound -> Float.of_int z = Ok (Float.of_Z z).
Proof.
  intros H. unfold Float.of_int.
  rewrite (upto_forallb (fun z => Float.is_finite (Float.of_Z z))
             score_bound); [reflexivity | now vm_compute | exact H].
Qed.

Lemma add_zero_mul (c : Float.float) :
  forallb (fun z => float_eqb
     (Float.add Float.zero (Float.mul (Float.of_Z z) c))
     (Float.mul (Float.of_Z z) c)) (upto score_bound) = true ->
  forall z, 0 <= z <= Z.of_nat score_bound ->
  Float.add Float.zero (Float.mul (Float.of_Z z) c)
  = Float.mul (Float.of_Z z) c.
Proof.
  intros H z Hz. apply float_eqb_eq.
  exact (upto_forallb _ score_bound H Hz).
Qed.

(** ** The decision engine in closed form *)

Section EngineFacts.
Context {U : Unicode}.
Variable email : Email.

Let fs := extract_features email.
Let roles := contains_any (text_of email) ROLE_TERMS.
Let urgency := contains_any (text_of email) URGENCY_TERMS.
Let money := find_money (text_of email).
Let urls := find_urls (text_of email).
Let phones := find_phones (text_of email).

Lemma features_roles : lookup fs "mentions_roles" = Some (VBool roles).
Proof. reflexivity. Qed.

Lemma features_urgency :
  lookup fs "mentions_urgency" = Some (VBool urgency).
Proof. reflexivity. Qed.

Lemma features_money : lookup fs "money_mentions" = Some (VList money).
Proof. reflexivity. Qed.

Lemma features_urls : lookup fs "urls" = Some (VList urls).
Proof. reflexivity. Qed.

Lemma features_phones : lookup fs "phones" = Some (VList phones).
Proof. reflexivity. Qed.

Lemma features_role_hits :
  lookup fs "role_hits"
  = Some (VInt (count_any (text_of email) ROLE_TERMS)).
Proof. reflexivity. Qed.

Lemma features_urgency_hits :
  lookup fs "urgency_hits"
  = Some (VInt (count_any (text_of email) URGENCY_TERMS)).
Proof. reflexivity. Qed.

Lemma features_free :
  exists b, lookup fs "sender_is_free_domain" = Some (VBool b).
Proof. eexists. reflexivity. Qed.

Lemma strategic_risk_closed (scores : dict Z) :
  0 <= get scores "M_AND_A" 0 <= Z.of_nat score_bound ->
  strategic_risk scores fs
  = Ok (strategic_of (get scores "M_AND_A" 0) roles urgency
          (nonempty money)).
Proof.
  intros H. unfold strategic_risk, getitem.
  rewrite (of_int_small H), features_roles, features_urgency,
    features_money.
  reflexivity.
Qed.

Lemma operational_risk_closed (scores : dict Z) :
  0 <= get scores "SECURITY" 0 <= Z.of_nat score_bound ->
  0 <= get scores "LEGAL" 0 <= Z.of_nat score_bound ->
  operational_risk scores
  = Ok (operational_of (get scores "SECURITY" 0) (get scores "LEGAL" 0)).
Proof.
  intros Hs Hl. unfold operational_risk.
  rewrite (of_int_small Hs), (of_int_small Hl). reflexivity.
Qed.

Lemma trust_penalty_closed (scores : dict Z) (free : bool) :
  lookup fs "sender_is_free_domain" = Some (VBool free) ->
  trust_penalty scores fs
  = Ok (trust_of free (Z.of_nat (length urls) >=? 2)
          ((Z.of_nat (length phones) >=? 1)
           && (get scores "SECURITY" 0 >? 0))).
Proof.
  intros Hf. unfold trust_penalty, getitem.
  rewrite Hf, features_urls, features_phones. reflexivity.
Qed.

Lemma roles_urgency_money_closed :
  roles_urgency_money fs = Ok (roles && urgency && nonempty money).
Proof.
  unfold roles_urgency_money, getitem.
  rewrite features_roles, features_urgency, features_money.
  cbn [bind truthy]. fold (nonempty money).
  destruct roles, urgency; reflexivity.
Qed.

Lemma select_action_closed (scores : dict Z) (trust total : Float.float) :
  select_action scores fs trust total
  = Ok (action_of (get scores "M_AND_A" 0) (get scores "SECURITY" 0)
          (get scores "LEGAL" 0) roles urgency (nonempty money)
          trust total).
Proof.
  unfold select_action, action_of.
  rewrite roles_urgency_money_closed. cbn [bind].
  destruct ((get scores "SECURITY" 0 >=? 10) && Float.ge_int trust 3);
    [reflexivity|].
  destruct ((get scores "M_AND_A" 0 >=? 5) || (get scores "LEGAL" 0 >=? 8));
    [reflexivity|].
  destruct (roles && urgency && nonempty money); [reflexivity|].
  destruct (Float.ge_int total 10); reflexivity.
Qed.

End EngineFacts.

(** ** Range of the scores *)

Section Ranges.
Context {U : Unicode}.

Lemma hits_length (text : str) (rule : TermRule) :
  (length (set_of (hits_of text rule)) <= length (terms rule))%nat.
Proof.
  etransitivity; [apply set_of_length|]. apply filter_length_le.
Qed.

Lemma score_of_range (text : str) (rule : TermRule) :
  0 <= weight rule ->
  0 <= score_of text rule
    <= weight rule * Z.of_nat (length (terms rule)).
Proof.
  intros Hw. unfold score_of. pose proof (hits_length text rule). nia.
Qed.

Lemma lookup_In (V : Type) (d : dict V) (k : string) (v : V) :
  lookup d k = Some v -> In (k, v) d.
Proof.
  induction d as [|[k' v'] d IH]; simpl; [discriminate|].
  destruct (String.eqb_spec k' k) as [->|_].
  - intros [= ->]. now left.
  - intros H. right. now apply IH.
Qed.

Lemma INTENT_RULES_small : forallb small_rule INTENT_RULES = true.
Proof. now vm_compute. Qed.

Lemma scores_range (text : str) (k : string) :
  0 <= get (values_of (score_of text) INTENT_RULES) k 0
    <= Z.of_nat score_bound.
Proof.
  unfold get, values_of. rewrite lookup_map_values.
  destruct (lookup INTENT_RULES k) as [rule|] eqn:E; simpl;
    [|unfold score_bound; lia].
  apply lookup_In in E.
  pose proof INTENT_RULES_small as F. rewrite forallb_forall in F.
  specialize (F _ E). unfold small_rule in F. simpl in F.
  apply andb_true_iff in F as [F1 F2].
  apply Z.leb_le in F1, F2.
  pose proof (score_of_range text rule F1). lia.
Qed.

Lemma get_suppress (email : Email) (scores : dict Z) (k : string) :
  get (suppress email scores) k 0 = get scores k 0
  \/ get (suppress email scores) k 0 = 0.
Proof.
  unfold suppress.
  destruct (_ && _ && _); [|now left].
  destruct (string_dec k "SECURITY") as [->|N].
  - right. unfold get. now rewrite lookup_setitem_same.
  - left. unfold get. now rewrite lookup_setitem_other.
Qed.

Lemma suppress_other (email : Email) (scores : dict Z) (k : string) :
  k <> "SECURITY"%string ->
  lookup (suppress email scores) k = lookup scores k.
Proof.
  intros N. unfold suppress.
  destruct (_ && _ && _); [|reflexivity].
  now apply lookup_setitem_other.
Qed.

Lemma suppress_keys (email : Email) (scores : dict Z) :
  In "SECURITY"%string (keys scores) ->
  keys (suppress email scores) = keys scores.
Proof.
  intros H. unfold suppress.
  destruct (_ && _ && _); [|reflexivity].
  now apply keys_setitem_present.
Qed.

Lemma suppressed_range (email : Email) (text : str) (k : string) :
  0 <= get (suppress email (values_of (score_of text) INTENT_RULES)) k 0
    <= Z.of_nat score_bound.
Proof.
  destruct (get_suppress email (values_of (score_of text) INTENT_RULES) k)
    as [-> | ->]; [apply scores_range | unfold score_bound; lia].
Qed.

Lemma decision_of_scores (email : Email) :
  intent_scores (decision_of email) = scores_after email.
Proof. reflexivity. Qed.

Lemma decision_of_evidence (email : Email) :
  intent_evidence (decision_of email)
  = values_of (evidence_of (str_lower (text_of email))) INTENT_RULES.
Proof. reflexivity. Qed.

Lemma decision_of_features (email : Email) :
  features (decision_of email) = extract_features email.
Proof. reflexivity. Qed.

Lemma scores_after_range (email : Email) (k : string) :
  0 <= get (scores_after email) k 0 <= Z.of_nat score_bound.
Proof. unfold scores_after. apply suppressed_range. Qed.

Lemma decide_action_closed (email : Email) :
  decide_action email = Ok (decision_of email).
Proof.
  unfold decide_action. rewrite score_intents_closed. cbn [bind].
  unfold lowered. fold (text_of email).
  change (suppress email _) with (scores_after email).
  rewrite strategic_risk_closed by apply scores_after_range.
  rewrite operational_risk_closed by apply scores_after_range.
  rewrite (@trust_penalty_closed _ email (scores_after email)
             (free_sender email) eq_refl).
  cbn [bind]. rewrite select_action_closed.
  unfold decision_of, total_after, trust_after. reflexivity.
Qed.

End Ranges.

(** ** The matcher against the language of a pattern *)

Module Matcher.
Import Re Lang.

Section Denote.
Context {U : Unicode}.
Variable icase : bool.

Local Abbreviation denote := (Lang.denote icase).

Lemma last_char_app (prev : option N) (w1 w2 : str) :
  last_char prev (w1 ++ w2) = last_char (last_char prev w1) w2.
Proof. apply fold_left_app. Qed.

Lemma within_less (hi : option nat) (n : nat) :
  more hi = true -> within (less hi) n -> within hi (S n).
Proof.
  destruct hi as [[|h]|]; simpl; try discriminate; intros _; lia.
Qed.

Lemma within_more (hi : option nat) (n : nat) :
  within hi (S n) -> more hi = true /\ within (less hi) n.
Proof.
  destruct hi as [[|h]|]; simpl; intros H; split;
    try reflexivity; try lia; try exact I.
Qed.

Lemma rep_sound (a : atom) (k : option N -> str -> option R) (s : str) :
  forall lo hi prev res,
  rep icase a lo hi prev s k = Some res ->
  exists w rest, s = w ++ rest
    /\ Forall (fun c => atom_match icase a c = true) w
    /\ (lo <= length w)%nat /\ within hi (length w)
    /\ k (last_char prev w) rest = Some res.
Proof.
  induction s as [|c s IH]; intros lo hi prev res H.
  - simpl in H. destruct lo; [|discriminate].
    exists [], []. repeat split; auto.
    destruct hi; simpl; [lia | exact I].
  - cbn [rep] in H.
    assert (Stop : match lo with O => k prev (c :: s) | S _ => None end
                   = Some res ->
                   exists w rest, c :: s = w ++ rest
                     /\ Forall (fun c => atom_match icase a c = true) w
                     /\ (lo <= length w)%nat /\ within hi (length w)
                     /\ k (last_char prev w) rest = Some res).
    { intros H0. destruct lo; [|discriminate].
      exists [], (c :: s). repeat split; auto.
      destruct hi; simpl; [lia | exact I]. }
    destruct (more hi && atom_match icase a c) eqn:E; [|now apply Stop].
    apply andb_true_iff in E as [Em Ea].
    destruct (rep icase a (pred lo) (less hi) (Some c) s k) as [r|] eqn:Er;
      [|now apply Stop].
    injection H as ->.
    destruct (IH _ _ _ _ Er) as (w & rest & -> & Hall & Hlo & Hhi & Hk).
    exists (c :: w), rest. repeat split.
    + now constructor.
    + simpl. lia.
    + simpl. now apply within_less.
    + exact Hk.
Qed.

Lemma rep_complete (a : atom) (k : option N -> str -> option R)
    (w rest : str) :
  forall lo hi prev,
  Forall (fun c => atom_match icase a c = true) w ->
  (lo <= length w)%nat -> within hi (length w) ->
  k (last_char prev w) rest <> None ->
  rep icase a lo hi prev (w ++ rest) k <> None.
Proof.
  induction w as [|c w IH]; intros lo hi prev Hall Hlo Hhi Hk.
  - simpl in Hlo. assert (lo = O) by lia. subst lo. simpl in Hk.
    destruct rest as [|c rest]; cbn [app rep]; [exact Hk|].
    destruct (more hi && atom_match icase a c); [|exact Hk].
    now destruct (rep icase a (pred 0) (less hi) (Some c) rest k).
  - inversion Hall as [|? ? Hc Hw]; subst.
    simpl in Hhi. apply within_more in Hhi as [Hm Hhi].
    cbn [app rep]. rewrite Hm, Hc. cbn [andb].
    specialize (IH (pred lo) (less hi) (Some c) Hw).
    destruct (rep icase a (pred lo) (less hi) (Some c) (w ++ rest) k);
      [discriminate|].
    exfalso. apply IH; [simpl in Hlo; lia | exact Hhi | exact Hk
                       | reflexivity].
Qed.

Lemma run_sound (r : regex) :
  forall prev s g k res,
  run icase r prev s g k = Some res ->
  exists w rest g', s = w ++ rest /\ denote r prev w rest
    /\ k (last_char prev w) rest g' = Some res.
Proof.
  induction r as [|a|lo hi a|r1 IH1 r2 IH2|r1 IH1 r2 IH2|r1 IH1|];
    intros prev s g k res H; cbn [run] in H.
  - exists [], s, g. now repeat split.
  - destruct s as [|c s]; [discriminate|].
    destruct (atom_match icase a c) eqn:E; [|discriminate].
    exists [c], s, g. repeat split; [|exact H]. now exists c.
  - apply rep_sound in H as (w & rest & -> & Hall & Hlo & Hhi & Hk).
    exists w, rest, g. now repeat split.
  - apply IH1 in H as (w1 & rest1 & g1 & -> & D1 & H).
    apply IH2 in H as (w2 & rest & g2 & -> & D2 & H).
    exists (w1 ++ w2), rest, g2. rewrite app_assoc, last_char_app.
    repeat split; [|exact H]. now exists w1, w2.
  - destruct (run icase r1 prev s g k) as [x|] eqn:E.
    + injection H as ->.
      apply IH1 in E as (w & rest & g' & -> & D & H).
      exists w, rest, g'. repeat split; [now left | exact H].
    + apply IH2 in H as (w & rest & g' & -> & D & H).
      exists w, rest, g'. repeat split; [now right | exact H].
  - apply IH1 in H as (w & rest & g' & -> & D & H).
    now exists w, rest, (Some (taken (w ++ rest) rest)).
  - destruct (at_boundary prev s) eqn:E; [|discriminate].
    exists [], s, g. now repeat split.
Qed.

Lemma run_complete (r : regex) :
  forall prev w rest g k,
  denote r prev w rest ->
  (forall g', k (last_char prev w) rest g' <> None) ->
  run icase r prev (w ++ rest) g k <> None.
Proof.
  induction r as [|a|lo hi a|r1 IH1 r2 IH2|r1 IH1 r2 IH2|r1 IH1|];
    intros prev w rest g k D Hk; cbn [run]; cbn [denote] in D.
  - subst w. apply Hk.
  - destruct D as (c & -> & Hc). cbn [app]. rewrite Hc. apply Hk.
  - destruct D as (Hall & Hlo & Hhi).
    apply rep_complete; auto.
  - destruct D as (w1 & w2 & -> & D1 & D2). rewrite <- app_assoc.
    apply IH1; [exact D1|]. intros g'. apply IH2; [exact D2|].
    intros g''. rewrite <- last_char_app. apply Hk.
  - destruct D as [D|D].
    + specialize (IH1 prev w rest g k D Hk).
      now destruct (run icase r1 prev (w ++ rest) g k).
    + destruct (run icase r1 prev (w ++ rest) g k); [discriminate|].
      now apply IH2.
  - apply IH1; [exact D|]. intros g'. apply Hk.
  - destruct D as [-> D]. cbn [app]. rewrite D. apply Hk.
Qed.

(** [search] finds a match exactly when some part of the text is in the
    language of the pattern. *)
Lemma search_from_sound (r : regex) (s : str) :
  forall prev m, search_from icase r prev s = Some m ->
  exists pre w rest, s = pre ++ w ++ rest
    /\ denote r (last_char prev pre) w rest.
Proof.
  induction s as [|c s IH]; intros prev m H; cbn [search_from] in H.
  - destruct (match_at icase r prev []) as [[s' g]|] eqn:E; [|discriminate].
    apply run_sound in E as (w & rest & g' & Hs & D & _).
    now exists [], w, rest.
  - destruct (match_at icase r prev (c :: s)) as [[s' g]|] eqn:E.
    + apply run_sound in E as (w & rest & g' & Hs & D & _).
      now exists [], w, rest.
    + apply IH in H as (pre & w & rest & -> & D).
      now exists (c :: pre), w, rest.
Qed.

Lemma search_from_complete (r : regex) (pre w rest : str) :
  forall prev, denote r (last_char prev pre) w rest ->
  search_from icase r prev (pre ++ w ++ rest) <> None.
Proof.
  induction pre as [|c pre IH]; intros prev D.
  - cbn [app]. simpl in D.
    assert (M : match_at icase r prev (w ++ rest) <> None).
    { apply run_complete; [exact D | discriminate]. }
    destruct (w ++ rest) as [|c s]; cbn [search_from];
      destruct (match_at icase r prev _) as [[s' g]|];
      try discriminate; now elim M.
  - cbn [app search_from].
    destruct (match_at icase r prev _) as [[s' g]|]; [discriminate|].
    apply IH. exact D.
Qed.

End Denote.
End Matcher.

(** ** Intent scorer: keys, scores and evidence *)

Section ScorerClaims.
Context {U : Unicode}.

Lemma hits_of_In (text : str) (rule : TermRule) (t : str) :
  In t (hits_of text rule) <-> matched text rule t.
Proof.
  unfold hits_of, matched. now rewrite filter_In, contains_spec.
Qed.

Lemma evidence_of_In (text : str) (rule : TermRule) (t : str) :
  In t (evidence_of text rule) <-> matched text rule t.
Proof.
  unfold evidence_of. now rewrite sorted_In, set_of_In, hits_of_In.
Qed.

Lemma evidence_of_length (text : str) (rule : TermRule) :
  score_of text rule
  = weight rule * Z.of_nat (length (evidence_of text rule)).
Proof. unfold score_of, evidence_of. now rewrite sorted_length. Qed.

Lemma INTENT_RULES_weights : forallb nonzero_weight INTENT_RULES = true.
Proof. reflexivity. Qed.

Lemma rule_weight (k : string) (rule : TermRule) :
  lookup INTENT_RULES k = Some rule -> weight rule <> 0.
Proof.
  intros H. apply lookup_In in H.
  pose proof INTENT_RULES_weights as F. rewrite forallb_forall in F.
  specialize (F _ H). unfold nonzero_weight in F. simpl in F.
  now apply negb_true_iff, Z.eqb_neq in F.
Qed.

Lemma positive_score_has_evidence (text : str) (rule : TermRule) :
  0 < score_of text rule -> evidence_of text rule <> [].
Proof.
  intros H E. rewrite evidence_of_length, E in H.
  cbn [length Z.of_nat] in H. lia.
Qed.

Lemma security_rule :
  exists rule, lookup INTENT_RULES "SECURITY" = Some rule
    /\ terms rule = SECURITY_TERMS /\ weight rule = 5.
Proof. eexists. repeat split; reflexivity. Qed.

(** C9. Every declared intent category (M_AND_A, LEGAL, SECURITY, SALES,
    SUPPORT) is a key of the scores and of the evidence that
    [score_intents] returns, and of the [intent_scores] and
    [intent_evidence] of the decision that [decide_action] returns,
    whatever was matched. *)
Theorem categories_always_present (subject body : str) (email : Email) :
  (exists scores evidence,
     score_intents subject body = Ok (scores, evidence)
     /\ keys scores = categories /\ keys evidence = categories)
  /\ (exists d,
     decide_action email = Ok d
     /\ keys (intent_scores d) = categories
     /\ keys (intent_evidence d) = categories)
  /\ categories
     = [ "M_AND_A"; "LEGAL"; "SECURITY"; "SALES"; "SUPPORT" ]%string.
Proof.
  split; [|split; [|reflexivity]].
  - rewrite score_intents_closed. do 2 eexists. split; [reflexivity|].
    unfold values_of. now rewrite !keys_map_values.
  - exists (decision_of email). split; [apply decide_action_closed|].
    cbn [decision_of intent_scores intent_evidence].
    unfold scores_after. split.
    + rewrite suppress_keys; unfold values_of; rewrite keys_map_values;
        [reflexivity|]. rewrite INTENT_RULES_keys. simpl. tauto.
    + unfold values_of. now rewrite keys_map_values.
Qed.

(** C10. In the result of [score_intents] the score of a category is its
    weight times the length of its evidence, so that the evidence is empty
    exactly when the score is 0.  In the decision of [decide_action] the
    same holds for every category but SECURITY, whose score the
    suppression rule may set to 0. *)
Theorem score_is_weight_times_evidence (subject body : str) (email : Email) :
  (exists scores evidence,
     score_intents subject body = Ok (scores, evidence)
     /\ forall k rule, lookup INTENT_RULES k = Some rule ->
        exists sc ev,
          lookup scores k = Some sc /\ lookup evidence k = Some ev
          /\ sc = weight rule * Z.of_nat (length ev)
          /\ (ev = [] <-> sc = 0))
  /\ (exists d,
     decide_action email = Ok d
     /\ forall k rule, lookup INTENT_RULES k = Some rule ->
        k <> "SECURITY"%string ->
        exists sc ev,
          lookup (intent_scores d) k = Some sc
          /\ lookup (intent_evidence d) k = Some ev
          /\ sc = weight rule * Z.of_nat (length ev)
          /\ (ev = [] <-> sc = 0)).
Proof.
  assert (Core : forall text k rule, lookup INTENT_RULES k = Some rule ->
    exists sc ev,
      lookup (values_of (score_of text) INTENT_RULES) k = Some sc
      /\ lookup (values_of (evidence_of text) INTENT_RULES) k = Some ev
      /\ sc = weight rule * Z.of_nat (length ev)
      /\ (ev = [] <-> sc = 0)).
  { intros text k rule Hk.
    exists (score_of text rule), (evidence_of text rule).
    unfold values_of. rewrite !lookup_map_values, Hk.
    repeat split; try apply evidence_of_length.
    - intros E. rewrite evidence_of_length, E. simpl. lia.
    - rewrite evidence_of_length. intros E.
      apply Z.mul_eq_0 in E as [E|E];
        [now apply rule_weight in Hk|].
      apply length_zero_iff_nil. lia. }
  split.
  - rewrite score_intents_closed. do 2 eexists. split; [reflexivity|].
    apply Core.
  - exists (decision_of email). split; [apply decide_action_closed|].
    intros k rule Hk Nk. cbn [decision_of intent_scores intent_evidence].
    unfold scores_after. rewrite suppress_other by exact Nk. now apply Core.
Qed.

(** C5. [score_intents] looks at the lower-cased text of subject, line
    break and body; its two dictionaries list the categories in the order
    of declaration; for each category the evidence holds exactly the
    matched terms, each once, in strictly ascending order, and the score
    is the weight times their number; with no matched term the score is 0
    and the evidence is empty. *)
Theorem score_intents_by_category (subject body : str) :
  let text := str_lower (subject ++ nl ++ body) in
  exists scores evidence,
    score_intents subject body = Ok (scores, evidence)
    /\ keys scores = keys INTENT_RULES
    /\ keys evidence = keys INTENT_RULES
    /\ keys INTENT_RULES
       = [ "M_AND_A"; "LEGAL"; "SECURITY"; "SALES"; "SUPPORT" ]%string
    /\ forall k rule, lookup INTENT_RULES k = Some rule ->
       exists ev,
         lookup evidence k = Some ev
         /\ lookup scores k = Some (weight rule * Z.of_nat (length ev))
         /\ (forall t, In t ev <-> matched text rule t)
         /\ NoDup ev
         /\ StronglySorted str_lt ev
         /\ ((forall t, ~ matched text rule t) ->
             lookup scores k = Some 0 /\ ev = []).
Proof.
  intros text. rewrite score_intents_closed. unfold lowered. fold text.
  do 2 eexists. split; [reflexivity|].
  unfold values_of. rewrite !keys_map_values.
  repeat split; try reflexivity.
  intros k rule Hk. exists (evidence_of text rule).
  rewrite !lookup_map_values, Hk. cbn [option_map].
  rewrite evidence_of_length.
  split; [reflexivity|]. split; [reflexivity|].
  split; [apply evidence_of_In|].
  split; [apply sorted_NoDup, set_of_NoDup|].
  split; [apply sorted_strict, set_of_NoDup|].
  intros None_matched.
  assert (E : evidence_of text rule = []).
  { destruct (evidence_of text rule) as [|t ts] eqn:E; [reflexivity|].
    exfalso. apply (None_matched t), evidence_of_In. rewrite E. now left. }
  rewrite E. cbn [length Z.of_nat]. now rewrite Z.mul_0_r.
Qed.

End ScorerClaims.

(** ** Rounding

    [binary_round_aux] returns the double nearest to the value that its
    arguments locate, and [Float.round2] rounds to two decimals. *)

Module Rounding.
Import Exact.

Local Abbreviation fexp := (SpecFloat.fexp Float.prec Float.emax).
Local Abbreviation emin := (-1074)%Z.

(** *** Digits *)

Lemma digits2_pos_bounds (p : positive) :
  2 ^ (Zpos (digits2_pos p) - 1) <= Zpos p < 2 ^ Zpos (digits2_pos p).
Proof.
  induction p as [p IH|p IH|]; cbn [digits2_pos].
  - rewrite Pos2Z.inj_succ.
    replace (Z.succ (Zpos (digits2_pos p)) - 1) with
      (Z.succ (Zpos (digits2_pos p) - 1)) by lia.
    rewrite !Z.pow_succ_r by lia. lia.
  - rewrite Pos2Z.inj_succ.
    replace (Z.succ (Zpos (digits2_pos p)) - 1) with
      (Z.succ (Zpos (digits2_pos p) - 1)) by lia.
    rewrite !Z.pow_succ_r by lia. lia.
  - cbn. lia.
Qed.

Lemma Zdigits2_bounds (m : Z) :
  0 < m -> 2 ^ (Zdigits2 m - 1) <= m < 2 ^ Zdigits2 m /\ 1 <= Zdigits2 m.
Proof.
  destruct m as [|p|p]; try lia. intros _. cbn [Zdigits2].
  split; [apply digits2_pos_bounds | lia].
Qed.

(** *** Shifting *)

Lemma loc_of_shr_record_of_loc (m : Z) (l : location) :
  loc_of_shr_record (shr_record_of_loc m l) = l
  /\ shr_m (shr_record_of_loc m l) = m.
Proof. destruct l as [|[]]; now split. Qed.

Ltac compare_to_order :=
  repeat match goal with
  | H : _ /\ _ |- _ => destruct H
  | H : (_ ?= _) = Eq |- _ => apply Z.compare_eq_iff in H
  | H : (_ ?= _) = Lt |- _ => apply (proj1 (Z.compare_lt_iff _ _)) in H
  | H : (_ ?= _) = Gt |- _ => apply (proj1 (Z.compare_gt_iff _ _)) in H
  | |- _ /\ _ => split
  | |- (_ ?= _) = Eq => apply Z.compare_eq_iff
  | |- (_ ?= _) = Lt => apply Z.compare_lt_iff
  | |- (_ ?= _) = Gt => apply Z.compare_gt_iff
  end.

Lemma shr_1_located (a b : Z) (mrs : shr_record) :
  located a b (shr_m mrs) (loc_of_shr_record mrs) ->
  located a (2 * b) (shr_m (shr_1 mrs)) (loc_of_shr_record (shr_1 mrs))
  /\ shr_m (shr_1 mrs) = shr_m mrs / 2.
Proof.
  destruct mrs as [m r s]. unfold located. cbn [shr_m].
  intros (Hb & Hm & H).
  assert (Half : forall p, Zpos p~0 / 2 = Zpos p /\ Zpos p~1 / 2 = Zpos p).
  { intros p. split.
    - rewrite Pos2Z.inj_xO. now rewrite Z.mul_comm, Z.div_mul by lia.
    - rewrite Pos2Z.inj_xI. rewrite Z.mul_comm, Z.add_comm.
      rewrite Z.div_add by lia. reflexivity. }
  destruct m as [|[p|p|]|p]; try lia;
    try (destruct (Half p) as [H0 H1]; clear Half);
    destruct r, s; cbn [shr_1 orb loc_of_shr_record shr_m] in *;
    (split; [|first [reflexivity | symmetry; assumption]]);
    (split; [lia|]); (split; [lia|]);
    compare_to_order; lia.
Qed.

Lemma iter_shr_1_located (p : positive) :
  forall (a b : Z) (mrs : shr_record),
    located a b (shr_m mrs) (loc_of_shr_record mrs) ->
    let mrs' := SpecFloat.iter_pos shr_1 p mrs in
    located a (b * 2 ^ Zpos p) (shr_m mrs') (loc_of_shr_record mrs')
    /\ shr_m mrs' = shr_m mrs / 2 ^ Zpos p.
Proof.
  induction p as [p IH|p IH|]; intros a b mrs L; cbn [SpecFloat.iter_pos];
    cbv zeta.
  - apply shr_1_located in L as [L E1].
    apply IH in L as [L E2]. apply IH in L as [L E3]. cbv zeta in *.
    replace (Zpos p~1) with (1 + Zpos p + Zpos p) by lia.
    rewrite !Z.pow_add_r by lia. change (2 ^ 1) with 2. split.
    + now replace (b * (2 * 2 ^ Zpos p * 2 ^ Zpos p))
        with (2 * b * 2 ^ Zpos p * 2 ^ Zpos p) by ring.
    + rewrite E3, E2, E1. rewrite !Z.div_div by lia. f_equal. ring.
  - apply IH in L as [L E2]. apply IH in L as [L E3]. cbv zeta in *.
    replace (Zpos p~0) with (Zpos p + Zpos p) by lia.
    rewrite !Z.pow_add_r by lia. split.
    + now rewrite Z.mul_assoc.
    + rewrite E3, E2. rewrite !Z.div_div by lia. f_equal.
  - apply shr_1_located in L as [L E1]. change (2 ^ 1) with 2.
    rewrite (Z.mul_comm b 2). now split.
Qed.

Ltac unfold_format :=
  unfold SpecFloat.fexp, SpecFloat.emin, Float.prec, Float.emax in *.

(** The first shift of [binary_round_aux]: down to 53 bits, or to the
    least exponent. *)
Lemma shr_fexp_located (a b m e : Z) (l : location) :
  located a b m l ->
  e <= fexp (Zdigits2 m + e) ->
  let '(mrs, e1) := shr_fexp Float.prec Float.emax m e l in
  e <= e1 /\ emin <= e1
  /\ located a (b * 2 ^ (e1 - e)) (shr_m mrs) (loc_of_shr_record mrs)
  /\ shr_m mrs < 2 ^ 53
  /\ (e1 = emin \/ 2 ^ 52 <= shr_m mrs).
Proof.
  intros L He. pose proof L as (Hb & Hm & _).
  destruct (loc_of_shr_record_of_loc m l) as [El Em].
  unfold shr_fexp, shr.
  assert (D : m = 0 /\ Zdigits2 m = 0
              \/ 0 < m /\ 2 ^ (Zdigits2 m - 1) <= m < 2 ^ Zdigits2 m
                 /\ 1 <= Zdigits2 m).
  { destruct (Z.eq_dec m 0) as [->|N]; [now left|].
    right. split; [lia|]. apply Zdigits2_bounds. lia. }
  set (d := Zdigits2 m) in *.
  destruct (fexp (d + e) - e) as [|p|p] eqn:N.
  - replace (e - e) with 0 by lia. rewrite Z.mul_1_r, El, Em.
    split; [lia|]. split; [unfold_format; lia|]. split; [exact L|].
    destruct D as [[-> D]|(Pm & [Lo Hi] & D)].
    + split; [lia|]. left. unfold_format. lia.
    + assert (d <= 53) by (unfold_format; lia).
      split.
      * assert (2 ^ d <= 2 ^ 53) by (apply Z.pow_le_mono_r; lia). lia.
      * destruct (Z.eq_dec e emin) as [E|E]; [now left | right].
        assert (Ed : d = 53) by (unfold_format; lia). rewrite Ed in Lo.
        exact Lo.
  - assert (L' : located a b (shr_m (shr_record_of_loc m l))
                   (loc_of_shr_record (shr_record_of_loc m l)))
      by (now rewrite El, Em).
    clear L. apply (iter_shr_1_located p) in L' as [L E].
    cbv zeta in L, E.
    rewrite Em in E.
    replace (e + Zpos p - e) with (Zpos p) by lia.
    split; [lia|]. split; [unfold_format; lia|]. split; [exact L|].
    rewrite E.
    assert (P : 0 < 2 ^ Zpos p) by (apply Z.pow_pos_nonneg; lia).
    destruct D as [[-> D]|(Pm & [Lo Hi] & D)].
    + rewrite Z.div_0_l by lia. split; [lia|]. left. unfold_format. lia.
    + split.
      * apply Z.div_lt_upper_bound; [exact P|].
        rewrite <- Z.pow_add_r by lia.
        assert (2 ^ d <= 2 ^ (Zpos p + 53))
          by (apply Z.pow_le_mono_r; unfold_format; lia).
        lia.
      * destruct (Z.eq_dec (e + Zpos p) emin) as [E'|E']; [now left|right].
        apply Z.div_le_lower_bound; [exact P|].
        rewrite <- Z.pow_add_r by lia.
        replace (Zpos p + 52) with (d - 1) by (unfold_format; lia).
        exact Lo.
  - lia.
Qed.

(** Rounding to nearest, ties to even, of a located number. *)
Lemma round_nearest_even_located (a b g : Z) (l : location) :
  located a b g l ->
  let m := round_nearest_even g l in
  (m = g \/ m = g + 1)
  /\ g * b <= a <= (g + 1) * b
  /\ - b <= 2 * (a - m * b) <= b
  /\ (2 * (a - m * b) = b \/ 2 * (a - m * b) = - b -> Z.even m = true).
Proof.
  intros (Hb & Hg & H). cbv zeta.
  destruct l as [|[]]; cbn [round_nearest_even]; compare_to_order;
    try (destruct (Z.even g) eqn:Ev); try lia;
    try (intros _;
         first [exact Ev
               | rewrite Z.even_add, Ev; reflexivity]);
    try (intros [T|T]; exfalso; lia).
Qed.

(** The second shift of [binary_round_aux]: one place when rounding has
    carried into a 54th bit, none otherwise. *)
Lemma shr_fexp_rounded (m e : Z) :
  0 <= m <= 2 ^ 53 -> emin <= e -> (e = emin \/ 2 ^ 52 <= m) ->
  let '(mrs, e') := shr_fexp Float.prec Float.emax m e loc_Exact in
  (shr_m mrs = m /\ e' = e
   \/ m = 2 ^ 53 /\ shr_m mrs = 2 ^ 52 /\ e' = e + 1)
  /\ (shr_m mrs = 0 \/ fexp (Zdigits2 (shr_m mrs) + e') = e')
  /\ (e' = emin \/ 2 ^ 52 <= shr_m mrs).
Proof.
  intros Hm He Hn. unfold shr_fexp.
  destruct (Z.eq_dec m (2 ^ 53)) as [->|N].
  - change (Zdigits2 (2 ^ 53)) with 54.
    replace (fexp (54 + e) - e) with 1 by (unfold_format; lia).
    cbn [shr shr_record_of_loc SpecFloat.iter_pos]. cbn [shr_1 Z.pow Z.pow_pos
      Pos.iter Z.mul Pos.mul orb shr_m].
    change (Zpos 4503599627370496) with (2 ^ 52).
    split; [right; now repeat split|].
    change (Zdigits2 (2 ^ 52)) with 53.
    split; [right; unfold_format; lia | now right].
  - assert (D : m = 0 /\ Zdigits2 m = 0
                \/ 0 < m /\ 2 ^ (Zdigits2 m - 1) <= m < 2 ^ Zdigits2 m
                   /\ 1 <= Zdigits2 m).
    { destruct (Z.eq_dec m 0) as [->|N0]; [now left|].
      right. split; [lia|]. apply Zdigits2_bounds. lia. }
    assert (E : fexp (Zdigits2 m + e) = e).
    { destruct D as [[-> D]|(Pm & [Lo Hi] & D)].
      - cbn [Zdigits2]. unfold_format. lia.
      - set (d := Zdigits2 m) in *.
        assert (d <= 53).
        { destruct (Z_le_gt_dec d 53) as [?|G]; [assumption|].
          assert (2 ^ 53 <= 2 ^ (d - 1)) by (apply Z.pow_le_mono_r; lia).
          lia. }
        destruct Hn as [->|Hn]; [unfold_format; lia|].
        assert (53 <= d).
        { destruct (Z_le_gt_dec 53 d) as [?|G]; [assumption|].
          assert (2 ^ d <= 2 ^ 52) by (apply Z.pow_le_mono_r; lia).
          lia. }
        unfold_format. lia. }
    rewrite E, Z.sub_diag. cbn [shr shr_record_of_loc shr_m].
    split; [left; now split|]. split; [now right | exact Hn].
Qed.

(** [binary_round_aux] on a located number: what it returns, and how the
    mantissa it rounds to lies to the number.  [b * 2 ^ (e1 - e)] is the
    unit of the rounding in the unit of [a/b]. *)
Lemma binary_round_aux_located (a b m e : Z) (l : location) :
  located a b m l ->
  e <= fexp (Zdigits2 m + e) ->
  exists g m2 e1 mf e2,
    binary_round_aux Float.prec Float.emax false m e l
    = match mf with
      | 0 => S754_zero false
      | Zpos p =>
        if e2 <=? 971 then S754_finite false p e2 else S754_infinity false
      | Zneg _ => S754_nan
      end
    /\ e <= e1 /\ emin <= e1 /\ 0 <= g < 2 ^ 53
    /\ (e1 = emin \/ 2 ^ 52 <= g)
    /\ (m2 = g \/ m2 = g + 1)
    /\ (let unit := b * 2 ^ (e1 - e) in
        0 < unit
        /\ g * unit <= a <= (g + 1) * unit
        /\ - unit <= 2 * (a - m2 * unit) <= unit
        /\ (2 * (a - m2 * unit) = unit \/ 2 * (a - m2 * unit) = - unit ->
            Z.even m2 = true))
    /\ (mf = m2 /\ e2 = e1 \/ m2 = 2 ^ 53 /\ mf = 2 ^ 52 /\ e2 = e1 + 1)
    /\ (mf = 0 \/ fexp (Zdigits2 mf + e2) = e2)
    /\ (e2 = emin \/ 2 ^ 52 <= mf).
Proof.
  intros L He. unfold binary_round_aux.
  pose proof (shr_fexp_located L He) as S1.
  destruct (shr_fexp Float.prec Float.emax m e l) as [mrs1 e1].
  destruct S1 as (He1 & Hmin & L1 & Hg & Hn).
  pose proof L1 as (Hu & Hg0 & _).
  pose proof (round_nearest_even_located L1) as R. cbv zeta in R.
  set (g := shr_m mrs1) in *.
  set (m2 := round_nearest_even g (loc_of_shr_record mrs1)) in *.
  destruct R as (Hm2 & Hbr & Herr & Htie).
  assert (S2 : 0 <= m2 <= 2 ^ 53) by lia.
  assert (Hn2 : e1 = emin \/ 2 ^ 52 <= m2) by lia.
  pose proof (shr_fexp_rounded S2 Hmin Hn2) as S3.
  destruct (shr_fexp Float.prec Float.emax m2 e1 loc_Exact) as [mrs2 e2].
  destruct S3 as (Hf & Hc & Hn3).
  exists g, m2, e1, (shr_m mrs2), e2.
  split.
  { destruct (shr_m mrs2); reflexivity. }
  repeat (split; [assumption || lia|]).
  split; [|now repeat split].
  cbv zeta. now repeat split.
Qed.

(** *** Rationals *)

Lemma pow2_pos (e : Z) : (0 < 2 ^ e)%Q.
Proof. now apply Qpower_0_lt. Qed.

Lemma pow2_add (a b : Z) : (2 ^ (a + b) == 2 ^ a * 2 ^ b)%Q.
Proof. now apply Qpower_plus. Qed.

Lemma pow2_Z (n : Z) : 0 <= n -> (inject_Z (2 ^ n) == 2 ^ n)%Q.
Proof. intros H. now rewrite Zpower_Qpower. Qed.

Lemma pow2_le (a b : Z) : a <= b -> (2 ^ a <= 2 ^ b)%Q.
Proof. intros H. now apply Qpower_le_compat_l. Qed.

Lemma pow2_split (e e1 : Z) :
  e1 <= e -> (2 ^ e == inject_Z (2 ^ (e - e1)) * 2 ^ e1)%Q.
Proof.
  intros H. rewrite pow2_Z by lia. rewrite <- pow2_add.
  now replace (e - e1 + e1) with e by lia.
Qed.

Lemma Q_of_le (x y : Z) : x <= y -> (inject_Z x <= inject_Z y)%Q.
Proof. now rewrite <- Zle_Qle. Qed.

Lemma Q_of_lt (x y : Z) : x < y -> (inject_Z x < inject_Z y)%Q.
Proof. now rewrite <- Zlt_Qlt. Qed.

Lemma Q_of_eq (x y : Z) : x = y -> (inject_Z x == inject_Z y)%Q.
Proof. now intros ->. Qed.

Ltac to_Q H :=
  first [apply Q_of_le in H | apply Q_of_lt in H | apply Q_of_eq in H];
  repeat first [rewrite inject_Z_plus in H | rewrite inject_Z_mult in H
               | rewrite inject_Z_opp in H].

Lemma scaled_bracket (v u U A G M : Q) :
  (0 < u -> 0 < U -> v * U == A * u ->
   G * U <= A <= (G + 1) * U ->
   - U <= 2 * (A - M * U) <= U ->
   G * u <= v <= (G + 1) * u
   /\ - u <= 2 * (v - M * u) <= u
   /\ (2 * (v - M * u) == u -> 2 * (A - M * U) == U)
   /\ (2 * (v - M * u) == - u -> 2 * (A - M * U) == - U))%Q.
Proof.
  intros Hu HU E [B1 B2] [E1 E2].
  repeat split; try nra.
Qed.

Lemma nearest_of_two (v u G Y Z : Q) :
  (0 < u ->
   G * u <= v <= (G + 1) * u ->
   Y == G * u \/ Y == (G + 1) * u ->
   - u <= 2 * (v - Y) <= u ->
   Z <= G * u \/ (G + 1) * u <= Z ->
   Qabs (v - Y) <= Qabs (v - Z)
   /\ (Qabs (v - Y) == Qabs (v - Z) -> ~ Y == Z ->
       2 * (v - Y) == u \/ 2 * (v - Y) == - u))%Q.
Proof.
  intros Hu [B1 B2] HY [E1 E2] HZ.
  split.
  - apply Qabs_case; intros; apply Qabs_case; intros; destruct HY, HZ; lra.
  - apply Qabs_case; intros ?; apply Qabs_case; intros ? T N;
      destruct HY, HZ;
      first [exfalso; apply N; lra | left; lra | right; lra].
Qed.

(** No double lies strictly between two neighbours of the grid on which
    [binary_round_aux] rounds. *)
Lemma double_outside (z : Float.float) (g e1 : Z) :
  double z -> emin <= e1 -> 0 <= g -> (e1 = emin \/ 2 ^ 52 <= g) ->
  (number z <= inject_Z g * 2 ^ e1
   \/ (inject_Z g + 1) * 2 ^ e1 <= number z)%Q.
Proof.
  intros [Fz Vz] He1 Hg Hn.
  pose proof (pow2_pos e1) as Pu.
  assert (G0 : (0 <= inject_Z g)%Q) by (now apply (@Q_of_le 0 g)).
  destruct z as [s|s| |s m e]; try discriminate; cbn [number].
  - left. nra.
  - pose proof (pow2_pos e) as Pe.
    assert (M0 : (0 < inject_Z (Zpos m))%Q)
      by (now apply (@Q_of_lt 0 (Zpos m))).
    destruct s; [left; nra|].
    cbn [valid_binary] in Vz. unfold bounded, canonical_mantissa in Vz.
    apply andb_true_iff in Vz as [C B].
    apply Z.eqb_eq in C. apply Z.leb_le in B.
    pose proof (digits2_pos_bounds m) as [Lo Hi].
    set (d := Zpos (digits2_pos m)) in *.
    assert (Hd : d <= 53 /\ emin <= e) by (unfold_format; lia).
    assert (Hm : Zpos m < 2 ^ 53).
    { assert (2 ^ d <= 2 ^ 53) by (apply Z.pow_le_mono_r; lia). lia. }
    destruct (Z_le_gt_dec e1 e) as [L|L].
    + pose proof (pow2_split L) as Ee.
      set (n := Zpos m * 2 ^ (e - e1)).
      assert (En : (1 * inject_Z (Zpos m) * 2 ^ e == inject_Z n * 2 ^ e1)%Q).
      { unfold n. rewrite inject_Z_mult, Ee. ring. }
      rewrite En.
      destruct (Z_le_gt_dec n g) as [C1|C1].
      * left. to_Q C1. nra.
      * right. assert (C2 : g + 1 <= n) by lia. to_Q C2.
        change (inject_Z 1) with 1%Q in C2. nra.
    + left.
      assert (G52 : Zpos m <= 2 * g).
      { assert (2 ^ 53 = 2 * 2 ^ 52) by reflexivity. lia. }
      to_Q G52. change (inject_Z 2) with 2%Q in G52.
      assert (P2 : (2 ^ e * 2 <= 2 ^ e1)%Q).
      { change 2%Q with (2 ^ 1)%Q at 2. rewrite <- pow2_add.
        apply pow2_le. lia. }
      nra.
Qed.

(** [binary_round_aux] returns the double nearest to the value that its
    arguments locate. *)
Lemma binary_round_aux_nearest (v : Q) (a b m e : Z) (l : location) :
  located a b m l ->
  e <= fexp (Zdigits2 m + e) ->
  (v * inject_Z b == inject_Z a * 2 ^ e)%Q ->
  nearest_double v (binary_round_aux Float.prec Float.emax false m e l).
Proof.
  intros L He Ev.
  destruct (binary_round_aux_located L He)
    as (g & m2 & e1 & mf & e2 & R & He1 & Hmin & Hg & Hn & Hm2 & Hu & Hf
        & Hc & Hn2).
  cbv zeta in Hu. set (U := b * 2 ^ (e1 - e)) in *.
  destruct Hu as (PU & [B1 B2] & [E1 E2] & Htie).
  rewrite R. clear R.
  pose proof (pow2_pos e1) as Pu.
  assert (EU : (v * inject_Z U == inject_Z a * 2 ^ e1)%Q).
  { unfold U. rewrite inject_Z_mult, pow2_Z by lia.
    rewrite Qmult_assoc, Ev, <- Qmult_assoc, <- pow2_add.
    now replace (e + (e1 - e)) with e1 by lia. }
  assert (G0 : (0 <= inject_Z g)%Q) by (apply (@Q_of_le 0 g); lia).
  assert (S1 : 2 * (m2 * U) <= 2 * a + U) by lia.
  assert (S2 : 2 * a <= 2 * (m2 * U) + U) by lia.
  pose proof PU as PU'. pose proof B1 as B1'. pose proof B2 as B2'.
  to_Q PU'. to_Q B1'. to_Q B2'. to_Q S1. to_Q S2.
  change (inject_Z 0) with 0%Q in PU'.
  change (inject_Z 1) with 1%Q in B2'.
  change (inject_Z 2) with 2%Q in S1, S2.
  set (Uq := inject_Z U) in *. set (u := (2 ^ e1)%Q) in *.
  set (A := inject_Z a) in *. set (G := inject_Z g) in *.
  set (M := inject_Z m2) in *.
  assert (Bracket : (G * u <= v <= (G + 1) * u)%Q) by (split; nra).
  assert (Error : (- u <= 2 * (v - M * u) <= u)%Q) by (split; nra).
  assert (Two : (M * u == G * u \/ M * u == (G + 1) * u)%Q).
  { destruct Hm2 as [->| ->]; [now left | right].
    unfold M, G. rewrite inject_Z_plus. reflexivity. }
  assert (Near : forall z, double z ->
            (Qabs (v - M * u) <= Qabs (v - number z))%Q
            /\ ((Qabs (v - M * u) == Qabs (v - number z))%Q ->
                ~ (M * u == number z)%Q -> Z.even m2 = true)).
  { intros z Dz.
    destruct (double_outside Dz Hmin (proj1 Hg) Hn) as [O|O];
      fold G u in O;
      (destruct (@nearest_of_two v u G (M * u)%Q (number z) Pu Bracket Two
                   Error) as [N T]; [tauto|]);
      (split; [exact N|]); intros T1 T2; specialize (T T1 T2);
      (destruct (Z.eq_dec (2 * (a - m2 * U)) U) as [Z1|Z1];
        [apply Htie; now left|]);
      (destruct (Z.eq_dec (2 * (a - m2 * U)) (- U)) as [Z2|Z2];
        [apply Htie; now right|]);
      exfalso;
      assert (S3 : 2 * (m2 * U) < 2 * a + U) by lia;
      assert (S4 : 2 * a < 2 * (m2 * U) + U) by lia;
      to_Q S3; to_Q S4; change (inject_Z 2) with 2%Q in S3, S4;
      fold Uq A M in S3, S4; destruct T; nra. }
  assert (ET : (inject_Z (2 ^ 1024 - 2 ^ 970)
                == 18014398509481983 * 2 ^ 970)%Q).
  { replace (2 ^ 1024 - 2 ^ 970) with ((2 ^ 54 - 1) * 2 ^ 970)
      by reflexivity.
    rewrite inject_Z_mult, (@pow2_Z 970) by lia.
    change (inject_Z (2 ^ 54 - 1)) with 18014398509481983%Q.
    apply Qeq_refl. }
  pose proof (pow2_pos 970) as P970.
  destruct mf as [|p|p]; [| |lia].
  - assert (P52 : 0 < 2 ^ 52) by reflexivity.
    assert (Em : m2 = 0) by (destruct Hf as [[? ?]|(_ & ? & _)]; lia).
    assert (EY : (number (S754_zero false) == M * u)%Q).
    { unfold M. rewrite Em. cbn. ring. }
    split; [now split|]. split.
    + assert (EM : (M == 0)%Q) by (unfold M; now rewrite Em).
      assert (P : (u <= 2 ^ 970)%Q).
      { unfold u. apply pow2_le. lia. }
      assert (P1 : (1 <= 2 ^ 970)%Q) by (apply (@pow2_le 0 970); lia).
      rewrite ET. nra.
    + intros z Dz. rewrite EY.
      destruct (Near z Dz) as [N T]. split; [exact N|]. reflexivity.
  - assert (EY : (number (S754_finite false p e2) == M * u)%Q).
    { cbn [number]. destruct Hf as [[-> ->]|(-> & E52 & ->)].
      - fold M u. ring.
      - rewrite E52. unfold M, u. rewrite pow2_add.
        change (inject_Z (2 ^ 53)) with (inject_Z (2 ^ 52) * 2)%Q.
        change (2 ^ 1)%Q with 2%Q. ring. }
    assert (Ev2 : Z.even m2 = true -> Z.even (Zpos p) = true).
    { destruct Hf as [[-> _]|(_ & -> & _)]; [tauto | reflexivity]. }
    destruct (e2 <=? 971) eqn:Le.
    + apply Z.leb_le in Le.
      assert (Hcan : fexp (Zdigits2 (Zpos p) + e2) = e2)
        by (destruct Hc as [Hc|Hc]; [discriminate Hc | exact Hc]).
      split; [|split].
      * split; [reflexivity|]. cbn [valid_binary].
        unfold bounded, canonical_mantissa. apply andb_true_iff. split.
        -- now apply Z.eqb_eq.
        -- now apply Z.leb_le.
      * rewrite ET.
        assert (P : (u <= 2 ^ 970 * 2)%Q).
        { apply Qle_trans with (2 ^ 971)%Q; [apply pow2_le; lia|].
          apply Qle_lteq. right. exact (pow2_add 970 1). }
        destruct Hf as [[E1' E2']|(E53 & E52 & E2')].
        -- assert (Hp : Zpos p < 2 ^ 53).
           { pose proof (digits2_pos_bounds p) as [_ Hi].
             cbn [Zdigits2] in Hcan.
             assert (2 ^ Zpos (digits2_pos p) <= 2 ^ 53)
               by (apply Z.pow_le_mono_r; unfold_format; lia).
             lia. }
           destruct (Z.eq_dec (2 * (a - m2 * U)) U) as [Z1|Z1].
           ++ assert (Even : Z.even m2 = true) by (apply Htie; now left).
              assert (Hp' : m2 <= 2 ^ 53 - 2).
              { assert (m2 <> 2 ^ 53 - 1)
                  by (intros C; rewrite C in Even; discriminate).
                lia. }
              to_Q Hp'. fold M in Hp'.
              change (inject_Z (2 ^ 53 - 2)) with 9007199254740990%Q in Hp'.
              assert (M0 : (0 <= M)%Q) by (apply (@Q_of_le 0 m2); lia).
              assert (MU : (M * u <= 9007199254740990 * (2 ^ 970 * 2))%Q)
                by nra.
              lra.
           ++ assert (S3 : 2 * a < 2 * (m2 * U) + U) by lia.
              to_Q S3. change (inject_Z 2) with 2%Q in S3.
              fold Uq A M in S3.
              assert (Hp' : m2 <= 2 ^ 53 - 1) by lia.
              to_Q Hp'. fold M in Hp'.
              change (inject_Z (2 ^ 53 - 1)) with 9007199254740991%Q in Hp'.
              assert (M0 : (0 <= M)%Q) by (apply (@Q_of_le 0 m2); lia).
              assert (Strict : (2 * (v - M * u) < u)%Q) by nra.
              assert (MU : (M * u <= 9007199254740991 * (2 ^ 970 * 2))%Q)
                by nra.
              lra.
        -- assert (P' : (u <= 2 ^ 970)%Q)
             by (unfold u; apply pow2_le; lia).
           assert (EM : (M == 9007199254740992)%Q)
             by (unfold M; now rewrite E53).
           nra.
      * intros z Dz. rewrite EY. destruct (Near z Dz) as [N T].
        split; [exact N|]. intros T1 T2. apply Ev2. now apply T.
    + apply Z.leb_gt in Le. split; [reflexivity|]. rewrite ET.
      assert (H52 : 2 ^ 52 <= Zpos p) by lia.
      destruct Hf as [[E1' E2']|(E53 & _ & E2')].
      * assert (Hg52 : 2 ^ 52 <= g) by lia.
        assert (P : (2 ^ 970 * 4 <= u)%Q).
        { unfold u. change 4%Q with (2 ^ 2)%Q. rewrite <- pow2_add.
          apply pow2_le. lia. }
        to_Q Hg52. fold G in Hg52.
        change (inject_Z (2 ^ 52)) with 4503599627370496%Q in Hg52.
        nra.
      * assert (P : (2 ^ 970 * 2 <= u)%Q).
        { unfold u. change 2%Q with (2 ^ 1)%Q at 2. rewrite <- pow2_add.
          apply pow2_le. lia. }
        assert (EM : (M == 9007199254740992)%Q)
          by (unfold M; now rewrite E53).
        nra.
Qed.

(** *** Division *)

Lemma new_location_located (n q r : Z) :
  0 < n -> 0 <= q -> 0 <= r < n ->
  located (n * q + r) n q (new_location n r).
Proof.
  intros Hn Hq Hr. unfold located, new_location, new_location_even,
    new_location_odd.
  split; [exact Hn|]. split; [exact Hq|].
  destruct (Z.even n) eqn:Ev; destruct (Z.eqb_spec r 0) as [->|N];
    try lia.
  - split; [lia|].
    destruct (Z.compare_spec (2 * r) n); compare_to_order; lia.
  - split; [lia|].
    assert (Odd : 2 * r <> n).
    { intros E. rewrite <- E, Z.even_mul in Ev. discriminate. }
    destruct (Z.compare_spec (2 * r + 1) n); compare_to_order; lia.
Qed.

(** The quotient that [nearest] hands to [binary_round_aux]. *)
Lemma div_core_located (num den : positive) :
  let '(m, e, l) :=
    SFdiv_core_binary Float.prec Float.emax (Zpos num) 0 (Zpos den) 0 in
  e <= 0
  /\ located (Zpos num * 2 ^ (- e)) (Zpos den) m l
  /\ e <= fexp (Zdigits2 m + e).
Proof.
  unfold SFdiv_core_binary.
  pose proof (digits2_pos_bounds num) as [Ln Hn].
  pose proof (digits2_pos_bounds den) as [Ld Hd].
  cbn [Zdigits2].
  set (d1 := Zpos (digits2_pos num)) in *.
  set (d2 := Zpos (digits2_pos den)) in *.
  set (e := Z.min (fexp (d1 + 0 - (d2 + 0))) (0 - 0)).
  assert (He : e <= 0 /\ emin <= e
               /\ (e = emin \/ e <= d1 - d2 - 53))
    by (unfold e; unfold_format; lia).
  destruct He as (He0 & Hemin & Hnorm).
  set (m' := match 0 - 0 - e with
             | 0 => Zpos num
             | Zpos _ => Z.shiftl (Zpos num) (0 - 0 - e)
             | Zneg _ => 0
             end).
  assert (Em : m' = Zpos num * 2 ^ (- e)).
  { unfold m'. replace (0 - 0 - e) with (- e) by lia.
    destruct (- e) as [|p|p] eqn:E; [now rewrite Z.mul_1_r| |lia].
    now rewrite Z.shiftl_mul_pow2. }
  pose proof (Z.div_eucl_eq m' (Zpos den) ltac:(lia)) as Eq.
  pose proof (Z.mod_pos_bound m' (Zpos den) ltac:(lia)) as Rb.
  unfold Z.modulo in Rb.
  assert (Pe : 0 < 2 ^ (- e)) by (apply Z.pow_pos_nonneg; lia).
  assert (Qe : Z.div m' (Zpos den) = fst (Z.div_eucl m' (Zpos den)))
    by (unfold Z.div; now destruct (Z.div_eucl m' (Zpos den))).
  assert (Q0 : 0 <= Z.div m' (Zpos den)) by (apply Z.div_pos; nia).
  destruct (Z.div_eucl m' (Zpos den)) as [q r]. cbn [fst] in Qe.
  split; [exact He0|]. split.
  - rewrite <- Em, Eq. apply new_location_located; lia.
  - destruct Hnorm as [->|Hnorm]; [unfold_format; lia|].
    assert (H52 : 2 ^ 52 <= q).
    { rewrite <- Qe. apply Z.div_le_lower_bound; [lia|].
      rewrite Em.
      assert (2 ^ (52 + d2) <= 2 ^ (d1 - 1 + - e))
        by (apply Z.pow_le_mono_r; lia).
      rewrite !Z.pow_add_r in * by lia. nia. }
    destruct (Zdigits2_bounds (m := q) ltac:(lia)) as [[_ Hq] _].
    assert (53 <= Zdigits2 q).
    { destruct (Z_le_gt_dec 53 (Zdigits2 q)) as [?|G]; [assumption|].
      assert (2 ^ Zdigits2 q <= 2 ^ 52)
        by (apply Z.pow_le_mono_r; lia).
      lia. }
    unfold_format. lia.
Qed.

(** [nearest num den] is the double nearest to [num/den]. *)
Lemma nearest_is_nearest (num den : positive) :
  nearest_double (inject_Z (Zpos num) / inject_Z (Zpos den))
    (Float.nearest num den)
  /\ sign (Float.nearest num den) = false.
Proof.
  unfold Float.nearest.
  pose proof (div_core_located num den) as D.
  destruct (SFdiv_core_binary Float.prec Float.emax (Zpos num) 0
              (Zpos den) 0) as [[m e] l].
  destruct D as (He & L & Hc). split.
  - apply (binary_round_aux_nearest (a := Zpos num * 2 ^ (- e))
             (b := Zpos den)); [exact L | exact Hc|].
    rewrite inject_Z_mult, pow2_Z by lia.
    rewrite <- Qmult_assoc, <- pow2_add.
    replace (- e + e) with 0 by lia. change (2 ^ 0)%Q with 1%Q.
    field. discriminate.
  - unfold binary_round_aux.
    destruct (shr_fexp Float.prec Float.emax m e l) as [mrs1 e1].
    destruct (shr_fexp Float.prec Float.emax _ e1 loc_Exact) as [mrs2 e2].
    destruct (shr_m mrs2); [reflexivity| |reflexivity].
    now destruct (e2 <=? Float.emax - Float.prec).
Qed.

(** *** Two decimals *)

Lemma div_half_even_nearest (a b : Z) :
  0 < b ->
  let k := Float.div_half_even a b in
  - b <= 2 * (a - k * b) <= b
  /\ (2 * (a - k * b) = b \/ 2 * (a - k * b) = - b -> Z.even k = true)
  /\ (0 <= a -> 0 <= k).
Proof.
  intros Hb. cbv zeta. unfold Float.div_half_even.
  pose proof (Z.div_mod a b ltac:(lia)) as E.
  pose proof (Z.mod_pos_bound a b Hb) as R.
  assert (Q0 : 0 <= a -> 0 <= a / b) by (intros; apply Z.div_pos; lia).
  set (q := a / b) in *. set (r := a mod b) in *.
  destruct (Z.compare_spec (2 * r) b) as [C|C|C].
  - destruct (Z.even q) eqn:Ev.
    + split; [lia|]. split; [now intros _ | lia].
    + split; [lia|]. split; [|lia]. intros _.
      now rewrite Z.even_add, Ev.
  - split; [lia|]. split; [intros [T|T]; lia | lia].
  - split; [lia|]. split; [intros [T|T]; lia | lia].
Qed.

Lemma nearest_integer_scaled (v : Q) (a b k : Z) :
  0 < b -> (v * inject_Z b == inject_Z a)%Q ->
  - b <= 2 * (a - k * b) <= b ->
  (2 * (a - k * b) = b \/ 2 * (a - k * b) = - b -> Z.even k = true) ->
  nearest_integer v k.
Proof.
  intros Hb Ev [E1 E2] Tie.
  assert (S1 : 2 * (k * b) <= 2 * a + b) by lia.
  assert (S2 : 2 * a <= 2 * (k * b) + b) by lia.
  pose proof Hb as Hb'. to_Q Hb'. to_Q S1. to_Q S2.
  change (inject_Z 0) with 0%Q in Hb'.
  change (inject_Z 2) with 2%Q in S1, S2.
  split.
  - apply Qabs_case; intros; nra.
  - intros T.
    destruct (Z.eq_dec (2 * (a - k * b)) b) as [Z1|Z1];
      [apply Tie; now left|].
    destruct (Z.eq_dec (2 * (a - k * b)) (- b)) as [Z2|Z2];
      [apply Tie; now right|].
    exfalso.
    assert (S3 : 2 * (k * b) < 2 * a + b) by lia.
    assert (S4 : 2 * a < 2 * (k * b) + b) by lia.
    to_Q S3. to_Q S4. change (inject_Z 2) with 2%Q in S3, S4.
    revert T. apply Qabs_case; intros; nra.
Qed.

Lemma nearest_double_ext (v v' : Q) (y : Float.float) :
  (v == v')%Q -> nearest_double v y -> nearest_double v' y.
Proof.
  intros E. destruct y as [s|s| |s m e]; cbn [nearest_double];
    try tauto.
  - intros (D & B & N). split; [exact D|]. split; [now rewrite <- E|].
    intros z Dz. rewrite <- E. now apply N.
  - intros [S T]. split; [exact S|]. now rewrite <- E.
  - intros (D & B & N). split; [exact D|]. split; [now rewrite <- E|].
    intros z Dz. rewrite <- E. now apply N.
Qed.

Lemma nearest_double_zero : nearest_double 0 (S754_zero false).
Proof.
  split; [now split|]. split; [reflexivity|].
  intros z Dz. cbn [number]. split.
  - setoid_replace (0 - 0)%Q with 0%Q by ring. apply Qabs_nonneg.
  - reflexivity.
Qed.

(** [round2] rounds to two decimals. *)
Lemma round2_rounds (x : Float.float) :
  rounded_to_2_decimals x (Float.round2 x).
Proof.
  destruct x as [s|s| |s m e]; try reflexivity.
  unfold rounded_to_2_decimals, Float.round2.
  set (k := match e with
            | Zneg p => Float.div_half_even (Zpos m * 100) (Z.pow_pos 2 p)
            | _ => Zpos m * 100 * 2 ^ e
            end).
  assert (Ea : (Qabs (number (S754_finite s m e))
                == inject_Z (Zpos m) * 2 ^ e)%Q).
  { cbn [number]. pose proof (pow2_pos e) as Pe.
    assert (M0 : (0 < inject_Z (Zpos m))%Q)
      by (now apply (@Q_of_lt 0 (Zpos m))).
    destruct s; apply Qabs_case; intros; nra. }
  assert (K : nearest_integer
                (100 * Qabs (number (S754_finite s m e))) k /\ 0 <= k).
  { destruct (Z_le_gt_dec 0 e) as [P|P].
    - assert (Ek : k = Zpos m * 100 * 2 ^ e) by (unfold k; now destruct e).
      assert (P2 : 0 <= 2 ^ e) by (apply Z.pow_nonneg; lia).
      split; [|nia].
      apply (@nearest_integer_scaled _ k 1 k); try lia.
      rewrite Ea, Ek, !inject_Z_mult, pow2_Z by lia.
      change (inject_Z 100) with 100%Q. change (inject_Z 1) with 1%Q. ring.
    - destruct e as [|p|p]; try lia. unfold k.
      change (Z.pow_pos 2 p) with (2 ^ Zpos p).
      assert (Pb : 0 < 2 ^ Zpos p) by (apply Z.pow_pos_nonneg; lia).
      destruct (@div_half_even_nearest (Zpos m * 100) (2 ^ Zpos p) Pb)
        as (E & T & N).
      split; [|apply N; lia].
      apply (@nearest_integer_scaled _ (Zpos m * 100) (2 ^ Zpos p));
        try assumption.
      rewrite Ea, inject_Z_mult, pow2_Z by lia.
      change (inject_Z 100) with 100%Q.
      setoid_replace (100 * (inject_Z (Zpos m) * 2 ^ Zneg p) * 2 ^ Zpos p)%Q
        with (inject_Z (Zpos m) * 100 * (2 ^ Zneg p * 2 ^ Zpos p))%Q by ring.
      rewrite <- pow2_add. change (Zneg p + Zpos p) with (- Zpos p + Zpos p).
      replace (- Zpos p + Zpos p) with 0 by lia.
      change (2 ^ 0)%Q with 1%Q. ring. }
  destruct K as [K K0]. exists k. split; [exact K|].
  destruct k as [|q|q]; [| |lia].
  - split; [|reflexivity]. cbn [SFabs].
    apply nearest_double_ext with (v := 0%Q); [reflexivity|].
    apply nearest_double_zero.
  - destruct (nearest_is_nearest q 100) as [N S].
    change (inject_Z (Zpos 100)) with 100%Q in N.
    assert (Abs : SFabs (Float.nearest q 100) = Float.nearest q 100).
    { destruct (Float.nearest q 100); cbn in S |- *; congruence. }
    destruct s.
    + split.
      * replace (SFabs (SFopp (Float.nearest q 100)))
          with (Float.nearest q 100); [exact N|].
        rewrite <- Abs at 1. now destruct (Float.nearest q 100).
      * destruct (Float.nearest q 100); cbn in S |- *;
          try (now rewrite S).
        (* not a number never comes out of [nearest] *)
        now cbn in N.
    + split; [now rewrite Abs | exact S].
Qed.

(** In doubles 12 x 1.1 is 13.200000000000001; [round2] takes it to
    13.2, the double next below. *)
Example round2_moves_to_the_hundredth :
  Float.round2 (S754_finite false 7430939385161319 (-49))
  = S754_finite false 7430939385161318 (-49)
  /\ Float.mul (Float.of_Z 12) Float.f1_1
     = S754_finite false 7430939385161319 (-49).
Proof. split; now vm_compute. Qed.

End Rounding.


(** ** The risk model as the specification words it *)



Section RiskClaims.
Context {U : Unicode}.

Lemma strategic_of_spec (m : Z) (roles urgency money : bool) :
  0 <= m <= Z.of_nat score_bound ->
  strategic_of m roles urgency money
  = Float.add
      (Float.add
         (Float.add (Float.mul (Float.of_Z m) Float.f1_2)
                    (Float.of_Z (Spec.amount 4 roles)))
         (Float.of_Z (Spec.amount 2 urgency)))
      (Float.of_Z (Spec.amount 3 money)).
Proof.
  intros H. unfold strategic_of.
  rewrite (add_zero_mul Float.f1_2); [reflexivity | now vm_compute | exact H].
Qed.

Lemma operational_of_spec (s l : Z) :
  0 <= s <= Z.of_nat score_bound ->
  operational_of s l
  = Float.add (Float.mul (Float.of_Z s) Float.f1_3)
              (Float.mul (Float.of_Z l) Float.f1_1).
Proof.
  intros H. unfold operational_of.
  rewrite (add_zero_mul Float.f1_3); [reflexivity | now vm_compute | exact H].
Qed.

Lemma trust_of_spec (a b c : bool) :
  trust_of a b c
  = Float.of_Z (Spec.amount 2 a + Spec.amount 2 b + Spec.amount 2 c).
Proof. destruct a, b, c; reflexivity. Qed.

Lemma trust_of_threshold (a b c : bool) :
  Float.ge_int (trust_of a b c) 3
  = (3 <=? Spec.amount 2 a + Spec.amount 2 b + Spec.amount 2 c).
Proof. destruct a, b, c; reflexivity. Qed.

Lemma trust_values (a b c : bool) :
  In (Spec.amount 2 a + Spec.amount 2 b + Spec.amount 2 c) [0; 2; 4; 6].
Proof. destruct a, b, c; simpl; auto. Qed.

Lemma spec_score (email : Email) (k : string) :
  0 <= Spec.score (decision_of email) k <= Z.of_nat score_bound.
Proof. apply scores_after_range. Qed.

Lemma spec_trust_closed (email : Email) :
  Float.of_Z (Spec.trust (decision_of email)) = trust_after email
  /\ (3 <=? Spec.trust (decision_of email))
     = Float.ge_int (trust_after email) 3.
Proof.
  unfold trust_after. rewrite trust_of_threshold, trust_of_spec.
  unfold Spec.trust, Spec.score, Spec.flag, Spec.count, free_sender.
  cbn [decision_of intent_scores features].
  rewrite features_urls, features_phones, !Z.geb_leb, !Z.gtb_ltb.
  split; reflexivity.
Qed.

(** The total of the specification is the total that the code computes. *)
Lemma spec_total_closed (email : Email) :
  Spec.total (decision_of email) = total_after email.
Proof.
  unfold Spec.total. rewrite (proj1 (spec_trust_closed email)).
  unfold Spec.strategic, Spec.operational.
  rewrite <- strategic_of_spec, <- operational_of_spec by apply spec_score.
  unfold total_after, Spec.score, Spec.flag.
  cbn [decision_of intent_scores features].
  rewrite features_roles, features_urgency, features_money.
  reflexivity.
Qed.

(** C4. The risk of the decision is the total risk rounded to two
    decimals: [round2] of the total, which is, with the sign of the
    total, the double nearest to [k/100] where [k] is the integer nearest
    to a hundred times the exact total, ties going to the even one both
    times.  The total is strategic + operational + trust penalty, with
    strategic = M_AND_A score x 1.2 + 4 if roles + 2 if urgency + 3 if
    money, operational = SECURITY score x 1.3 + LEGAL score x 1.1 on the
    scores after suppression, and a trust penalty of 2 for each of its
    three conditions, hence one of 0, 2, 4 and 6; nothing is clamped. *)
Theorem risk_is_rounded_total (email : Email) :
  exists d,
    decide_action email = Ok d
    /\ risk d = Float.round2 (Spec.total d)
    /\ Exact.rounded_to_2_decimals (Spec.total d) (risk d)
    /\ Spec.total d
       = Float.add (Float.add (Spec.strategic d) (Spec.operational d))
                   (Float.of_Z (Spec.trust d))
    /\ In (Spec.trust d) [0; 2; 4; 6].
Proof.
  exists (decision_of email).
  split; [apply decide_action_closed|].
  assert (R : risk (decision_of email)
              = Float.round2 (Spec.total (decision_of email)))
    by now rewrite spec_total_closed.
  split; [exact R|].
  split; [rewrite R; apply Rounding.round2_rounds|].
  split; [reflexivity | apply trust_values].
Qed.

(** C3. The action is the first match in the ordered list: BLOCK when the
    SECURITY score is at least 10 and the trust penalty at least 3;
    ESCALATE_HUMAN when the M_AND_A score is at least 5 or the LEGAL score
    at least 8; ESCALATE_HUMAN when roles, urgency and money are all
    mentioned; ESCALATE_HUMAN when the total risk is at least 10;
    AUTO_REPLY otherwise.  The scores are those after suppression. *)
Theorem action_is_first_match (email : Email) :
  exists d,
    decide_action email = Ok d
    /\ action d = Spec.first_match (Spec.rules d) AUTO_REPLY
    /\ Spec.rules d
       = [ ((10 <=? Spec.score d "SECURITY") && (3 <=? Spec.trust d),
            BLOCK);
           ((5 <=? Spec.score d "M_AND_A")
            || (8 <=? Spec.score d "LEGAL"), ESCALATE_HUMAN);
           (Spec.flag d "mentions_roles" && Spec.flag d "mentions_urgency"
            && Spec.flag d "money_mentions", ESCALATE_HUMAN);
           (Float.ge_int (Spec.total d) 10, ESCALATE_HUMAN) ].
Proof.
  exists (decision_of email).
  split; [apply decide_action_closed|]. split; [|reflexivity].
  unfold Spec.rules, Spec.first_match.
  rewrite spec_total_closed, (proj2 (spec_trust_closed email)).
  unfold Spec.score, Spec.flag.
  cbn [decision_of intent_scores features action].
  rewrite features_roles, features_urgency, features_money.
  unfold action_of. rewrite !Z.geb_leb. reflexivity.
Qed.

Lemma risk_total_and_action (email : Email) :
  risk (decision_of email) = Float.round2 (Spec.total (decision_of email))
  /\ action (decision_of email)
     = Spec.first_match (Spec.rules (decision_of email)) AUTO_REPLY.
Proof.
  split.
  - now rewrite spec_total_closed.
  - unfold Spec.rules, Spec.first_match.
    rewrite spec_total_closed, (proj2 (spec_trust_closed email)).
    unfold Spec.score, Spec.flag.
    cbn [decision_of intent_scores features action].
    rewrite features_roles, features_urgency, features_money.
    unfold action_of. rewrite !Z.geb_leb. reflexivity.
Qed.

End RiskClaims.

(** ** The security suppression rule *)

Section SuppressionClaims.
Context {U : Unicode}.

Lemma has_strong_security_spec (email : Email) :
  has_strong_security email = true
  <-> exists t, In t strong_security_terms
        /\ substring t (str_lower (subject email ++ nl ++ body email)).
Proof.
  unfold has_strong_security. rewrite existsb_exists.
  split; intros [t [Ht H]]; exists t; split; try exact Ht;
    now apply contains_spec.
Qed.

Lemma no_strong_security (email : Email) :
  (forall t, In t strong_security_terms ->
     ~ substring t (str_lower (subject email ++ nl ++ body email))) ->
  has_strong_security email = false.
Proof.
  intros H. destruct (has_strong_security email) eqn:E; [|reflexivity].
  apply has_strong_security_spec in E as [t [Ht Hs]].
  now elim (H t Ht).
Qed.

Lemma score_intents_inv (email : Email) (scores : dict Z)
    (evidence : dict (list str)) :
  score_intents (subject email) (body email) = Ok (scores, evidence) ->
  scores = values_of (score_of (str_lower (text_of email))) INTENT_RULES
  /\ evidence
     = values_of (evidence_of (str_lower (text_of email))) INTENT_RULES.
Proof.
  rewrite score_intents_closed. unfold lowered. fold (text_of email).
  intros [= <- <-]. split; reflexivity.
Qed.

(** C1. When the scorer gives SUPPORT at least 1 and SECURITY more than 0:
    if no strong security term (breach, hack, phishing, wire transfer,
    bank details, datos bancarios, transferencia) occurs in the lower-cased
    text of subject, line break and body, the SECURITY entry of the
    returned [intent_scores] is 0; if one occurs, the entry is the score
    that the scorer produced. *)
Theorem security_suppression (email : Email) (scores : dict Z)
    (evidence : dict (list str)) :
  score_intents (subject email) (body email) = Ok (scores, evidence) ->
  1 <= get scores "SUPPORT" 0 ->
  0 < get scores "SECURITY" 0 ->
  let text := str_lower (subject email ++ nl ++ body email) in
  exists d,
    decide_action email = Ok d
    /\ ((forall t, In t strong_security_terms -> ~ substring t text) ->
        lookup (intent_scores d) "SECURITY" = Some 0)
    /\ ((exists t, In t strong_security_terms /\ substring t text) ->
        lookup (intent_scores d) "SECURITY" = lookup scores "SECURITY"
        /\ get (intent_scores d) "SECURITY" 0 = get scores "SECURITY" 0).
Proof.
  intros Hs Hsup Hsec text.
  apply score_intents_inv in Hs as [Es Ee].
  exists (decision_of email). split; [apply decide_action_closed|].
  cbn [decision_of intent_scores]. unfold scores_after.
  rewrite <- Es. unfold suppress.
  apply Z.geb_le in Hsup. apply Z.gtb_lt in Hsec.
  rewrite Hsup, Hsec. cbn [andb]. split.
  - intros H. rewrite (no_strong_security email H). cbn [negb].
    apply lookup_setitem_same.
  - intros H. apply has_strong_security_spec in H. rewrite H.
    split; reflexivity.
Qed.

(** C6. When the suppression rule fires, the decision carries the evidence
    of the scorer unchanged, and its SECURITY evidence still lists the
    matched security terms (it is not empty); the features are those of
    the extractor; the scores are those of the scorer with the SECURITY
    entry alone set to 0, under the same keys.  Risk and action are
    computed afterwards, from these scores and features. *)
Theorem suppression_keeps_evidence (email : Email) (scores : dict Z)
    (evidence : dict (list str)) :
  score_intents (subject email) (body email) = Ok (scores, evidence) ->
  1 <= get scores "SUPPORT" 0 ->
  0 < get scores "SECURITY" 0 ->
  let text := str_lower (subject email ++ nl ++ body email) in
  (forall t, In t strong_security_terms -> ~ substring t text) ->
  exists d,
    decide_action email = Ok d
    /\ intent_scores d = setitem scores "SECURITY" 0
    /\ lookup (intent_scores d) "SECURITY" = Some 0
    /\ (forall k, k <> "SECURITY"%string ->
        lookup (intent_scores d) k = lookup scores k)
    /\ keys (intent_scores d) = keys scores
    /\ intent_evidence d = evidence
    /\ (exists ev,
        lookup (intent_evidence d) "SECURITY" = Some ev
        /\ ev <> []
        /\ forall t, In t ev
           <-> In t SECURITY_TERMS /\ substring (str_lower t) text)
    /\ features d = extract_features email
    /\ risk d = Float.round2 (Spec.total d)
    /\ action d = Spec.first_match (Spec.rules d) AUTO_REPLY.
Proof.
  intros Hs Hsup Hsec text Hstrong.
  pose proof (score_intents_inv _ Hs) as [Es Ee].
  destruct (risk_total_and_action email) as [Hrisk Hact].
  exists (decision_of email). split; [apply decide_action_closed|].
  assert (Hfire : scores_after email = setitem scores "SECURITY" 0).
  { unfold scores_after. rewrite <- Es. unfold suppress.
    apply Z.geb_le in Hsup. apply Z.gtb_lt in Hsec.
    now rewrite Hsup, Hsec, (no_strong_security email Hstrong). }
  rewrite decision_of_scores, decision_of_evidence, decision_of_features,
    Hfire, <- Ee.
  split; [reflexivity|].
  split; [apply lookup_setitem_same|].
  split; [intros k Nk; now apply lookup_setitem_other|].
  split.
  { apply keys_setitem_present. rewrite Es. unfold values_of.
    rewrite keys_map_values, INTENT_RULES_keys. simpl. tauto. }
  split; [reflexivity|].
  split; [|split; [reflexivity | split; assumption]].
  destruct security_rule as (rule & Hk & Hterms & _).
  exists (evidence_of text rule). split; [|split].
  - rewrite Ee. unfold values_of. rewrite lookup_map_values, Hk.
    reflexivity.
  - apply positive_score_has_evidence.
    unfold get in Hsec. rewrite Es in Hsec. unfold values_of in Hsec.
    rewrite lookup_map_values, Hk in Hsec. exact Hsec.
  - intros t. rewrite <- Hterms. apply evidence_of_In.
Qed.

End SuppressionClaims.

(** ** Concrete emails *)

(** The hypothesis of the rule, from a run of the check on the ASCII
    tables. *)
Lemma no_strong_term_by_computation (email : Email) :
  has_strong_security (U:=ascii_tables) email = false ->
  forall t, In t strong_security_terms ->
    ~ substring t
        (str_lower (Unicode:=ascii_tables)
           (subject email ++ nl ++ body email)).
Proof.
  intros H t Ht Hs.
  assert (E : has_strong_security (U:=ascii_tables) email = true).
  { apply has_strong_security_spec. now exists t. }
  congruence.
Defined.

(** The rule on two emails: the support ticket loses its SECURITY score,
    the ticket that names a wire transfer keeps its 15. *)
Lemma security_suppression_witness :
  (exists d, decide_action (U:=ascii_tables) support_mail = Ok d
     /\ lookup (intent_scores d) "SECURITY" = Some 0)
  /\ (exists d, decide_action (U:=ascii_tables) wire_mail = Ok d
     /\ lookup (intent_scores d) "SECURITY" = Some 15).
Proof.
  split.
  - edestruct (security_suppression (U:=ascii_tables) support_mail)
      as (d & Hd & Hzero & _).
    + vm_compute. reflexivity.
    + vm_compute. discriminate.
    + vm_compute. reflexivity.
    + exists d. split; [exact Hd|]. apply Hzero.
      apply no_strong_term_by_computation. vm_compute. reflexivity.
  - edestruct (security_suppression (U:=ascii_tables) wire_mail)
      as (d & Hd & _ & Hkeep).
    + vm_compute. reflexivity.
    + vm_compute. discriminate.
    + vm_compute. reflexivity.
    + exists d. split; [exact Hd|].
      destruct Hkeep as [Hkeep _]; [|exact Hkeep].
      exists (u "wire transfer"). split; [vm_compute; tauto|].
      apply contains_spec. vm_compute. reflexivity.
Defined.

(** On the support ticket the SECURITY score is 0 while the evidence still
    lists password and reset. *)
Lemma suppression_keeps_evidence_witness :
  exists d, decide_action (U:=ascii_tables) support_mail = Ok d
    /\ lookup (intent_scores d) "SECURITY" = Some 0
    /\ lookup (intent_evidence d) "SECURITY"
       = Some [u "password"; u "reset"]
    /\ features d = extract_features (U:=ascii_tables) support_mail.
Proof.
  edestruct (suppression_keeps_evidence (U:=ascii_tables) support_mail)
    as (d & Hd & _ & Hzero & _ & _ & Hev & _ & Hf & _).
  - vm_compute. reflexivity.
  - vm_compute. discriminate.
  - vm_compute. reflexivity.
  - apply no_strong_term_by_computation. vm_compute. reflexivity.
  - exists d. repeat split; [exact Hd | exact Hzero | | exact Hf].
    rewrite Hev. vm_compute. reflexivity.
Defined.

(** ** Senders without an address *)

Section SenderClaims.
Context {U : Unicode}.

Lemma letters_match (c : N) :
  Re.atom_match false (Re.In Patterns.letters) c = true <-> letter c.
Proof.
  unfold letter. cbn.
  rewrite !orb_true_iff, !andb_true_iff, !N.leb_le.
  intuition discriminate.
Qed.

Lemma host_chars_match (c : N) :
  Re.atom_match false (Re.In Patterns.host_chars) c = true <-> host_char c.
Proof.
  unfold host_char, letter. cbn.
  rewrite !orb_true_iff, !andb_true_iff, !N.leb_le, !N.eqb_eq.
  intuition (try discriminate; auto).
Qed.

Lemma Forall_iff (A : Type) (P Q : A -> Prop) (l : list A) :
  (forall x, P x <-> Q x) -> Forall P l <-> Forall Q l.
Proof.
  intros H. split; apply Forall_impl; intros x; apply H.
Qed.

Lemma email_domain_denote (prev : option N) (w rest : str) :
  Lang.denote false Patterns.email_domain prev w rest <-> address_like w.
Proof.
  unfold address_like, Patterns.email_domain, Re.seq, Re.plus, Re.at_least.
  cbn [Lang.denote fold_right Lang.within].
  split.
  - intros (w1 & w2 & -> & (c & -> & Hc) & h & r1 & -> & (Hh & Lh & _)
            & d & r2 & -> & (c' & -> & Hd) & t & e & -> & (Ht & Lt & _) & ->).
    cbn in Hc, Hd. apply N.eqb_eq in Hc, Hd. subst c c'.
    exists h, t. rewrite app_nil_r. repeat split; auto.
    + intros ->. simpl in Lh. lia.
    + eapply Forall_iff; [|exact Hh]. intros x. symmetry.
      apply host_chars_match.
    + eapply Forall_iff; [|exact Ht]. intros x. symmetry.
      apply letters_match.
  - intros (h & t & -> & Nh & Hh & Ht & Lt).
    exists [Re.ch "@"], (h ++ Re.ch "." :: t). split; [reflexivity|].
    split. { exists (Re.ch "@"). split; [reflexivity|]. cbn. apply N.eqb_refl. }
    exists h, (Re.ch "." :: t). split; [reflexivity|]. split.
    { split; [|split; [|exact I]].
      - eapply Forall_iff; [|exact Hh]. apply host_chars_match.
      - destruct h; [contradiction | simpl; lia]. }
    exists [Re.ch "."], t. split; [reflexivity|]. split.
    { exists (Re.ch "."). split; [reflexivity|]. cbn. apply N.eqb_refl. }
    exists t, []. split; [now rewrite app_nil_r|]. split; [|reflexivity].
    split; [|split; [exact Lt | exact I]].
    eapply Forall_iff; [|exact Ht]. apply letters_match.
Qed.

Lemma extract_email_domain_none (s : str) :
  extract_email_domain s = None
  <-> forall w, address_like w -> ~ substring w s.
Proof.
  unfold extract_email_domain, Re.search. split.
  - intros H w Hw (pre & post & E).
    destruct (Re.search_from false Patterns.email_domain None s) eqn:S;
      [discriminate|].
    apply (@Matcher.search_from_complete _ false Patterns.email_domain
             pre w post None); [|now rewrite <- E].
    now apply email_domain_denote.
  - intros H.
    destruct (Re.search_from false Patterns.email_domain None s) eqn:S;
      [|reflexivity].
    apply Matcher.search_from_sound in S as (pre & w & rest & E & D).
    apply email_domain_denote in D. elim (H w D). now exists pre, rest.
Qed.

(** C7. When the sender holds no "@" followed by a dot-separated host
    whose last label has at least two letters, [extract_email_domain]
    returns its no-match result, and [extract_features] gives an empty
    [sender_domain] and a true [sender_is_free_domain]. *)
Theorem sender_without_address (email : Email) :
  (forall w, address_like w -> ~ substring w (sender email)) ->
  extract_email_domain (sender email) = None
  /\ lookup (extract_features email) "sender_domain" = Some (VStr [])
  /\ lookup (extract_features email) "sender_is_free_domain"
     = Some (VBool true).
Proof.
  intros H. apply extract_email_domain_none in H.
  unfold extract_features. rewrite H. repeat split.
Qed.

Lemma no_at_no_address (s : str) :
  ~ In (Re.ch "@") s -> forall w, address_like w -> ~ substring w s.
Proof.
  intros H w (h & t & -> & _) (pre & post & ->). apply H.
  apply in_or_app. right. now left.
Qed.

End SenderClaims.

(** A sender that is a bare name. *)
Lemma sender_without_address_witness :
  extract_email_domain (U:=ascii_tables) (u "John Doe") = None
  /\ lookup (extract_features (U:=ascii_tables) (mail "John Doe" "hi" "there"))
       "sender_domain" = Some (VStr [])
  /\ lookup (extract_features (U:=ascii_tables) (mail "John Doe" "hi" "there"))
       "sender_is_free_domain" = Some (VBool true).
Proof.
  apply (sender_without_address (U:=ascii_tables)
           (mail "John Doe" "hi" "there")).
  apply no_at_no_address. vm_compute. intuition discriminate.
Defined.

(** ** Totality and defaults *)

Section TotalityClaims.
Context {U : Unicode}.

Lemma count_any_filter (text : str) (terms : list str) :
  count_any text terms
  = Z.of_nat (length (filter (fun t => contains (str_lower text) t) terms)).
Proof.
  unfold count_any.
  set (l := filter _ terms). clearbody l.
  assert (G : forall acc, fold_left Z.add (map (fun _ : str => 1) l) acc
                          = acc + Z.of_nat (length l)).
  { induction l as [|x l IH]; intros acc; simpl length; cbn [map fold_left].
    - lia.
    - rewrite IH. lia. }
  now rewrite G.
Qed.

Lemma contains_any_false (text : str) (terms : list str) :
  (forall t, In t terms -> ~ substring t (str_lower text)) ->
  contains_any text terms = false /\ count_any text terms = 0.
Proof.
  intros H.
  assert (E : filter (fun t => contains (str_lower text) t) terms = []).
  { induction terms as [|t ts IH]; [reflexivity|]. simpl.
    destruct (contains (str_lower text) t) eqn:C.
    - apply contains_spec in C. elim (H t); [now left | exact C].
    - apply IH. intros t' Ht'. apply H. now right. }
  split.
  - unfold contains_any. destruct (existsb _ terms) eqn:X; [|reflexivity].
    apply existsb_exists in X as (t & Ht & C).
    assert (In t (filter (fun t => contains (str_lower text) t) terms))
      by now apply filter_In.
    rewrite E in *. contradiction.
  - now rewrite count_any_filter, E.
Qed.

Lemma findall_from_none (icase : bool) (r : Re.regex) (s : str) :
  forall skip prev,
  (forall pre w rest, s = pre ++ w ++ rest ->
     ~ Lang.denote icase r (Lang.last_char prev pre) w rest) ->
  Re.findall_from icase r skip prev s = [].
Proof.
  induction s as [|c s IH]; intros skip prev H.
  - destruct skip; [|reflexivity]. cbn [Re.findall_from].
    destruct (Re.match_at icase r prev []) as [[s' g]|] eqn:M;
      [|reflexivity].
    apply Matcher.run_sound in M as (w & rest & g' & E & D & _).
    elim (H [] w rest E D).
  - assert (Next : forall n, Re.findall_from icase r n (Some c) s = []).
    { intros n. apply IH. intros pre w rest E.
      apply (H (c :: pre) w rest). now rewrite E. }
    destruct skip; cbn [Re.findall_from]; [|apply Next].
    destruct (Re.match_at icase r prev (c :: s)) as [[s' g]|] eqn:M;
      [|apply Next].
    apply Matcher.run_sound in M as (w & rest & g' & E & D & _).
    elim (H [] w rest E D).
Qed.

Lemma findall_none (icase : bool) (r : Re.regex) (s : str) :
  no_match icase r s -> Re.findall icase r s = [].
Proof. intros H. now apply findall_from_none. Qed.

Lemma find_money_none (text : str) :
  (forall r, In r Patterns.money -> no_match true r text) ->
  find_money text = [].
Proof.
  intros H. unfold find_money.
  assert (E : flat_map (fun p => Re.findall true p text) Patterns.money
              = []).
  { induction Patterns.money as [|r rs IH]; [reflexivity|].
    cbn [flat_map]. rewrite findall_none by (apply H; now left).
    apply IH. intros r' Hr'. apply H. now right. }
  now rewrite E.
Qed.

Lemma extract_features_kinds (email : Email) :
  feature_kinds (extract_features email).
Proof.
  unfold feature_kinds, extract_features. do 10 eexists.
  split; [reflexivity|].
  rewrite !count_any_filter.
  repeat split; try apply Nat2Z.is_nonneg; apply set_of_NoDup.
Qed.

Lemma decision_scores_nonneg (email : Email) (k : string) :
  0 <= get (intent_scores (decision_of email)) k 0.
Proof. rewrite decision_of_scores. apply scores_after_range. Qed.

Lemma decision_well_formed (email : Email) :
  well_formed (decision_of email).
Proof.
  unfold well_formed.
  rewrite decision_of_evidence, decision_of_features.
  split; [|split; [|split]].
  - rewrite decision_of_scores. unfold scores_after.
    rewrite suppress_keys; unfold values_of; rewrite keys_map_values;
      [reflexivity|]. rewrite INTENT_RULES_keys. simpl. tauto.
  - unfold values_of. now rewrite keys_map_values.
  - intros k _. apply decision_scores_nonneg.
  - apply extract_features_kinds.
Qed.

Lemma unmatched_category (email : Email) (k : string) (rule : TermRule) :
  lookup INTENT_RULES k = Some rule ->
  (forall t, ~ matched (str_lower (text_of email)) rule t) ->
  lookup (intent_scores (decision_of email)) k = Some 0
  /\ lookup (intent_evidence (decision_of email)) k = Some [].
Proof.
  intros Hk H.
  assert (E : hits_of (str_lower (text_of email)) rule = []).
  { destruct (hits_of _ rule) as [|t ts] eqn:E; [reflexivity|].
    elim (H t). apply hits_of_In. rewrite E. now left. }
  rewrite decision_of_scores, decision_of_evidence. split.
  - assert (S0 : lookup (values_of (score_of (str_lower (text_of email)))
                           INTENT_RULES) k = Some 0).
    { unfold values_of. rewrite lookup_map_values, Hk. cbn [option_map].
      unfold score_of. rewrite E. cbn [set_of nodup length Z.of_nat].
      now rewrite Z.mul_0_r. }
    unfold scores_after, suppress. destruct (_ && _ && _); [|exact S0].
    destruct (string_dec k "SECURITY") as [->|N].
    + apply lookup_setitem_same.
    + now rewrite lookup_setitem_other.
  - unfold values_of. rewrite lookup_map_values, Hk. cbn [option_map].
    unfold evidence_of. now rewrite E.
Qed.

(** C8. For every email, whatever its three strings, [decide_action]
    returns a decision and raises nothing; the decision is well formed;
    and where nothing matches the defaults come out: a category without a
    matched term has score 0 and empty evidence, absent role or urgency
    terms give a false flag and a count of 0, a text that no money, url or
    phone pattern matches gives empty lists, and a sender without an
    address gives the empty domain. *)
Theorem decide_action_total (email : Email) :
  exists d,
    decide_action email = Ok d
    /\ well_formed d
    /\ (forall k rule, lookup INTENT_RULES k = Some rule ->
        (forall t, ~ matched (str_lower (text_of email)) rule t) ->
        lookup (intent_scores d) k = Some 0
        /\ lookup (intent_evidence d) k = Some [])
    /\ ((forall t, In t ROLE_TERMS ->
           ~ substring t (str_lower (text_of email))) ->
        lookup (features d) "mentions_roles" = Some (VBool false)
        /\ lookup (features d) "role_hits" = Some (VInt 0))
    /\ ((forall t, In t URGENCY_TERMS ->
           ~ substring t (str_lower (text_of email))) ->
        lookup (features d) "mentions_urgency" = Some (VBool false)
        /\ lookup (features d) "urgency_hits" = Some (VInt 0))
    /\ ((forall r, In r Patterns.money -> no_match true r (text_of email)) ->
        lookup (features d) "money_mentions" = Some (VList []))
    /\ (no_match true Patterns.url (text_of email) ->
        lookup (features d) "urls" = Some (VList []))
    /\ (no_match false Patterns.phone (text_of email) ->
        lookup (features d) "phones" = Some (VList []))
    /\ ((forall w, address_like w -> ~ substring w (sender email)) ->
        lookup (features d) "sender_domain" = Some (VStr [])
        /\ lookup (features d) "sender_is_free_domain"
           = Some (VBool true)).
Proof.
  exists (decision_of email).
  split; [apply decide_action_closed|].
  split; [apply decision_well_formed|].
  split; [apply unmatched_category|].
  rewrite decision_of_features.
  rewrite features_roles, features_role_hits, features_urgency,
    features_urgency_hits, features_money, features_urls, features_phones.
  split.
  { intros H. apply contains_any_false in H as [-> ->]. now split. }
  split.
  { intros H. apply contains_any_false in H as [-> ->]. now split. }
  split; [intros H; now rewrite find_money_none|].
  split; [intros H; unfold find_urls; now rewrite findall_none|].
  split; [intros H; unfold find_phones; now rewrite findall_none|].
  intros H. apply extract_email_domain_none in H.
  unfold extract_features. rewrite H. now split.
Qed.

End TotalityClaims.

(** ** Counting terms *)

(** C2. [count_any] counts the entries of the term list that occur in the
    lower-cased text, so an entry listed twice counts twice: on the text
    "director" the role terms give 3 (cto, director and director again)
    although only 2 distinct terms occur, and [role_hits] carries that 3. *)
Theorem count_any_counts_repeated_entries :
  count_any (U:=ascii_tables) (u "director") ROLE_TERMS = 3
  /\ filter (fun t => contains (u "director") t) ROLE_TERMS
     = [u "cto"; u "director"; u "director"]
  /\ length (set_of (filter (fun t => contains (u "director") t) ROLE_TERMS))
     = 2%nat
  /\ lookup (extract_features (U:=ascii_tables)
               (mail "a@b.co" "director" "")) "role_hits"
     = Some (VInt 3).
Proof. repeat split; vm_compute; reflexivity. Qed.

(** ** Further properties of the extractors *)

Section ExtractorFacts.
Context {U : Unicode}.

(** [extract_email_domain] finds a domain exactly when the sender holds an
    address-like part. *)
Theorem domain_found_iff_address (s : str) :
  extract_email_domain s <> None
  <-> exists w, address_like w /\ substring w s.
Proof.
  unfold extract_email_domain, Re.search. split.
  - destruct (Re.search_from false Patterns.email_domain None s) eqn:S;
      [intros _ | intros H; now elim H].
    apply Matcher.search_from_sound in S as (pre & w & rest & E & D).
    exists w. split; [now apply email_domain_denote in D|].
    now exists pre, rest.
  - intros (w & Hw & pre & post & E).
    assert (S : Re.search_from false Patterns.email_domain None s <> None).
    { rewrite E. apply Matcher.search_from_complete.
      now apply email_domain_denote. }
    destruct (Re.search_from false Patterns.email_domain None s);
      [discriminate | now elim S].
Qed.

(** [count_any] is the number of entries of the list that occur in the
    lower-cased text; on a list without repetition that is the number of
    distinct terms that occur. *)
Theorem count_any_is_number_of_entries (text : str) (terms : list str) :
  let found := filter (fun t => contains (str_lower text) t) terms in
  count_any text terms = Z.of_nat (length found)
  /\ (forall t, In t found <-> In t terms /\ substring t (str_lower text))
  /\ (NoDup terms -> count_any text terms = Z.of_nat (length (set_of found))).
Proof.
  intros found. split; [apply count_any_filter|]. split.
  - intros t. unfold found. now rewrite filter_In, contains_spec.
  - intros ND. rewrite count_any_filter. fold found. f_equal.
    unfold set_of. rewrite nodup_fixed_point; [reflexivity|].
    now apply NoDup_filter.
Qed.

(** The money, url and phone lists of the features hold no string twice. *)
Theorem extracted_lists_have_no_duplicates (text : str) :
  NoDup (find_money text) /\ NoDup (find_urls text)
  /\ NoDup (find_phones text).
Proof. repeat split; apply set_of_NoDup. Qed.

End ExtractorFacts.

(** ** The scenarios of the specification, on the ASCII tables *)

(** Small talk from a free domain: every score is 0, the risk is the trust
    penalty 2.0 alone, the action is AUTO_REPLY. *)
Theorem small_talk_is_auto_reply :
  exists d,
    decide_action (U:=ascii_tables) small_talk_mail = Ok d
    /\ action d = AUTO_REPLY
    /\ risk d = Float.of_Z 2
    /\ intent_scores d
       = [ ("M_AND_A", 0); ("LEGAL", 0); ("SECURITY", 0); ("SALES", 0);
           ("SUPPORT", 0) ]%string
    /\ lookup (features d) "sender_is_free_domain" = Some (VBool true).
Proof. eexists. split; [vm_compute; reflexivity|]. now vm_compute. Qed.

(** The acquisition offer: M_AND_A scores 10 and the action is
    ESCALATE_HUMAN; urgency and money are mentioned, but no role term
    occurs in subject or body (the sender is not searched), so
    [mentions_roles] is false. *)
Theorem acquisition_is_escalated :
  exists d,
    decide_action (U:=ascii_tables) acquisition_mail = Ok d
    /\ action d = ESCALATE_HUMAN
    /\ lookup (intent_scores d) "M_AND_A" = Some 10
    /\ lookup (features d) "mentions_roles" = Some (VBool false)
    /\ lookup (features d) "mentions_urgency" = Some (VBool true)
    /\ lookup (features d) "money_mentions"
       = Some (VList [u "$50"; u "million"])
    /\ risk d = Float.of_Z 17.
Proof. eexists. split; [vm_compute; reflexivity|]. now vm_compute. Qed.

(** Two security terms from a free domain with two links: SECURITY scores
    10, the trust penalty is 4 and the action is BLOCK. *)
Theorem phishing_is_blocked :
  exists d,
    decide_action (U:=ascii_tables) phishing_mail = Ok d
    /\ action d = BLOCK
    /\ lookup (intent_scores d) "SECURITY" = Some 10
    /\ Spec.trust d = 4
    /\ risk d = Float.of_Z 19.
Proof. eexists. split; [vm_compute; reflexivity|]. now vm_compute. Qed.

(** * Further properties *)

(** ** Matches and what they report *)

Module Found.
Import Re.

Section Found.
Context {U : Unicode}.
Variable icase : bool.

Local Abbreviation denote := (Lang.denote icase).
Local Abbreviation capture := (Capture.capture icase).

Lemma taken_app (w rest : str) : taken (w ++ rest) rest = w.
Proof.
  unfold taken. rewrite length_app, Nat.add_sub.
  now rewrite firstn_app, Nat.sub_diag, firstn_all, app_nil_r.
Qed.

Lemma capture_denote (r : regex) :
  forall prev w rest g g', capture r prev w rest g g' -> denote r prev w rest.
Proof.
  induction r as [|a|lo hi a|r1 IH1 r2 IH2|r1 IH1 r2 IH2|r1 IH1|];
    intros prev w rest g g' C; cbn [Capture.capture] in C;
    try (now destruct C).
  - destruct C as (w1 & w2 & g1 & -> & C1 & C2).
    exists w1, w2. split; [reflexivity|]. split; eauto.
  - destruct C as [C|C]; [left | right]; eauto.
Qed.

Lemma run_capture (r : regex) :
  forall prev s g k res,
  run icase r prev s g k = Some res ->
  exists w rest g', s = w ++ rest /\ capture r prev w rest g g'
    /\ k (Lang.last_char prev w) rest g' = Some res.
Proof.
  induction r as [|a|lo hi a|r1 IH1 r2 IH2|r1 IH1 r2 IH2|r1 IH1|];
    intros prev s g k res H.
  - exists [], s, g. cbn in *. now repeat split.
  - cbn [run] in H. destruct s as [|c s]; [discriminate|].
    destruct (atom_match icase a c) eqn:E; [|discriminate].
    exists [c], s, g. repeat split; [|exact H]. now exists c.
  - cbn [run] in H.
    apply Matcher.rep_sound in H as (w & rest & -> & Hall & Hlo & Hhi & Hk).
    exists w, rest, g. now repeat split.
  - cbn [run] in H.
    apply IH1 in H as (w1 & rest1 & g1 & -> & C1 & H).
    apply IH2 in H as (w2 & rest & g2 & -> & C2 & H).
    exists (w1 ++ w2), rest, g2.
    rewrite app_assoc, Matcher.last_char_app.
    repeat split; [|exact H]. now exists w1, w2, g1.
  - cbn [run] in H. destruct (run icase r1 prev s g k) as [x|] eqn:E.
    + injection H as ->.
      apply IH1 in E as (w & rest & g' & -> & C & H).
      exists w, rest, g'. repeat split; [now left | exact H].
    + apply IH2 in H as (w & rest & g' & -> & C & H).
      exists w, rest, g'. repeat split; [now right | exact H].
  - cbn [run] in H.
    apply Matcher.run_sound in H as (w & rest & g' & -> & D & H).
    rewrite taken_app in H.
    exists w, rest, (Some w). now repeat split.
  - cbn [run] in H. destruct (at_boundary prev s) eqn:E; [|discriminate].
    exists [], s, g. now repeat split.
Qed.

Lemma match_at_sound (r : regex) (prev : option N) (s s' : str)
    (g : option str) :
  match_at icase r prev s = Some (s', g) ->
  exists w, s = w ++ s' /\ taken s s' = w /\ capture r prev w s' None g.
Proof.
  intros H. apply run_capture in H as (w & rest & g' & -> & C & [= <- <-]).
  exists w. now rewrite taken_app.
Qed.

Lemma match_at_complete (r : regex) (prev : option N) (w rest : str) :
  denote r prev w rest -> match_at icase r prev (w ++ rest) <> None.
Proof. intros D. apply Matcher.run_complete; [exact D | discriminate]. Qed.

(** Every string that [findall] lists is reported by a match that
    starts somewhere in the text. *)
Lemma findall_from_match (r : regex) (s : str) :
  forall skip prev x,
  List.In x (findall_from icase r skip prev s) ->
  exists pre s1 s' g, s = pre ++ s1
    /\ match_at icase r (Lang.last_char prev pre) s1 = Some (s', g)
    /\ x = reported r (taken s1 s') g.
Proof.
  induction s as [|c s IH]; intros skip prev x H.
  - destruct skip; [|destruct H]. cbn [findall_from] in H.
    destruct (match_at icase r prev []) as [[s' g]|] eqn:M; [|destruct H].
    destruct H as [<-|[]]. now exists [], [], s', g.
  - assert (Next : forall n, List.In x (findall_from icase r n (Some c) s) ->
      exists pre s1 s' g, c :: s = pre ++ s1
        /\ match_at icase r (Lang.last_char prev pre) s1 = Some (s', g)
        /\ x = reported r (taken s1 s') g).
    { intros n Hn. apply IH in Hn as (pre & s1 & s' & g & -> & M & ->).
      now exists (c :: pre), s1, s', g. }
    destruct skip; cbn [findall_from] in H; [|now apply Next in H].
    destruct (match_at icase r prev (c :: s)) as [[s' g]|] eqn:M;
      [|now apply Next in H].
    destruct H as [<-|H]; [|now apply Next in H].
    now exists [], (c :: s), s', g.
Qed.

Lemma findall_from_In (r : regex) (s : str) :
  forall skip prev x,
  List.In x (findall_from icase r skip prev s) ->
  exists pre w rest g, s = pre ++ w ++ rest
    /\ capture r (Lang.last_char prev pre) w rest None g
    /\ x = reported r w g.
Proof.
  intros skip prev x H.
  apply findall_from_match in H as (pre & s1 & s' & g & -> & M & ->).
  apply match_at_sound in M as (w & -> & T & C).
  exists pre, w, s', g. rewrite T. now repeat split.
Qed.

(** [findall] lists something as soon as some part of the text matches. *)
Lemma findall_from_some (r : regex) (pre w rest : str) :
  forall skip prev,
  (skip <= length pre)%nat ->
  denote r (Lang.last_char prev pre) w rest ->
  findall_from icase r skip prev (pre ++ w ++ rest) <> [].
Proof.
  induction pre as [|c pre IH]; intros skip prev Hs D.
  - assert (skip = O) by (simpl in Hs; lia). subst skip.
    apply match_at_complete in D.
    cbn [app Lang.last_char fold_left] in *.
    destruct (w ++ rest) as [|c s]; cbn [findall_from];
      destruct (match_at icase r prev _) as [[s' g]|];
      try discriminate; now elim D.
  - cbn [app]. destruct skip; cbn [findall_from].
    + destruct (match_at icase r prev _) as [[s' g]|]; [discriminate|].
      apply IH; [lia | exact D].
    + apply IH; [simpl in Hs; lia | exact D].
Qed.

Lemma findall_nil_iff (r : regex) (s : str) :
  findall icase r s = [] <-> no_match icase r s.
Proof.
  split; [|apply findall_none].
  intros H pre w rest -> D.
  apply (@findall_from_some r pre w rest 0 None); [lia | exact D | exact H].
Qed.

Lemma findall_In (r : regex) (s x : str) :
  List.In x (findall icase r s) ->
  exists pre w rest g, s = pre ++ w ++ rest
    /\ capture r (Lang.last_char None pre) w rest None g
    /\ x = reported r w g.
Proof. apply findall_from_In. Qed.

(** [search] returns the leftmost match: nothing matches at an earlier
    position. *)
Lemma search_from_match (r : regex) (s : str) :
  forall prev m, search_from icase r prev s = Some m ->
  exists pre s1 s', s = pre ++ s1
    /\ match_at icase r (Lang.last_char prev pre) s1 = Some (s', group1 m)
    /\ whole m = taken s1 s'
    /\ forall pre1 w1 rest1, s = pre1 ++ w1 ++ rest1 ->
         denote r (Lang.last_char prev pre1) w1 rest1 ->
         (length pre <= length pre1)%nat.
Proof.
  induction s as [|c s IH]; intros prev m H; cbn [search_from] in H.
  - destruct (match_at icase r prev []) as [[s' g]|] eqn:M; [|discriminate].
    injection H as <-. exists [], [], s'.
    repeat split; [exact M | simpl; lia].
  - destruct (match_at icase r prev (c :: s)) as [[s' g]|] eqn:M.
    + injection H as <-. exists [], (c :: s), s'.
      repeat split; [exact M | simpl; lia].
    + apply IH in H as (pre & s1 & s' & -> & M' & W & First).
      exists (c :: pre), s1, s'. repeat split; [exact M' | exact W|].
      intros [|c1 pre1] w1 rest1 E D.
      * exfalso. cbn [app] in E. rewrite E in M.
        cbn [Lang.last_char fold_left] in D.
        apply match_at_complete in D. contradiction.
      * injection E as <- E. simpl. apply le_n_S.
        now apply (First pre1 w1 rest1).
Qed.

(** A greedy repetition without upper bound, followed by something that
    cannot fail, takes every character it can. *)
Lemma rep_greedy (a : atom) (k : option N -> str -> option R) (s : str) :
  (forall p t, k p t <> None) ->
  forall lo prev res,
  rep icase a lo None prev s k = Some res ->
  exists w rest, s = w ++ rest
    /\ Forall (fun c => atom_match icase a c = true) w
    /\ (lo <= length w)%nat
    /\ Capture.stops icase a rest
    /\ k (Lang.last_char prev w) rest = Some res.
Proof.
  intros Total. induction s as [|c s IH]; intros lo prev res H.
  - simpl in H. destruct lo; [|discriminate].
    exists [], []. now repeat split.
  - cbn [rep more less option_map andb] in H.
    destruct (atom_match icase a c) eqn:E.
    + destruct (rep icase a (pred lo) None (Some c) s k) as [x|] eqn:Er.
      * injection H as ->.
        apply IH in Er as (w & rest & -> & Hall & Hlo & Hst & Hk).
        exists (c :: w), rest. repeat split; auto.
        simpl. lia.
      * exfalso. destruct lo; [|discriminate].
        apply (@Matcher.rep_complete _ icase a k [] s 0 None (Some c));
          auto; simpl; auto.
    + destruct lo; [|discriminate].
      exists [], (c :: s). repeat split; auto.
Qed.

Lemma run_greedy (a : atom) (r : regex) :
  Capture.ends_with a r ->
  forall prev s g k res,
  (forall p t h, k p t h <> None) ->
  run icase r prev s g k = Some res ->
  exists w rest g', s = w ++ rest /\ capture r prev w rest g g'
    /\ Capture.stops icase a rest
    /\ k (Lang.last_char prev w) rest g' = Some res.
Proof.
  induction r as [|b|lo hi b|r1 IH1 r2 IH2|r1 IH1 r2 IH2|r1 IH1|];
    intros E prev s g k res Total H; cbn [Capture.ends_with] in E;
    try contradiction.
  - destruct hi as [h|]; [contradiction|]. subst b. cbn [run] in H.
    apply rep_greedy in H as (w & rest & -> & Hall & Hlo & Hst & Hk);
      [|intros p t; apply Total].
    exists w, rest, g. cbn. now repeat split.
  - assert (Tail : Capture.ends_with a r2 ->
      exists w rest g', s = w ++ rest /\ capture (Seq r1 r2) prev w rest g g'
        /\ Capture.stops icase a rest
        /\ k (Lang.last_char prev w) rest g' = Some res).
    { intros E2. cbn [run] in H.
      apply run_capture in H as (w1 & rest1 & g1 & -> & C1 & H).
      apply (IH2 E2) in H as (w2 & rest & g2 & -> & C2 & Hst & H);
        [|exact Total].
      exists (w1 ++ w2), rest, g2.
      rewrite app_assoc, Matcher.last_char_app.
      repeat split; [|exact Hst | exact H]. now exists w1, w2, g1. }
    destruct r2; try (now apply Tail).
    cbn [run] in H.
    apply (IH1 E) in H as (w & rest & g' & -> & C & Hst & H);
      [|exact Total].
    exists w, rest, g'.
    split; [reflexivity|]. split; [|split; [exact Hst | exact H]].
    exists w, [], g'. rewrite app_nil_r.
    split; [reflexivity|]. split; [exact C|]. cbn. now split.
  - destruct E as [E1 E2]. cbn [run] in H.
    destruct (run icase r1 prev s g k) as [x|] eqn:Er.
    + injection H as ->.
      apply (IH1 E1) in Er as (w & rest & g' & -> & C & Hst & H);
        [|exact Total].
      exists w, rest, g'. repeat split; [now left | exact Hst | exact H].
    + apply (IH2 E2) in H as (w & rest & g' & -> & C & Hst & H);
        [|exact Total].
      exists w, rest, g'. repeat split; [now right | exact Hst | exact H].
  - cbn [run] in H.
    apply (IH1 E) in H as (w & rest & g' & -> & C & Hst & H);
      [|intros p t h; apply Total].
    rewrite taken_app in H.
    exists w, rest, (Some w). repeat split; [|exact Hst | exact H].
    now apply capture_denote in C.
Qed.

Lemma match_at_greedy (a : atom) (r : regex) (prev : option N)
    (s s' : str) (g : option str) :
  Capture.ends_with a r ->
  match_at icase r prev s = Some (s', g) ->
  exists w, s = w ++ s' /\ taken s s' = w /\ capture r prev w s' None g
    /\ Capture.stops icase a s'.
Proof.
  intros E H. unfold match_at in H.
  assert (Total : forall (p : option N) (t : str) (h : option str),
            Some (t, h) <> None) by discriminate.
  destruct (@run_greedy a r E prev s None _ (s', g) Total H)
    as (w & rest & g' & -> & C & Hst & [= <- <-]).
  exists w. now rewrite taken_app.
Qed.

End Found.
End Found.

(** ** The languages of the patterns of the source *)

Section PatternFacts.
Context {U : Unicode}.

Lemma no_group_capture (icase : bool) (r : Re.regex) :
  Re.has_group r = false ->
  forall prev w rest g g',
  Capture.capture icase r prev w rest g g'
  <-> Lang.denote icase r prev w rest /\ g' = g.
Proof.
  induction r as [|a|lo hi a|r1 IH1 r2 IH2|r1 IH1 r2 IH2|r1 IH1|];
    intros G prev w rest g g'; cbn [Re.has_group] in G;
    try discriminate; try reflexivity.
  - apply orb_false_iff in G as [G1 G2].
    cbn [Capture.capture Lang.denote]. split.
    + intros (w1 & w2 & g1 & -> & C1 & C2).
      apply (IH1 G1) in C1 as [D1 ->]. apply (IH2 G2) in C2 as [D2 ->].
      split; [now exists w1, w2 | reflexivity].
    + intros [(w1 & w2 & -> & D1 & D2) ->].
      exists w1, w2, g. split; [reflexivity|].
      split; [now apply (IH1 G1) | now apply (IH2 G2)].
  - apply orb_false_iff in G as [G1 G2].
    cbn [Capture.capture Lang.denote].
    rewrite (IH1 G1), (IH2 G2). tauto.
Qed.

Lemma word_denote (icase : bool) (s : string) (prev : option N)
    (w rest : str) :
  Lang.denote icase (Re.word s) prev w rest
  <-> Forall2 (fun p c => Re.lit_match icase p c = true) (u s) w.
Proof.
  unfold Re.word. revert prev w.
  induction (u s) as [|p ps IH]; intros prev w; cbn [fold_right Lang.denote].
  - split; [intros ->; constructor | now inversion 1].
  - split.
    + intros (w1 & w2 & -> & (c & -> & Hc) & D). apply IH in D.
      now constructor.
    + inversion 1 as [|? c ? w2 Hc Hw]; subst.
      exists [c], w2. split; [reflexivity|].
      split; [now exists c | now apply IH].
Qed.

Lemma opt_denote (icase : bool) (a : Re.atom) (prev : option N)
    (w rest : str) :
  Lang.denote icase (Re.opt a) prev w rest
  <-> optional (fun c => Re.atom_match icase a c = true) w.
Proof.
  unfold Re.opt, optional. cbn [Lang.denote Lang.within]. split.
  - intros (Hall & _ & Hlen). destruct w as [|c [|c' w]].
    + now left.
    + right. exists c. split; [reflexivity | now inversion Hall].
    + simpl in Hlen. lia.
  - intros [->|(c & -> & Hc)]; repeat split; simpl; auto.
Qed.

Lemma phone_chars_match (c : N) :
  Re.atom_match false (Re.In Patterns.phone_chars) c = true
  <-> phone_char c.
Proof.
  unfold phone_char. cbn.
  rewrite !orb_true_iff, !N.eqb_eq.
  intuition (try discriminate; auto).
Qed.

Lemma phone_denote (prev : option N) (w rest : str) :
  Lang.denote false Patterns.phone prev w rest <-> phone_like w.
Proof.
  unfold Patterns.phone, Re.seq, Re.at_least, phone_like.
  cbn [fold_right]. cbn [Lang.denote Lang.within]. split.
  - intros (sign & w2 & -> & Hs & t1 & w4 & -> & (d1 & -> & Hd1)
            & mid & w6 & -> & (Hm & Lm & _) & t2 & e & -> & (d2 & -> & Hd2)
            & ->).
    exists sign, d1, mid, d2. rewrite app_nil_r.
    split; [reflexivity|]. split.
    { apply opt_denote in Hs.
      destruct Hs as [->|(c & -> & Hc)]; [now left|].
      right. exists c. split; [reflexivity|].
      cbn in Hc. now apply N.eqb_eq in Hc. }
    repeat split; auto.
    eapply Forall_iff; [|exact Hm]. intros x. symmetry.
    apply phone_chars_match.
  - intros (sign & d1 & mid & d2 & -> & Hs & Hd1 & Hm & Lm & Hd2).
    exists sign, (d1 :: mid ++ [d2]). split; [reflexivity|]. split.
    { apply opt_denote.
      destruct Hs as [->|(c & -> & ->)]; [now left|].
      right. exists (Re.ch "+"). split; [reflexivity|]. cbn.
      apply N.eqb_refl. }
    exists [d1], (mid ++ [d2]). split; [reflexivity|].
    split; [now exists d1|].
    exists mid, [d2]. split; [reflexivity|]. split.
    { repeat split; auto.
      eapply Forall_iff; [|exact Hm]. apply phone_chars_match. }
    exists [d2], []. split; [reflexivity|]. split; [now exists d2|].
    reflexivity.
Qed.

Lemma phone_like_length (w : str) : phone_like w -> (9 <= length w)%nat.
Proof.
  intros (sign & d1 & mid & d2 & -> & _ & _ & _ & L & _).
  rewrite length_app. simpl. rewrite length_app. simpl. lia.
Qed.

Lemma url_denote (prev : option N) (w rest : str) :
  Lang.denote true Patterns.url prev w rest <-> url_like w.
Proof.
  unfold Patterns.url, Re.seq, Re.plus, url_like.
  cbn [fold_right]. cbn [Lang.denote Lang.within].
  change (u "http://") with (u "http" ++ u "://").
  change (u "https://") with (u "http" ++ [Re.ch "s"] ++ u "://").
  change (u "www.") with (u "www" ++ [Re.ch "."]).
  unfold ci_matches. split.
  - intros [(w1 & r1 & -> & D1 & w2 & r2 & -> & D2 & w3 & r3 & -> & D3
             & w4 & e & -> & (H4 & L4 & _) & ->)
           |(w1 & r1 & -> & D1 & w2 & r2 & -> & (c & -> & Hc)
             & w4 & e & -> & (H4 & L4 & _) & ->)].
    + apply word_denote in D1, D3. apply opt_denote in D2.
      exists (w1 ++ w2 ++ w3), w4. rewrite !app_nil_r, <- !app_assoc.
      split; [reflexivity|]. split; [|split].
      * destruct D2 as [->|(c & -> & Hc)].
        -- left. now apply Forall2_app.
        -- right. left. apply Forall2_app; [exact D1|].
           apply Forall2_app; [|exact D3]. now repeat constructor.
      * intros ->. simpl in L4. lia.
      * eapply Forall_impl; [|exact H4]. intros x Hx. cbn in Hx.
        now apply negb_true_iff in Hx.
    + apply word_denote in D1.
      exists (w1 ++ [c]), w4. rewrite !app_nil_r, <- !app_assoc.
      split; [reflexivity|]. split; [|split].
      * right. right. apply Forall2_app; [exact D1|].
        now repeat constructor.
      * intros ->. simpl in L4. lia.
      * eapply Forall_impl; [|exact H4]. intros x Hx. cbn in Hx.
        now apply negb_true_iff in Hx.
  - intros (scheme & tail & -> & Hs & Nt & Ht).
    assert (Tail : Forall (fun c => Re.atom_match true Re.NonSpace c = true)
                     tail /\ (1 <= length tail)%nat /\ True).
    { repeat split.
      - eapply Forall_impl; [|exact Ht]. intros x Hx. cbn.
        now apply negb_true_iff.
      - destruct tail; [contradiction | simpl; lia]. }
    destruct Hs as [Hs|[Hs|Hs]].
    + apply Forall2_app_inv_l in Hs as (w1 & w3 & H1 & H3 & ->).
      left. exists w1, (w3 ++ tail). rewrite <- app_assoc.
      split; [reflexivity|]. split; [now apply word_denote|].
      exists [], (w3 ++ tail). split; [reflexivity|].
      split; [apply opt_denote; now left|].
      exists w3, tail. split; [reflexivity|].
      split; [now apply word_denote|].
      exists tail, []. now rewrite app_nil_r.
    + apply Forall2_app_inv_l in Hs as (w1 & r & H1 & Hr & ->).
      apply Forall2_app_inv_l in Hr as (w2 & w3 & H2 & H3 & ->).
      inversion H2 as [|? c ? ? Hc Hn]; subst. inversion Hn; subst.
      left. exists w1, ([c] ++ w3 ++ tail). rewrite <- !app_assoc.
      split; [reflexivity|]. split; [now apply word_denote|].
      exists [c], (w3 ++ tail). split; [reflexivity|].
      split; [apply opt_denote; right; now exists c|].
      exists w3, tail. split; [reflexivity|].
      split; [now apply word_denote|].
      exists tail, []. now rewrite app_nil_r.
    + apply Forall2_app_inv_l in Hs as (w1 & w2 & H1 & H2 & ->).
      inversion H2 as [|? c ? ? Hc Hn]; subst. inversion Hn; subst.
      right. exists w1, ([c] ++ tail). rewrite <- !app_assoc.
      split; [reflexivity|]. split; [now apply word_denote|].
      exists [c], tail. split; [reflexivity|].
      split; [now exists c|].
      exists tail, []. now rewrite app_nil_r.
Qed.

Lemma amount_chars_match (c : N) :
  Re.atom_match true (Re.In Patterns.amount_chars) c = true
  <-> amount_char c.
Proof.
  unfold amount_char. cbn. rewrite !orb_true_iff.
  intuition discriminate.
Qed.

Lemma space_opt_denote (icase : bool) (prev : option N) (w rest : str) :
  Lang.denote icase (Re.opt Re.Space) prev w rest
  -> optional (fun b => is_space b = true) w.
Proof. intros H. now apply opt_denote in H. Qed.

Lemma symbol_first_denote (sym : N) (prev : option N) (w rest : str) :
  Lang.denote true (Patterns.symbol_first sym) prev w rest ->
  symbol_first_like sym w.
Proof.
  unfold Patterns.symbol_first, Re.seq, Re.star, symbol_first_like.
  cbn [fold_right]. cbn [Lang.denote Lang.within].
  intros (t1 & r1 & -> & (c & -> & Hc) & sp & r2 & -> & Hsp
          & t2 & r3 & -> & (d & -> & Hd) & more & r4 & -> & (Hm & _)
          & b & e & -> & (-> & _) & ->).
  exists c, sp, d, more. rewrite !app_nil_r.
  split; [reflexivity|]. split; [exact Hc|].
  split; [now apply space_opt_denote in Hsp|]. split; [exact Hd|].
  eapply Forall_iff; [|exact Hm]. intros x. symmetry.
  apply amount_chars_match.
Qed.

Lemma symbol_last_denote (sym : N) (prev : option N) (w rest : str) :
  Lang.denote true (Patterns.symbol_last sym) prev w rest ->
  symbol_last_like sym w.
Proof.
  unfold Patterns.symbol_last, Re.seq, Re.at_least, symbol_last_like.
  cbn [fold_right]. cbn [Lang.denote Lang.within].
  intros (b & r1 & -> & (-> & _) & ds & r2 & -> & (Hds & Lds & _)
          & sp & r3 & -> & Hsp & t1 & r4 & -> & (c & -> & Hc)
          & b' & e & -> & (-> & _) & ->).
  exists ds, sp, c. rewrite !app_nil_r. cbn [app].
  split; [reflexivity|]. split; [exact Lds|]. split; [exact Hds|].
  split; [now apply space_opt_denote in Hsp | exact Hc].
Qed.

Lemma magnitude_capture (prev : option N) (w rest : str)
    (g : option str) :
  Capture.capture true Patterns.magnitude prev w rest None g ->
  exists number word,
    w = number ++ word /\ g = Some word
    /\ amount_with_magnitude number word.
Proof.
  unfold Patterns.magnitude, Re.seq, Re.star, amount_with_magnitude.
  cbn [fold_right]. cbn [Capture.capture].
  intros (b & r1 & g1 & -> & (Db & ->) & t1 & r2 & g2 & -> & (Dd & ->)
          & more & r3 & g3 & -> & (Dm & ->) & sp & r4 & g4 & -> & (Ds & ->)
          & word & r5 & g5 & -> & (Dw & ->)
          & b' & e & g6 & -> & (Db' & ->) & (De & ->)).
  cbn [Lang.denote] in Db, Dd, Dm, Db', De.
  destruct Db as [-> _], Db' as [-> _], Dd as (d & -> & Hd),
           Dm as (Hm & _). subst e.
  exists (d :: more ++ sp), word. rewrite !app_nil_r. cbn [app].
  split; [now rewrite <- app_assoc|]. split; [reflexivity|]. split.
  - exists d, more, sp. split; [reflexivity|]. split; [exact Hd|].
    split; [|now apply space_opt_denote in Ds].
    eapply Forall_iff; [|exact Hm]. intros x. symmetry.
    apply amount_chars_match.
  - unfold magnitude_like, magnitude_words, ci_matches.
    cbn [Lang.denote] in Dw.
    repeat (destruct Dw as [Dw|Dw]);
      apply word_denote in Dw;
      eexists; (split; [|exact Dw]); cbn [map In]; tauto.
Qed.

Lemma url_ends_greedy : Capture.ends_with Re.NonSpace Patterns.url.
Proof. now cbn. Qed.

End PatternFacts.

(** ** What the extractors return *)

Section ExtractorShapes.
Context {U : Unicode}.

Lemma phone_found (text x : str) :
  In x (find_phones text) -> substring x text /\ phone_like x.
Proof.
  unfold find_phones. intros Hx. apply (proj1 (set_of_In _ _)) in Hx.
  apply Found.findall_In in Hx as (pre & w & rest & g & -> & C & ->).
  apply Found.capture_denote, phone_denote in C.
  change (Re.reported Patterns.phone w g) with w.
  split; [now exists pre, rest | exact C].
Qed.

Lemma strip_nonempty_spec (x : str) :
  strip_nonempty x = true <-> exists c, In c x /\ is_space c = false.
Proof.
  unfold strip_nonempty. rewrite existsb_exists.
  split; intros (c & Hc & H); exists c; split; auto;
    now apply negb_true_iff.
Qed.

Lemma money_found (text x : str) :
  In x (find_money text) ->
  strip_nonempty x = true
  /\ ((substring x text
       /\ (symbol_first_like (Re.ch "€") x \/ symbol_first_like (Re.ch "$") x
           \/ symbol_last_like (Re.ch "€") x
           \/ symbol_last_like (Re.ch "$") x))
      \/ exists number,
           substring (number ++ x) text /\ amount_with_magnitude number x).
Proof.
  unfold find_money. intros Hx. apply (proj1 (set_of_In _ _)) in Hx.
  apply filter_In in Hx as [Hx Hs]. split; [exact Hs|].
  apply in_flat_map in Hx as (p & Hp & Hx).
  apply Found.findall_In in Hx as (pre & w & rest & g & -> & C & ->).
  unfold Patterns.money in Hp. cbn [In] in Hp.
  destruct Hp as [<-|[<-|[<-|[<-|[<-|[]]]]]].
  - apply Found.capture_denote, symbol_first_denote in C.
    left. split; [now exists pre, rest | now left].
  - apply Found.capture_denote, symbol_first_denote in C.
    left. split; [now exists pre, rest | right; now left].
  - apply magnitude_capture in C as (number & word & -> & -> & A).
    change (Re.reported Patterns.magnitude (number ++ word) (Some word))
      with word.
    right. exists number. split; [|exact A].
    exists pre, rest. now rewrite <- app_assoc.
  - apply Found.capture_denote, symbol_last_denote in C.
    left. split; [now exists pre, rest | right; right; now left].
  - apply Found.capture_denote, symbol_last_denote in C.
    left. split; [now exists pre, rest | right; right; now right].
Qed.

(** [find_phones] returns, each once, parts of the text that consist of
    an optional "+", a digit, at least seven phone characters and a final
    digit, hence of nine characters or more; it returns nothing exactly
    when the text has no such part. *)
Theorem phones_are_phone_like (text : str) :
  NoDup (find_phones text)
  /\ Forall (fun x => substring x text /\ phone_like x
                      /\ (9 <= length x)%nat) (find_phones text)
  /\ (find_phones text = []
      <-> forall w, phone_like w -> ~ substring w text).
Proof.
  split; [apply set_of_NoDup|]. split.
  - apply Forall_forall. intros x Hx.
    apply phone_found in Hx as [Hs Hp].
    split; [exact Hs|]. split; [exact Hp | now apply phone_like_length].
  - unfold find_phones.
    rewrite set_of_nil, Found.findall_nil_iff. unfold no_match. split.
    + intros H w Hw (pre & post & E).
      apply (H pre w post E). now apply phone_denote.
    + intros H pre w rest E D. apply phone_denote in D.
      apply (H w D). now exists pre, rest.
Qed.

(** [find_urls] returns, each once, parts of the text that start with
    "http://", "https://" or "www." in any case and go on, without white
    space, up to the next white space or the end of the text; it returns
    nothing exactly when the text has no url-like part. *)
Theorem urls_run_to_white_space (text : str) :
  NoDup (find_urls text)
  /\ Forall (fun x =>
       url_like x
       /\ exists pre rest, text = pre ++ x ++ rest
            /\ match rest with
               | [] => True
               | c :: _ => is_space c = true
               end) (find_urls text)
  /\ (find_urls text = [] <-> forall w, url_like w -> ~ substring w text).
Proof.
  unfold find_urls. split; [apply set_of_NoDup|]. split.
  - apply Forall_forall. intros x Hx. apply (proj1 (set_of_In _ _)) in Hx.
    apply Found.findall_from_match in Hx
      as (pre & s1 & s' & g & -> & M & ->).
    eapply Found.match_at_greedy in M; [|exact url_ends_greedy].
    destruct M as (w & -> & T & C & St). rewrite T.
    apply Found.capture_denote, url_denote in C.
    change (Re.reported Patterns.url w g) with w.
    split; [exact C|]. exists pre, s'. split; [reflexivity|].
    destruct s' as [|c s']; [exact I|]. cbn in St.
    now apply negb_false_iff in St.
  - rewrite set_of_nil, Found.findall_nil_iff. unfold no_match. split.
    + intros H w Hw (pre & post & E).
      apply (H pre w post E). now apply url_denote.
    + intros H pre w rest E D. apply url_denote in D.
      apply (H w D). now exists pre, rest.
Qed.

(** [find_money] returns, each once, strings that are not blank and that
    are either a part of the text made of a currency symbol and a number
    (the symbol first, or last after at least two digits), or a bare
    magnitude word (m, million, millones, b, billion, mil, in any case)
    that follows a number in the text: for an amount written with a
    magnitude word the number itself is not returned. *)
Theorem money_mentions_shape (text : str) :
  NoDup (find_money text)
  /\ Forall (fun x =>
       (exists c, In c x /\ is_space c = false)
       /\ ((substring x text
            /\ (symbol_first_like (Re.ch "€") x
                \/ symbol_first_like (Re.ch "$") x
                \/ symbol_last_like (Re.ch "€") x
                \/ symbol_last_like (Re.ch "$") x))
           \/ (magnitude_like x
               /\ exists number,
                    substring (number ++ x) text
                    /\ amount_with_magnitude number x)))
       (find_money text).
Proof.
  split; [apply set_of_NoDup|].
  apply Forall_forall. intros x Hx.
  apply money_found in Hx as [Hs [H|(number & H1 & H2)]].
  - split; [now apply strip_nonempty_spec | now left].
  - split; [now apply strip_nonempty_spec|]. right.
    split; [exact (proj2 H2) | now exists number].
Qed.

Lemma digit_in_text (text pre w rest : str) (d : N) :
  Forall (fun c => is_digit c = false) text ->
  text = pre ++ w ++ rest -> In d w -> is_digit d = true -> False.
Proof.
  intros H -> Hd E. rewrite Forall_forall in H.
  rewrite (H d) in E; [discriminate|].
  apply in_or_app. right. apply in_or_app. now left.
Qed.

(** A text without any digit has no money mention and no phone: every
    pattern of the two extractors asks for a digit. *)
Theorem no_digit_no_money_no_phone (text : str) :
  Forall (fun c => is_digit c = false) text ->
  find_money text = [] /\ find_phones text = [].
Proof.
  intros H. split.
  - destruct (find_money text) as [|x l] eqn:E; [reflexivity|]. exfalso.
    assert (Hx : In x (find_money text)) by (rewrite E; now left).
    apply money_found in Hx as [_ [[(pre & post & S) Sh]|(number & S & A)]].
    + destruct Sh as [Sh|[Sh|[Sh|Sh]]].
      * destruct Sh as (c & sp & d & more & -> & _ & _ & Hd & _).
        apply (@digit_in_text text _ _ _ d H S); [|exact Hd].
        right. apply in_or_app. right. now left.
      * destruct Sh as (c & sp & d & more & -> & _ & _ & Hd & _).
        apply (@digit_in_text text _ _ _ d H S); [|exact Hd].
        right. apply in_or_app. right. now left.
      * destruct Sh as (ds & sp & c & -> & L & Hds & _).
        destruct ds as [|d ds]; [simpl in L; lia|].
        apply (@digit_in_text text _ _ _ d H S); [now left | now inversion Hds].
      * destruct Sh as (ds & sp & c & -> & L & Hds & _).
        destruct ds as [|d ds]; [simpl in L; lia|].
        apply (@digit_in_text text _ _ _ d H S); [now left | now inversion Hds].
    + destruct S as (pre & post & S).
      destruct A as [(d & more & sp & -> & Hd & _) _].
      apply (@digit_in_text text _ _ _ d H S); [now left | exact Hd].
  - destruct (find_phones text) as [|x l] eqn:E; [reflexivity|]. exfalso.
    assert (Hx : In x (find_phones text)) by (rewrite E; now left).
    apply phone_found in Hx
      as [(pre & post & S) (sign & d1 & mid & d2 & -> & _ & Hd & _)].
    apply (@digit_in_text text _ _ _ d1 H S); [|exact Hd].
    apply in_or_app. right. now left.
Qed.

End ExtractorShapes.

(** A text of letters and spaces, on the ASCII tables. *)
Lemma no_digit_no_money_no_phone_witness :
  find_money (U:=ascii_tables) (u "call me maybe") = []
  /\ find_phones (U:=ascii_tables) (u "call me maybe") = [].
Proof.
  apply (no_digit_no_money_no_phone (U:=ascii_tables)).
  repeat constructor.
Defined.

(** ** The domain of the sender *)

Section DomainFacts.
Context {U : Unicode}.

Lemma email_domain_ends_greedy :
  Capture.ends_with (Re.In Patterns.letters) Patterns.email_domain.
Proof. now cbn. Qed.

Lemma email_domain_capture (prev : option N) (w rest : str)
    (g : option str) :
  Capture.capture false Patterns.email_domain prev w rest None g ->
  exists host tld,
    w = Re.ch "@" :: host ++ Re.ch "." :: tld
    /\ g = Some (host ++ Re.ch "." :: tld)
    /\ host <> [] /\ Forall host_char host
    /\ Forall letter tld /\ (2 <= length tld)%nat.
Proof.
  intros C.
  assert (A : address_like w).
  { now apply Found.capture_denote, email_domain_denote in C. }
  unfold Patterns.email_domain in C. cbn [Capture.capture] in C.
  destruct C as (w1 & w2 & g1 & -> & [(c & -> & Hc) ->] & _ & ->).
  destruct A as (host & tld & E & Hh).
  injection E as -> ->. exists host, tld.
  split; [reflexivity|]. split; [reflexivity | exact Hh].
Qed.

(** When [extract_email_domain] returns a domain, it is the lower-cased
    text after the first "@" of the sender that starts an address: host
    characters, a dot and two letters or more, up to where the letters
    end.  Otherwise the sender holds no address-like part. *)
Theorem domain_is_first_address (sender : str) :
  match extract_email_domain sender with
  | Some d =>
    exists pre host tld rest,
      sender = pre ++ Re.ch "@" :: host ++ Re.ch "." :: tld ++ rest
      /\ d = str_lower (host ++ Re.ch "." :: tld)
      /\ host <> [] /\ Forall host_char host
      /\ Forall letter tld /\ (2 <= length tld)%nat
      /\ match rest with
         | [] => True
         | c :: _ => ~ letter c
         end
      /\ forall pre1 w1 rest1,
           sender = pre1 ++ w1 ++ rest1 -> address_like w1 ->
           (length pre <= length pre1)%nat
  | None => forall w, address_like w -> ~ substring w sender
  end.
Proof.
  destruct (extract_email_domain sender) as [d|] eqn:E;
    [|now apply extract_email_domain_none].
  unfold extract_email_domain, Re.search in E.
  destruct (Re.search_from false Patterns.email_domain None sender)
    as [m|] eqn:S; [|discriminate].
  injection E as <-.
  apply Found.search_from_match in S as (pre & s1 & s' & -> & M & _ & First).
  eapply Found.match_at_greedy in M; [|exact email_domain_ends_greedy].
  destruct M as (w & -> & _ & C & St).
  apply email_domain_capture in C
    as (host & tld & -> & -> & Nh & Hh & Ht & Lt).
  exists pre, host, tld, s'.
  split; [cbn [app]; now rewrite <- !app_assoc|].
  split; [reflexivity|]. repeat (split; [assumption|]). split.
  - destruct s' as [|c s']; [exact I|]. unfold Capture.stops in St.
    intros L. apply letters_match in L. congruence.
  - intros pre1 w1 rest1 E1 A. apply (First pre1 w1 rest1 E1).
    now apply email_domain_denote.
Qed.

End DomainFacts.

(** ** Flags, counts and the sender in the features *)

Section FeatureFacts.
Context {U : Unicode}.

Lemma contains_any_count (text : str) (terms : list str) :
  (contains_any text terms = true <-> 1 <= count_any text terms)
  /\ 0 <= count_any text terms <= Z.of_nat (length terms).
Proof.
  rewrite count_any_filter. unfold contains_any.
  set (f := fun t => contains (str_lower text) t). split.
  - rewrite existsb_exists. split.
    + intros (t & Ht & Hf).
      assert (Hin : In t (filter f terms)) by now apply filter_In.
      destruct (filter f terms); [destruct Hin | simpl; lia].
    + intros H. destruct (filter f terms) as [|t l] eqn:E;
        [simpl in H; lia|].
      exists t. apply filter_In. rewrite E. now left.
  - pose proof (filter_length_le f terms). lia.
Qed.

(** In the features a mention flag is true exactly when its count is at
    least 1; [role_hits] lies between 0 and 22 and [urgency_hits] between
    0 and 12, the lengths of the two term lists. *)
Theorem mention_flags_agree_with_counts (email : Email) :
  exists roles role_hits urgency urgency_hits,
    lookup (extract_features email) "mentions_roles" = Some (VBool roles)
    /\ lookup (extract_features email) "role_hits" = Some (VInt role_hits)
    /\ lookup (extract_features email) "mentions_urgency"
       = Some (VBool urgency)
    /\ lookup (extract_features email) "urgency_hits"
       = Some (VInt urgency_hits)
    /\ (roles = true <-> 1 <= role_hits) /\ 0 <= role_hits <= 22
    /\ (urgency = true <-> 1 <= urgency_hits) /\ 0 <= urgency_hits <= 12.
Proof.
  do 4 eexists.
  rewrite features_roles, features_role_hits, features_urgency,
    features_urgency_hits.
  repeat (split; [reflexivity|]).
  destruct (contains_any_count (text_of email) ROLE_TERMS) as [R1 R2].
  destruct (contains_any_count (text_of email) URGENCY_TERMS) as [U1 U2].
  change (Z.of_nat (length ROLE_TERMS)) with 22 in R2.
  change (Z.of_nat (length URGENCY_TERMS)) with 12 in U2.
  repeat split; try apply R1; try apply U1; lia.
Qed.

Lemma str_eqb_eq (a b : str) : str_eqb a b = true <-> a = b.
Proof. unfold str_eqb. destruct (str_eq_dec a b); split; congruence. Qed.

(** [sender_domain] is the extracted domain, or empty when there is none;
    [sender_is_free_domain] is true exactly when that domain is empty or
    one of the free domains; [length] counts the subject, the line break
    and the body. *)
Theorem free_domain_iff_empty_or_listed (email : Email) :
  exists domain free,
    lookup (extract_features email) "sender_domain" = Some (VStr domain)
    /\ lookup (extract_features email) "sender_is_free_domain"
       = Some (VBool free)
    /\ (free = true <-> domain = [] \/ In domain FREE_DOMAINS)
    /\ domain = match extract_email_domain (sender email) with
                | Some found => found
                | None => []
                end
    /\ lookup (extract_features email) "length"
       = Some (VInt (Z.of_nat (length (subject email))
                     + 1 + Z.of_nat (length (body email)))).
Proof.
  unfold extract_features. do 2 eexists.
  split; [reflexivity|]. split; [reflexivity|].
  set (domain := or_empty (extract_email_domain (sender email))).
  split; [|split].
  - destruct domain as [|c d] eqn:E.
    + split; [now left | reflexivity].
    + rewrite existsb_exists. split.
      * intros (x & Hx & Hq). apply str_eqb_eq in Hq. subst x. now right.
      * intros [H|H]; [discriminate|].
        exists (c :: d). split; [exact H | now apply str_eqb_eq].
  - unfold domain, or_empty.
    now destruct (extract_email_domain (sender email)) as [[|c d]|].
  - cbn [lookup String.eqb Ascii.eqb Bool.eqb]. do 2 f_equal.
    rewrite !length_app. simpl length. lia.
Qed.

End FeatureFacts.

(** ** What decides the action *)

Section ActionFacts.
Context {U : Unicode}.

Lemma action_cases (email : Email) :
  let d := decision_of email in
  action d
  = if (10 <=? Spec.score d "SECURITY") && (3 <=? Spec.trust d)
    then BLOCK
    else if (5 <=? Spec.score d "M_AND_A")
            || (8 <=? Spec.score d "LEGAL") then ESCALATE_HUMAN
    else if Spec.flag d "mentions_roles" && Spec.flag d "mentions_urgency"
            && Spec.flag d "money_mentions" then ESCALATE_HUMAN
    else if Float.ge_int (Spec.total d) 10 then ESCALATE_HUMAN
    else AUTO_REPLY.
Proof.
  intros d. destruct (risk_total_and_action email) as [_ H].
  unfold Spec.rules, Spec.first_match in H. exact H.
Qed.

(** The chain of rules on plain values. *)
Lemma block_only_by_first_rule (c1 c2 c3 c4 : bool) :
  (if c1 then BLOCK
   else if c2 then ESCALATE_HUMAN
   else if c3 then ESCALATE_HUMAN
   else if c4 then ESCALATE_HUMAN else AUTO_REPLY) = BLOCK
  <-> c1 = true.
Proof. destruct c1, c2, c3, c4; split; congruence. Qed.

(** The action is BLOCK exactly when the SECURITY score after suppression
    is at least 10 and at least two of these hold: the sender is on a free
    domain, there are two urls or more, there is a phone. *)
Theorem block_iff_security_and_two_trust_signals (email : Email) :
  exists d,
    decide_action email = Ok d
    /\ (action d = BLOCK
        <-> 10 <= Spec.score d "SECURITY"
            /\ 2 <= Z.b2z (Spec.flag d "sender_is_free_domain")
                    + Z.b2z (2 <=? Spec.count d "urls")
                    + Z.b2z (1 <=? Spec.count d "phones")).
Proof.
  exists (decision_of email). split; [apply decide_action_closed|].
  rewrite action_cases, block_only_by_first_rule. unfold Spec.trust.
  generalize (Spec.score (decision_of email) "SECURITY")
             (Spec.flag (decision_of email) "sender_is_free_domain")
             (2 <=? Spec.count (decision_of email) "urls")
             (1 <=? Spec.count (decision_of email) "phones").
  intros s f two_urls phone.
  rewrite andb_true_iff, !Z.leb_le.
  destruct (Z.ltb_spec 0 s), f, two_urls, phone;
    cbn [Spec.amount andb Z.b2z]; lia.
Qed.

(** An email in which a support term is matched and no strong security
    term occurs is never blocked. *)
Theorem support_ticket_is_never_blocked (email : Email) :
  exists d,
    decide_action email = Ok d
    /\ (action d = BLOCK ->
        get (intent_scores d) "SUPPORT" 0 = 0
        \/ exists t, In t strong_security_terms
             /\ substring t (str_lower (subject email ++ nl ++ body email))).
Proof.
  exists (decision_of email). split; [apply decide_action_closed|].
  rewrite action_cases, block_only_by_first_rule, andb_true_iff, Z.leb_le.
  intros [S _]. unfold Spec.score in S.
  rewrite decision_of_scores in *. unfold scores_after in *.
  set (scores := values_of _ INTENT_RULES) in *.
  assert (E : get (suppress email scores) "SUPPORT" 0
              = get scores "SUPPORT" 0).
  { unfold get. now rewrite suppress_other by discriminate. }
  rewrite E. unfold suppress in S.
  destruct (get scores "SUPPORT" 0 >=? 1) eqn:Sup.
  - destruct (get scores "SECURITY" 0 >? 0) eqn:Sec.
    + destruct (has_strong_security email) eqn:St.
      * right. now apply has_strong_security_spec.
      * cbn [andb negb] in S. unfold get in S.
        rewrite lookup_setitem_same in S. lia.
    + cbn [andb] in S. rewrite Z.gtb_ltb in Sec.
      apply Z.ltb_ge in Sec. lia.
  - left. pose proof (scores_range (str_lower (text_of email)) "SUPPORT").
    fold scores in H. rewrite Z.geb_leb in Sup. apply Z.leb_gt in Sup. lia.
Qed.

(** A matched M_AND_A term, or two distinct matched LEGAL terms, rule out
    AUTO_REPLY. *)
Theorem merger_or_legal_terms_are_not_auto_replied (email : Email) :
  exists d m_and_a legal,
    decide_action email = Ok d
    /\ lookup (intent_evidence d) "M_AND_A" = Some m_and_a
    /\ lookup (intent_evidence d) "LEGAL" = Some legal
    /\ (m_and_a <> [] \/ (2 <= length legal)%nat ->
        action d = ESCALATE_HUMAN \/ action d = BLOCK).
Proof.
  set (text := str_lower (text_of email)).
  exists (decision_of email).
  assert (Hm : exists rule, lookup INTENT_RULES "M_AND_A" = Some rule
                /\ weight rule = 5) by (eexists; split; reflexivity).
  assert (Hl : exists rule, lookup INTENT_RULES "LEGAL" = Some rule
                /\ weight rule = 4) by (eexists; split; reflexivity).
  destruct Hm as (rm & Km & Wm), Hl as (rl & Kl & Wl).
  exists (evidence_of text rm), (evidence_of text rl).
  split; [apply decide_action_closed|].
  rewrite decision_of_evidence. fold text. unfold values_of.
  rewrite !lookup_map_values, Km, Kl.
  split; [reflexivity|]. split; [reflexivity|]. intros H.
  rewrite action_cases.
  assert (Sm : Spec.score (decision_of email) "M_AND_A"
               = 5 * Z.of_nat (length (evidence_of text rm))).
  { unfold Spec.score. rewrite decision_of_scores. unfold get, scores_after.
    rewrite suppress_other by discriminate. fold text. unfold values_of.
    now rewrite lookup_map_values, Km, <- Wm, <- evidence_of_length. }
  assert (Sl : Spec.score (decision_of email) "LEGAL"
               = 4 * Z.of_nat (length (evidence_of text rl))).
  { unfold Spec.score. rewrite decision_of_scores. unfold get, scores_after.
    rewrite suppress_other by discriminate. fold text. unfold values_of.
    now rewrite lookup_map_values, Kl, <- Wl, <- evidence_of_length. }
  assert (B : (5 <=? Spec.score (decision_of email) "M_AND_A")
              || (8 <=? Spec.score (decision_of email) "LEGAL") = true).
  { apply orb_true_iff. destruct H as [H|H].
    - left. apply Z.leb_le. rewrite Sm.
      destruct (evidence_of text rm); [contradiction | simpl length; lia].
    - right. apply Z.leb_le. rewrite Sl. lia. }
  rewrite B. destruct (_ && _); auto.
Qed.

Lemma set_of_filter_length (f : str -> bool) (l : list str) :
  (length (set_of (filter f l)) <= length (set_of l))%nat.
Proof.
  apply NoDup_incl_length; [apply set_of_NoDup|].
  intros x Hx. apply set_of_In. apply (proj1 (set_of_In _ _)) in Hx.
  now apply filter_In in Hx.
Qed.

(** Every score of a decision is its weight times a number of distinct
    terms, so it lies between 0 and the largest score of its rule: 105 for
    M_AND_A, 52 for LEGAL, 105 for SECURITY, 22 for SALES, 11 for
    SUPPORT. *)
Theorem scores_are_bounded_multiples (email : Email) :
  exists d,
    decide_action email = Ok d
    /\ (forall k rule, lookup INTENT_RULES k = Some rule ->
        exists n, lookup (intent_scores d) k
                  = Some (weight rule * Z.of_nat n)
          /\ 0 <= weight rule * Z.of_nat n <= max_score rule)
    /\ map (fun item => (fst item, max_score (snd item))) INTENT_RULES
       = [ ("M_AND_A", 105); ("LEGAL", 52); ("SECURITY", 105);
           ("SALES", 22); ("SUPPORT", 11) ]%string.
Proof.
  exists (decision_of email). split; [apply decide_action_closed|].
  split; [|now vm_compute].
  intros k rule Hk. rewrite decision_of_scores. unfold scores_after.
  set (text := str_lower (text_of email)).
  assert (W : 0 <= weight rule).
  { apply lookup_In in Hk. pose proof INTENT_RULES_small as F.
    rewrite forallb_forall in F. specialize (F _ Hk).
    unfold small_rule in F. simpl in F.
    apply andb_true_iff in F as [F _]. now apply Z.leb_le. }
  assert (S0 : lookup (values_of (score_of text) INTENT_RULES) k
               = Some (score_of text rule)).
  { unfold values_of. now rewrite lookup_map_values, Hk. }
  unfold suppress.
  destruct (_ && _ && _);
    [destruct (string_dec k "SECURITY") as [->|N]|].
  - exists O. rewrite lookup_setitem_same, Z.mul_0_r.
    split; [reflexivity|]. unfold max_score. nia.
  - exists (length (set_of (hits_of text rule))).
    rewrite lookup_setitem_other by exact N.
    split; [exact S0|]. unfold max_score.
    pose proof (set_of_filter_length
      (fun term => contains text (str_lower term)) (terms rule)).
    unfold hits_of. nia.
  - exists (length (set_of (hits_of text rule))).
    split; [exact S0|]. unfold max_score.
    pose proof (set_of_filter_length
      (fun term => contains text (str_lower term)) (terms rule)).
    unfold hits_of. nia.
Qed.

End ActionFacts.

(** ** Strong security terms and the sender *)

Section StrongFacts.
Context {U : Unicode}.

Lemma strong_terms_listed :
  forall t, In t strong_security_terms -> In t SECURITY_TERMS.
Proof.
  assert (H : forallb (fun t => existsb (str_eqb t) SECURITY_TERMS)
                strong_security_terms = true) by now vm_compute.
  intros t Ht. rewrite forallb_forall in H. specialize (H t Ht).
  apply existsb_exists in H as (x & Hx & E).
  apply str_eqb_eq in E. now subst x.
Qed.

(** Every strong security term is one of the SECURITY terms.  So, when
    lower-casing leaves the strong terms as they are, an email in which a
    strong term occurs keeps a SECURITY score of at least 5 and lists that
    term in its SECURITY evidence. *)
Theorem strong_term_scores_as_security (email : Email) (t : str) :
  (forall t', In t' strong_security_terms -> str_lower t' = t') ->
  In t strong_security_terms ->
  substring t (str_lower (subject email ++ nl ++ body email)) ->
  In t SECURITY_TERMS
  /\ exists d ev,
       decide_action email = Ok d
       /\ 5 <= get (intent_scores d) "SECURITY" 0
       /\ lookup (intent_evidence d) "SECURITY" = Some ev
       /\ In t ev.
Proof.
  intros Low Ht Hs. split; [now apply strong_terms_listed|].
  destruct security_rule as (rule & Hk & Hterms & Hw).
  set (text := str_lower (text_of email)).
  assert (Hin : In t (evidence_of text rule)).
  { apply evidence_of_In. split.
    - rewrite Hterms. now apply strong_terms_listed.
    - rewrite (Low t Ht). exact Hs. }
  exists (decision_of email), (evidence_of text rule).
  split; [apply decide_action_closed|].
  rewrite decision_of_scores, decision_of_evidence. fold text.
  unfold values_of. rewrite lookup_map_values, Hk.
  split; [|split; [reflexivity | exact Hin]].
  unfold scores_after, suppress.
  assert (St : has_strong_security email = true).
  { apply has_strong_security_spec. now exists t. }
  rewrite St, andb_false_r. fold text. unfold get, values_of.
  rewrite lookup_map_values, Hk. cbn [option_map].
  rewrite evidence_of_length, Hw.
  destruct (evidence_of text rule); [destruct Hin | simpl length; lia].
Qed.

(** The sender reaches a decision through [sender_domain] and
    [sender_is_free_domain] alone: two emails with the same subject and
    body get the same scores, evidence and other features, and the same
    action and risk as soon as their free-domain flags agree. *)
Theorem sender_only_sets_domain_features (sender1 sender2 subj text : str) :
  let e1 := {| sender := sender1; subject := subj; body := text |} in
  let e2 := {| sender := sender2; subject := subj; body := text |} in
  exists d1 d2,
    decide_action e1 = Ok d1 /\ decide_action e2 = Ok d2
    /\ intent_scores d1 = intent_scores d2
    /\ intent_evidence d1 = intent_evidence d2
    /\ (forall k, k <> "sender_domain"%string ->
        k <> "sender_is_free_domain"%string ->
        lookup (features d1) k = lookup (features d2) k)
    /\ (lookup (features d1) "sender_is_free_domain"
        = lookup (features d2) "sender_is_free_domain" ->
        action d1 = action d2 /\ risk d1 = risk d2).
Proof.
  intros e1 e2. exists (decision_of e1), (decision_of e2).
  split; [apply decide_action_closed|].
  split; [apply decide_action_closed|].
  assert (Sc : scores_after e1 = scores_after e2) by reflexivity.
  split; [exact Sc|]. split; [reflexivity|]. split.
  - intros k N1 N2. rewrite !decision_of_features.
    unfold extract_features. cbn [lookup].
    apply String.eqb_neq in N1, N2.
    rewrite (String.eqb_sym _ k), N1, (String.eqb_sym _ k), N2.
    reflexivity.
  - rewrite !decision_of_features. intros F.
    assert (Fr : free_sender e1 = free_sender e2).
    { unfold free_sender. now rewrite F. }
    assert (Tr : trust_after e1 = trust_after e2).
    { unfold trust_after. now rewrite Fr, Sc. }
    assert (To : total_after e1 = total_after e2).
    { unfold total_after. now rewrite Tr, Sc. }
    unfold decision_of. cbn [action risk]. now rewrite Tr, To, Sc.
Qed.

End StrongFacts.

(** The strong terms are lower case on the ASCII tables; the email names a
    wire transfer. *)
Lemma strong_term_scores_as_security_witness :
  exists d ev,
    decide_action (U:=ascii_tables) wire_mail = Ok d
    /\ 5 <= get (intent_scores d) "SECURITY" 0
    /\ lookup (intent_evidence d) "SECURITY" = Some ev
    /\ In (u "wire transfer") ev.
Proof.
  apply (strong_term_scores_as_security (U:=ascii_tables) wire_mail
           (t:=u "wire transfer")).
  - intros t' Ht'. vm_compute in Ht'.
    repeat (destruct Ht' as [<-|Ht']; [reflexivity|]). destruct Ht'.
  - vm_compute. tauto.
  - apply contains_spec. vm_compute. reflexivity.
Defined.

(** ** The command line *)

Section CommandLine.
Context {U : Unicode}.
Import IO.

Lemma read_loop_spec (pending : list key) :
  forall acc,
    let (r, rest) := read_loop pending acc in
    exists new,
      Forall (fun l => l <> []) new
      /\ match r with
         | Done lines =>
           lines = acc ++ new /\ pending = typed new ++ Line [] :: rest
         | Fail EOFError => pending = typed new /\ rest = []
         | Fail (Console f) => pending = typed new ++ Breaks f :: rest
         | Fail (Raised _) => False
         end.
Proof.
  induction pending as [|k pending IH]; intros acc.
  - exists []. now repeat split.
  - destruct k as [[|c line]|f].
    + exists []. rewrite app_nil_r. now repeat split.
    + specialize (IH (acc ++ [c :: line])).
      match type of IH with
      | context [read_loop ?a ?b] =>
        change (read_loop (Line (c :: line) :: pending) acc)
          with (read_loop a b);
        destruct (read_loop a b) as [[lines|e] rest]
      end.
      * destruct IH as (new & F & -> & ->).
        exists ((c :: line) :: new). rewrite <- app_assoc.
        repeat split. constructor; [discriminate | exact F].
      * destruct IH as (new & F & H).
        exists ((c :: line) :: new).
        split; [constructor; [discriminate | exact F]|].
        destruct e as [|e|f]; [|contradiction|].
        -- destruct H as [-> ->]. now split.
        -- now rewrite H.
    + exists []. now repeat split.
Qed.

Lemma read_loop_done (lines : list str) (rest : list key)
    (acc : list str) :
  Forall (fun l => l <> []) lines ->
  read_loop (typed lines ++ Line [] :: rest) acc = (Done (acc ++ lines), rest).
Proof.
  revert acc. induction lines as [|l lines IH]; intros acc F; cbn.
  - now rewrite app_nil_r.
  - inversion F as [|? ? Hl F']; subst. destruct l; [contradiction|].
    rewrite IH by exact F'. now rewrite <- app_assoc.
Qed.

Lemma read_loop_end (lines acc : list str) :
  Forall (fun l => l <> []) lines ->
  read_loop (typed lines) acc = (Fail EOFError, []).
Proof.
  revert acc. induction lines as [|l lines IH]; intros acc F; cbn.
  - reflexivity.
  - inversion F as [|? ? Hl F']; subst. destruct l; [contradiction|].
    now apply IH.
Qed.

Lemma read_loop_breaks (lines : list str) (f : fault) (rest : list key)
    (acc : list str) :
  Forall (fun l => l <> []) lines ->
  read_loop (typed lines ++ Breaks f :: rest) acc = (Fail (Console f), rest).
Proof.
  revert acc. induction lines as [|l lines IH]; intros acc F; cbn.
  - reflexivity.
  - inversion F as [|? ? Hl F']; subst. destruct l; [contradiction|].
    now apply IH.
Qed.

(** [read_multiline] prints its prompt and reads lines until the first
    empty one.  When the console accepts the prompt: given lines that are
    not empty and then an empty one, it returns them joined by line
    breaks and leaves what follows the empty line unread; when the input
    ends before an empty line it has read everything and raises
    [EOFError]; when an [input] raises, that exception comes out.  When
    the console refuses the prompt, the exception of the console comes
    out and nothing is read. *)
Theorem read_multiline_stops_at_empty_line (prompt : str)
    (lines : list str) :
  Forall (fun l => l <> []) lines ->
  forall (out : list event) (r : list event -> event -> option fault),
    let before pending :=
      {| stdin := pending; stdout := out; refuses := r |} in
    let after pending :=
      {| stdin := pending; stdout := out ++ [Say prompt]; refuses := r |} in
    match r out (Say prompt) with
    | None =>
      (forall rest,
         read_multiline prompt (before (typed lines ++ Line [] :: rest))
         = (Done (join nl lines), after rest))
      /\ read_multiline prompt (before (typed lines))
         = (Fail EOFError, after [])
      /\ (forall f rest,
         read_multiline prompt (before (typed lines ++ Breaks f :: rest))
         = (Fail (Console f), after rest))
    | Some f =>
      forall pending,
        read_multiline prompt (before pending)
        = (Fail (Console f), before pending)
    end.
Proof.
  intros F out r before after.
  destruct (r out (Say prompt)) as [f|] eqn:R.
  - intros pending. unfold read_multiline, bind, emit, before.
    cbn [stdin stdout refuses]. now rewrite R.
  - repeat split; intros; unfold read_multiline, bind, emit, before, after;
      cbn [stdin stdout refuses]; rewrite R; cbn [stdin stdout refuses].
    + now rewrite read_loop_done.
    + now rewrite read_loop_end.
    + now rewrite read_loop_breaks.
Qed.

Lemma read_multiline_stops_at_empty_line_witness :
  read_multiline (u "Body:")
    {| stdin := typed [u "a"; u "b"] ++ Line [] :: [Line (u "c")];
       stdout := []; refuses := fun _ _ => None |}
  = (Done (u "a" ++ nl ++ u "b"),
     {| stdin := [Line (u "c")]; stdout := [Say (u "Body:")];
        refuses := fun _ _ => None |}).
Proof.
  apply (proj1 (@read_multiline_stops_at_empty_line (u "Body:")
                  [u "a"; u "b"]
                  ltac:(repeat constructor; discriminate)
                  [] (fun _ _ => None)) [Line (u "c")]).
Defined.

Lemma join_cons (l : str) (lines : list str) :
  lines <> [] -> join nl (l :: lines) = l ++ 10%N :: join nl lines.
Proof. destruct lines; [contradiction | reflexivity]. Qed.

Lemma line_break_split (l : str) :
  one_line l ->
  forall pre s t,
    l ++ 10%N :: s = pre ++ 10%N :: t ->
    (pre = l /\ s = t) \/ exists pre', s = pre' ++ 10%N :: t.
Proof.
  unfold one_line. induction l as [|c l IH]; intros Ol pre s t E.
  - destruct pre as [|p pre]; cbn in E.
    + injection E as ->. now left.
    + injection E as <- ->. right. now exists pre.
  - destruct pre as [|p pre]; cbn in E.
    + injection E as -> _. exfalso. apply Ol. now left.
    + injection E as <- E.
      destruct (IH (fun H => Ol (or_intror H)) pre s t E) as [[-> ->]|R].
      * now left.
      * now right.
Qed.

Lemma one_line_no_break (l pre t : str) :
  one_line l -> l <> pre ++ 10%N :: t.
Proof. intros Ol ->. apply Ol, in_elt. Qed.

Lemma join_no_blank_line (lines : list str) :
  Forall (fun l => l <> [] /\ one_line l) lines ->
  (lines <> [] -> join nl lines <> [])
  /\ (forall rest, join nl lines <> 10%N :: rest)
  /\ (forall pre post, join nl lines <> pre ++ 10%N :: 10%N :: post)
  /\ (forall pre, join nl lines <> pre ++ [10%N]).
Proof.
  induction 1 as [|l lines [Nl Ol] F (IH0 & IH1 & IH2 & IH3)].
  - split; [now intros E|]. cbn.
    repeat split; intros; try discriminate; destruct pre; discriminate.
  - destruct lines as [|l' lines].
    + cbn [join]. split; [now intros _|].
      split; [|split]; intros.
      * apply (@one_line_no_break l [] rest Ol).
      * now apply one_line_no_break.
      * now apply one_line_no_break.
    + rewrite join_cons by discriminate.
      set (s := join nl (l' :: lines)) in *.
      assert (S0 : s <> []) by (apply IH0; discriminate).
      split; [now destruct l|].
      split; [|split].
      * intros rest E. destruct l as [|c l]; [contradiction|].
        injection E as -> _. apply Ol. now left.
      * intros pre post E.
        destruct (@line_break_split l Ol _ _ _ E) as [[_ E']|[pre' E']].
        -- now apply IH1 in E'.
        -- now apply IH2 in E'.
      * intros pre E.
        destruct (@line_break_split l Ol _ _ _ E) as [[_ E']|[pre' E']].
        -- contradiction.
        -- now apply IH3 in E'.
Qed.

(** The body that [read_multiline] returns holds no empty line: when the
    lines typed carry no line break of their own, the text neither begins
    nor ends with a line break and has no two in a row. *)
Theorem body_has_no_blank_line (prompt : str) (w w' : world) (body : str) :
  (forall l, In (Line l) (stdin w) -> one_line l) ->
  read_multiline prompt w = (Done body, w') ->
  (forall rest, body <> 10%N :: rest)
  /\ (forall pre post, body <> pre ++ 10%N :: 10%N :: post)
  /\ (forall pre, body <> pre ++ [10%N]).
Proof.
  intros O R. unfold read_multiline, bind, emit in R.
  destruct (refuses w (stdout w) (Say prompt)); [discriminate|].
  cbn [stdin stdout refuses] in R.
  pose proof (read_loop_spec (stdin w) []) as L.
  destruct (read_loop (stdin w) []) as [[lines|e] rest]; [|discriminate].
  injection R as <- _. destruct L as (new & F & -> & E). cbn [app].
  apply join_no_blank_line.
  rewrite Forall_forall in *. intros l Hl. split; [now apply F|].
  apply O. rewrite E. apply in_or_app. left. unfold typed.
  now apply in_map.
Qed.

Lemma body_has_no_blank_line_witness :
  let w := {| stdin := typed [u "hello"; u "world"; []; u "next"];
              stdout := []; refuses := fun _ _ => None |} in
  (forall l, In (Line l) (stdin w) -> one_line l)
  /\ (forall pre post,
        u "hello" ++ nl ++ u "world" <> pre ++ 10%N :: 10%N :: post).
Proof.
  intros w.
  assert (O : forall l, In (Line l) (stdin w) -> one_line l).
  { intros l H. cbn in H.
    repeat (destruct H as [H|H];
            [injection H as <-; intros B; cbn in B;
             repeat (destruct B as [B|B]; [discriminate B|]); exact B|]).
    destruct H. }
  split; [exact O|].
  exact (proj1 (proj2 (@body_has_no_blank_line (u "Body:") w
    {| stdin := typed [u "next"]; stdout := [Say (u "Body:")];
       refuses := fun _ _ => None |}
    (u "hello" ++ nl ++ u "world") O eq_refl))).
Defined.

(** *** Printing *)







Lemma world_eta (w : world) :
  {| stdin := stdin w; stdout := stdout w ++ []; refuses := refuses w |} = w.
Proof. destruct w. cbn. now rewrite app_nil_r. Qed.

Lemma prints_ret : prints (ret tt) [].
Proof. intros w _. unfold ret. now rewrite world_eta. Qed.

Lemma prints_emit (e : event) : prints (emit e) [e].
Proof. intros w A. unfold emit. now rewrite A. Qed.

Lemma prints_bind (m : io unit) (k : io unit) (o1 o2 : list event) :
  prints m o1 -> prints k o2 -> prints (_ <~ m ;; k) (o1 ++ o2).
Proof.
  intros P1 P2 w A. unfold bind. rewrite P1 by exact A.
  rewrite P2 by exact A. cbn [stdin stdout refuses].
  now rewrite app_assoc.
Qed.

Lemma prints_for_each (A : Type) (f : A -> io unit) (l : list A) :
  (forall a, In a l -> exists out, prints (f a) out) ->
  exists out, prints (for_each l f) out.
Proof.
  induction l as [|a l IH]; intros P; cbn [for_each].
  - exists []. apply prints_ret.
  - destruct (P a (or_introl eq_refl)) as [o1 P1].
    destruct IH as [o2 P2]; [intros b Hb; apply P; now right|].
    exists (o1 ++ o2). now apply prints_bind.
Qed.

Lemma prints_lookup (f : dict value) (k : string) (v : value)
    (g : value -> event) :
  Dict.lookup f k = Some v ->
  prints (x <~ lift (getitem f k) ;; emit (g x)) [g v].
Proof.
  intros L w A. unfold bind, lift, getitem, Dict.getitem. rewrite L.
  now apply prints_emit.
Qed.

(** The keys that [main] reads from the feature dictionary. *)
Lemma printed_features (email : Email) (k : string) :
  In k [ "sender_domain"; "sender_is_free_domain"; "mentions_roles";
         "mentions_urgency"; "money_mentions"; "urls"; "phones" ]%string ->
  exists v, Dict.lookup (extract_features email) k = Some v.
Proof.
  unfold extract_features. cbv zeta. intros H. cbn [In] in H.
  repeat (destruct H as [<-|H]; [eexists; reflexivity|]). contradiction.
Qed.


Lemma report_prints (email : Email) :
  let d := decision_of email in
  exists shown,
    prints (report d)
      (Say (nl ++ u "--- Decision ---")
       :: Show (u "Action:") (AnAction (action d))
       :: Show (u "Risk score:") (AFloat (risk d))
       :: shown).
Proof.
  intros d. unfold report. cbv zeta.
  destruct (@prints_for_each _
              (fun kv => emit (Show (u (fst kv) ++ u ":") (AnInt (snd kv))))
              (intent_scores d)) as [o1 P1].
  { intros a _. eexists. apply prints_emit. }
  destruct (@prints_for_each _
              (fun kev : string * list str =>
                 match snd kev with
                 | [] => ret tt
                 | ev => emit (Show (u (fst kev) ++ u ":") (AList ev))
                 end)
              (intent_evidence d)) as [o2 P2].
  { intros [k ev] _. destruct ev; eexists;
      [apply prints_ret | apply prints_emit]. }
  destruct (@prints_for_each _
              (fun k =>
                 v <~ lift (getitem (features d) k) ;;
                 emit (Show (u k ++ u ":") (AValue v)))
              [ "sender_domain"; "sender_is_free_domain"; "mentions_roles";
                "mentions_urgency"; "money_mentions"; "urls";
                "phones" ]%string) as [o3 P3].
  { intros k Hk. subst d. rewrite decision_of_features.
    destruct (printed_features email Hk) as [v L].
    eexists. apply prints_lookup with (g := fun v => Show _ (AValue v)).
    exact L. }
  exists (Say (nl ++ u "--- Intent scores ---") :: o1
          ++ Say (nl ++ u "--- Evidence (matched signals) ---") :: o2
          ++ Say (nl ++ u "--- Extracted features ---") :: o3).
  repeat match goal with
  | |- prints (bind (emit ?e) ?k) (_ :: ?rest) =>
    apply (@prints_bind (emit e) (k tt) [e] rest); [apply prints_emit|]
  | |- prints (bind (for_each _ _) _) (_ ++ _) =>
    apply prints_bind; [assumption|]
  end.
  exact P3.
Qed.


(** On a console that raises nothing, given a sender line, a subject
    line, body lines and an empty line, [main] ends normally, leaves the
    rest of the input unread and prints, after its four prompts, the
    action and the risk that [decide_action] gives for the email made of
    the stripped sender, the stripped subject and the body lines joined
    by line breaks. *)
Theorem main_reports_decision_of_email_read (first second : str)
    (lines : list str) (rest : list key) (out : list event)
    (r : list event -> event -> option fault) :
  (forall printed e, r printed e = None) ->
  Forall (fun l => l <> []) lines ->
  exists d shown,
    decide_action
      {| sender := strip first; subject := strip second;
         body := join nl lines |} = Ok d
    /\ main {| stdin := Line first :: Line second :: typed lines
                        ++ Line [] :: rest;
               stdout := out; refuses := r |}
       = (Done tt,
          {| stdin := rest;
             stdout :=
               out
               ++ [ Say banner;
                    Ask (u "Sender (e.g., john@company.com): ");
                    Ask (u "Subject: ");
                    Say (u "Paste email body (finish with an empty line):");
                    Say (nl ++ u "--- Decision ---");
                    Show (u "Action:") (AnAction (action d));
                    Show (u "Risk score:") (AFloat (risk d)) ]
               ++ shown;
             refuses := r |}).
Proof.
  intros A F.
  set (email := {| sender := strip first; subject := strip second;
                   body := join nl lines |}).
  destruct (report_prints email) as [shown P].
  exists (decision_of email), shown. split; [apply decide_action_closed|].
  unfold main, input, input_line, read_multiline, bind, emit.
  cbn [stdin stdout refuses].
  repeat (rewrite A; cbn [stdin stdout refuses]).
  rewrite read_loop_done by exact F. cbn [app]. fold email.
  rewrite decide_action_closed. unfold lift.
  rewrite P by exact A. cbn [stdin stdout refuses].
  now repeat (rewrite <- app_assoc; cbn [app]).
Qed.

End CommandLine.

Lemma main_reports_decision_of_email_read_witness :
  (forall (printed : list IO.event) (e : IO.event),
     (fun _ _ => @None IO.fault) printed e = None)
  /\ Forall (fun l : str => l <> []) [u "hello"]
  /\ exists d,
       decide_action (U:=ascii_tables)
         {| sender := IO.strip (U:=ascii_tables) (u " a@b.co ");
            subject := IO.strip (U:=ascii_tables) (u "Hi");
            body := IO.join nl [u "hello"] |} = Ok d
       /\ fst (IO.main (U:=ascii_tables)
                 {| IO.stdin := IO.typed [u " a@b.co "; u "Hi"; u "hello";
                                          []; u "unread"];
                    IO.stdout := [];
                    IO.refuses := fun _ _ => None |}) = IO.Done tt.
Proof.
  assert (F : Forall (fun l : str => l <> []) [u "hello"])
    by (repeat constructor; discriminate).
  split; [reflexivity|]. split; [exact F|].
  destruct (@main_reports_decision_of_email_read ascii_tables
              (u " a@b.co ") (u "Hi") [u "hello"] [IO.Line (u "unread")] []
              (fun _ _ => None) (fun _ _ => eq_refl) F)
    as (d & shown & D & M).
  exists d. split; [exact D|].
  cbn [app] in M. cbn [IO.typed map]. cbn [IO.typed map app] in M.
  now rewrite M.
Defined.
